(** * Job portal: match scoring and application lifecycle

    A shallow embedding of the business logic of the job portal's server:

    - [Scorer.calculateJobMatch] of [server/routes/jobs.js], the score shown
      next to a job for a candidate;
    - the application documents of [server/models/Application.js] with their
      [pre('save')] hook, [updateStatus] and [calculateMatchScore], and the
      seven route handlers of [server/routes/applications.js] that write
      them;
    - the virtuals [age] and [fullLocation] of the models, the list of
      applications, and what the job lists do with the match scores: the
      ranking and the pagination (module [Views]).

    Conventions of the embedding.
    - JavaScript strings are [string]s; [toLowerCase] and [trim] act on the
      ASCII range.  A property that may be [undefined] is an [option].
    - A JavaScript number that only ever holds a small integer (a length, a
      counter, an HTTP status, a submission-time score) is a [Z] or a [nat].
      The job score is a double: it is a rational, and every arithmetic
      operation of the source on it is the exact operation followed by a
      rounding operator constrained by the laws of round-to-nearest
      binary64 (see [Scorer.Rounding]).
    - Dates are milliseconds since the epoch, ObjectIds are numbers.
    - The collections are explicit state, and so is the clock; the handlers
      run in a small state-and-exception monad, requests one after the
      other.

    What is taken from the libraries the source runs on.
    - Mongoose: [save] validates the whole document against the schema
      first, then runs the [pre('save')] hook of the schema, then writes;
      an insert is refused by a unique index, an update goes by [_id];
      assigning to a path of a stored document marks it modified when the
      value differs; a default does not mark its path modified.
      A nested path of a schema ([profile.location] of a user) is read
      as an object on every document, empty when nothing is stored in it.
      The id given to [findById] is cast to an ObjectId, and the query
      throws when the cast fails.
    - express-validator: a chain reports an error or lets the (sanitized)
      value through; where the model does not look into the chains of a
      route, their verdict is part of the request.
    - Express: the routes of a router are tried in the order of their
      registration, and the first whose path matches runs. *)

From Stdlib Require Import Bool List Arith ZArith QArith Qround Qabs Lia Lqa.
From Stdlib Require Import Permutation Sorted Ascii String.
Import ListNotations.

(* ------------------------------------------------------------------ *)
(** ** JavaScript built-ins used by the source *)

Module JS.

Local Open Scope string_scope.

(** [c.toLowerCase()] on one code unit of the ASCII range. *)
Definition lowerChar (c : ascii) : ascii :=
  let n := nat_of_ascii c in
  if (65 <=? n)%nat && (n <=? 90)%nat then ascii_of_nat (n + 32) else c.

(** [String.prototype.toLowerCase]. *)
Fixpoint toLowerCase (s : string) : string :=
  match s with
  | EmptyString => EmptyString
  | String c rest => String (lowerChar c) (toLowerCase rest)
  end.

(** [s.includes(sub)]: [sub] occurs in [s] as a contiguous run; the empty
    string occurs everywhere. *)
Fixpoint includes (s sub : string) : bool :=
  String.prefix sub s ||
  match s with
  | EmptyString => false
  | String _ rest => includes rest sub
  end.

(** [arr.includes(x)] on an array of strings (strict equality). *)
Definition arrayIncludes (arr : list string) (x : string) : bool :=
  existsb (String.eqb x) arr.

Definition isSpace (c : ascii) : bool :=
  let n := nat_of_ascii c in
  (n =? 32)%nat || ((9 <=? n)%nat && (n <=? 13)%nat).

Fixpoint trimStart (s : string) : string :=
  match s with
  | String c rest => if isSpace c then trimStart rest else s
  | EmptyString => EmptyString
  end.

(** Drops the white space at the end: a character is kept when it is not a
    space or something is kept after it. *)
Fixpoint trimEnd (s : string) : string :=
  match s with
  | EmptyString => EmptyString
  | String c rest =>
      match trimEnd rest with
      | EmptyString => if isSpace c then EmptyString else String c EmptyString
      | kept => String c kept
      end
  end.

(** [s.trim()]. *)
Definition trim (s : string) : string := trimEnd (trimStart s).

(** Truthiness of a string-valued property: [undefined] and [''] are falsy. *)
Definition truthy (o : option string) : bool :=
  match o with
  | Some s => negb (s =? "")
  | None => false
  end.

(** Truthiness of a boolean-valued property. *)
Definition truthyFlag (o : option bool) : bool :=
  match o with
  | Some b => b
  | None => false
  end.

(** [x || []] for an array-valued property (an array is always truthy). *)
Definition orEmpty {A : Type} (o : option (list A)) : list A :=
  match o with
  | Some l => l
  | None => []
  end.

(** [Math.round]: the nearest integer, a tie going up. *)
Definition Math_round (x : Q) : Z := Qfloor (x + (1 # 2)).

End JS.

(* ------------------------------------------------------------------ *)
(** ** Documents *)

Definition ObjectId := nat.
Definition Date := Z.

(** [profile.location] of a user. *)
Record UserLocation := {
  ul_city : option string;
  ul_state : option string;
  ul_country : option string
}.

Record Profile := {
  p_location : option UserLocation
}.

(** An entry of [candidateProfile.experience]; the server reads its title. *)
Record Experience := {
  exp_title : option string;
  exp_company : option string
}.

(** An entry of [candidateProfile.education]; the server reads its degree. *)
Record Education := {
  edu_degree : option string;
  edu_institution : option string
}.

Record CandidateProfile := {
  cp_skills : option (list string);
  cp_experience : option (list Experience);
  cp_education : option (list Education);
  cp_preferredJobTypes : option (list string)
}.

Record User := {
  u_id : ObjectId;
  u_role : string;
  u_profile : option Profile;
  u_candidateProfile : option CandidateProfile
}.

(** [location] of a job. *)
Record JobLocation := {
  jl_city : option string;
  jl_state : option string;
  jl_country : option string;
  jl_remote : option bool
}.

Record Requirements := {
  rq_skills : option (list string)
}.

Record Job := {
  j_id : ObjectId;
  j_company : ObjectId;
  j_location : option JobLocation;
  j_requirements : option Requirements;
  j_jobType : string;
  j_level : string;
  j_status : string;
  j_approved : bool;
  j_applicationCount : Z
}.

(* ------------------------------------------------------------------ *)
(** ** The job-listing scorer ([calculateJobMatch], routes/jobs.js) *)

Module Scorer.

Import JS.
Local Open Scope Q_scope.

(** Every integer up to [2^53] in magnitude is a double. *)
Definition maxExact : Q := inject_Z (2 ^ 53).
(** The least positive normal double, [2^-1022]. *)
Definition minNormal : Q := 1 # (2 ^ 1022).
(** The unit round-off of binary64, [2^-53]. *)
Definition unitRoundoff : Q := 1 # (2 ^ 53).

(** What the scorer relies on of double arithmetic.  An operation of the
    source on doubles is the exact operation followed by [fl], rounding to
    the nearest double.  On the range the scorer works in, rounding is
    monotone, leaves the integers alone and has a relative error of at
    most [2^-53]. *)
Record Rounding := {
  fl :> Q -> Q;
  fl_mono : forall x y,
    - maxExact <= x -> x <= y -> y <= maxExact -> fl x <= fl y;
  fl_exact : forall n : Z,
    (Z.abs n <= 2 ^ 53)%Z -> fl (inject_Z n) == inject_Z n;
  fl_error : forall x,
    minNormal <= x -> x <= maxExact ->
    x * (1 - unitRoundoff) <= fl x /\ fl x <= x * (1 + unitRoundoff)
}.

(** A length as a number. *)
Definition num (n : nat) : Q := inject_Z (Z.of_nat n).

Section WithRounding.

Variable R : Rounding.

(** [score += points]. *)
Definition plus (score : Q) (points : Z) : Q := R (score + inject_Z points).

(** The candidate skills kept by the [filter] of the source. *)
Definition matchingSkills (candidateSkills jobSkills : list string)
  : list string :=
  filter
    (fun skill =>
       existsb
         (fun jobSkill =>
            includes (toLowerCase jobSkill) (toLowerCase skill) ||
            includes (toLowerCase skill) (toLowerCase jobSkill))
         jobSkills)
    candidateSkills.

(** Skill matching (50 points max). *)
Definition skillMatching (candidateSkills jobSkills : list string)
           (score : Q) : Q :=
  if (0 <? List.length candidateSkills)%nat
     && (0 <? List.length jobSkills)%nat then
    let matching := matchingSkills candidateSkills jobSkills in
    R (score +
       R (R (num (List.length matching) /
             num (Nat.max (List.length candidateSkills)
                          (List.length jobSkills)))
          * 50))
  else score.

(** [a && b && a.toLowerCase() === b.toLowerCase()]. *)
Definition sameName (a b : option string) : bool :=
  match a, b with
  | Some x, Some y =>
      truthy a && truthy b && String.eqb (toLowerCase x) (toLowerCase y)
  | _, _ => false
  end.

(** Location matching (20 points max). *)
Definition locationMatching (userLocation : option UserLocation)
           (jobLocation : option JobLocation) (score : Q) : Q :=
  match userLocation, jobLocation with
  | Some ul, Some jl =>
      if truthyFlag (jl_remote jl) then plus score 20
      else if sameName (ul_city ul) (jl_city jl) then plus score 20
      else if sameName (ul_state ul) (jl_state jl) then plus score 15
      else if sameName (ul_country ul) (jl_country jl) then plus score 10
      else score
  | _, _ => score
  end.

(** Job type preference (15 points max). *)
Definition jobTypePreference (preferredJobTypes : list string)
           (jobType : string) (score : Q) : Q :=
  if arrayIncludes preferredJobTypes jobType then plus score 15 else score.

(** Experience level matching (15 points max). *)
Definition experienceLevel (jobLevel : string) (userExperience : nat)
           (score : Q) : Q :=
  if (jobLevel =? "entry")%string && (userExperience <=? 1)%nat
  then plus score 15
  else if (jobLevel =? "junior")%string && (userExperience <=? 3)%nat
  then plus score 15
  else if (jobLevel =? "mid")%string && (2 <=? userExperience)%nat
          && (userExperience <=? 7)%nat
  then plus score 15
  else if (jobLevel =? "senior")%string && (5 <=? userExperience)%nat
  then plus score 15
  else if (jobLevel =? "lead")%string && (7 <=? userExperience)%nat
  then plus score 15
  else if (jobLevel =? "executive")%string && (10 <=? userExperience)%nat
  then plus score 15
  else score.

(** [user.candidateProfile?.skills || []]. *)
Definition candidateSkills (user : User) : list string :=
  match u_candidateProfile user with
  | Some cp => orEmpty (cp_skills cp)
  | None => []
  end.

(** [job.requirements?.skills || []]. *)
Definition jobSkills (job : Job) : list string :=
  match j_requirements job with
  | Some rq => orEmpty (rq_skills rq)
  | None => []
  end.

(** [user.profile?.location]. *)
Definition userLocation (user : User) : option UserLocation :=
  match u_profile user with
  | Some p => p_location p
  | None => None
  end.

(** [user.candidateProfile?.preferredJobTypes || []]. *)
Definition preferredJobTypes (user : User) : list string :=
  match u_candidateProfile user with
  | Some cp => orEmpty (cp_preferredJobTypes cp)
  | None => []
  end.

(** [user.candidateProfile?.experience?.length || 0]. *)
Definition userExperience (user : User) : nat :=
  match u_candidateProfile user with
  | Some cp => List.length (orEmpty (cp_experience cp))
  | None => 0%nat
  end.

(** The score before [Math.round]. *)
Definition rawScore (job : Job) (user : User) : Q :=
  let score := 0 in
  let score := skillMatching (candidateSkills user) (jobSkills job) score in
  let score := locationMatching (userLocation user) (j_location job) score in
  let score := jobTypePreference (preferredJobTypes user) (j_jobType job) score in
  experienceLevel (j_level job) (userExperience user) score.

(** [calculateJobMatch(job, user)]; [None] is the [null] returned for a
    user who is not a candidate. *)
Definition calculateJobMatch (job : Job) (user : User) : option Z :=
  if negb (u_role user =? "candidate")%string then None
  else Some (Math_round (rawScore job user)).

End WithRounding.

End Scorer.

(* ------------------------------------------------------------------ *)
(** ** Application documents ([models/Application.js]) *)

(** An entry of [timeline]. *)
Record TimelineEntry := {
  t_action : string;
  t_date : Date;
  t_performedBy : option ObjectId;
  t_notes : option string
}.

(** [interview]; dates sent in a body are kept as they were sent. *)
Record Interview := {
  i_scheduled : bool;
  i_date : option string;
  i_time : option string;
  i_type : option string;
  i_location : option string;
  i_meetingLink : option string;
  i_notes : option string;
  i_interviewerName : option string;
  i_interviewerEmail : option string;
  i_interviewerRole : option string
}.

(** [evaluation]. *)
Record Evaluation := {
  e_technicalSkills : option Z;
  e_communicationSkills : option Z;
  e_culturalFit : option Z;
  e_overallRating : option Z;
  e_notes : option string;
  e_strengths : option (list string);
  e_areasForImprovement : option (list string);
  e_recommended : option bool
}.

(** [offer]. *)
Record Offer := {
  o_salaryAmount : option Q;
  o_salaryCurrency : option string;
  o_salaryPeriod : option string;
  o_benefits : list string;
  o_startDate : option string;
  o_terms : option string;
  o_deadline : option string;
  o_accepted : bool;
  o_acceptedAt : option Date
}.

(** An application.  Left out are the fields no handler reads or writes
    after the submission: the files and answers sent along, the
    communications, the flags and the archive settings. *)
Record Application := {
  a_id : ObjectId;
  a_job : ObjectId;
  a_applicant : ObjectId;
  a_employer : ObjectId;
  a_status : string;
  a_coverLetter : string;
  a_resume : option string;
  a_matchScore : option Z;
  a_skills : list string;
  a_experience : list (option string);
  a_education : list (option string);
  a_interview : Interview;
  a_evaluation : Evaluation;
  a_timeline : list TimelineEntry;
  a_offer : Offer
}.

Module Mongoose.

Import JS.
Local Open Scope string_scope.

(** [enum] of [status]. *)
Definition statusEnum : list string :=
  ["applied"; "reviewing"; "shortlisted"; "interview-scheduled";
   "interviewed"; "offered"; "hired"; "rejected"; "withdrawn"].

(** [enum] of [timeline.action]. *)
Definition timelineActionEnum : list string :=
  ["applied"; "viewed"; "shortlisted"; "interview-scheduled";
   "interviewed"; "offered"; "hired"; "rejected"; "withdrawn"].

Inductive Error :=
| ValidationError (paths : list string)
| DuplicateKey
| DocumentNotFound.

Inductive Outcome (A : Type) :=
| Ok (a : A)
| Throw (e : Error).

Arguments Ok {A} a.
Arguments Throw {A} e.

(** The collections, and the clock: [clock n] is what the [n]-th
    [new Date()] returns, [ticks] counts the calls made so far. *)
Record World := {
  applications : list Application;
  jobs : list Job;
  clock : nat -> Date;
  ticks : nat
}.

(** Code that reads and writes the world and may throw. *)
Definition M (A : Type) : Type := World -> Outcome A * World.

Definition ret {A : Type} (a : A) : M A := fun w => (Ok a, w).

Definition throw {A : Type} (e : Error) : M A := fun w => (Throw e, w).

Definition bind {A B : Type} (c : M A) (k : A -> M B) : M B :=
  fun w =>
    match c w with
    | (Ok a, w') => k a w'
    | (Throw e, w') => (Throw e, w')
    end.

Notation "x <- c ;; k" := (bind c (fun x => k))
  (at level 61, c at next level, right associativity).

(** [new Date()]. *)
Definition newDate : M Date :=
  fun w =>
    (Ok (clock w (ticks w)),
     {| applications := applications w; jobs := jobs w;
        clock := clock w; ticks := S (ticks w) |}).

Definition setApplications (apps : list Application) (w : World) : World :=
  {| applications := apps; jobs := jobs w; clock := clock w; ticks := ticks w |}.

Definition setJobs (js : list Job) (w : World) : World :=
  {| applications := applications w; jobs := js;
     clock := clock w; ticks := ticks w |}.

(** A hydrated application: the document, whether it has been stored yet,
    and whether [status] is marked modified ([isModified('status')]). *)
Record Doc := {
  d_app : Application;
  d_isNew : bool;
  d_statusModified : bool
}.

Definition hydrate (a : Application) : Doc :=
  {| d_app := a; d_isNew := false; d_statusModified := false |}.

Definition findApplication (id : ObjectId) (apps : list Application)
  : option Application :=
  find (fun a => (a_id a =? id)%nat) apps.

(** [Application.findById(id)]. *)
Definition findById (id : ObjectId) : M (option Doc) :=
  fun w => (Ok (option_map hydrate (findApplication id (applications w))), w).

Definition samePair (job applicant : ObjectId) (a : Application) : bool :=
  (a_job a =? job)%nat && (a_applicant a =? applicant)%nat.

(** [Application.findOne({ job, applicant })]. *)
Definition findOne (job applicant : ObjectId) : M (option Doc) :=
  fun w =>
    (Ok (option_map hydrate (find (samePair job applicant) (applications w))),
     w).

Definition with_status (s : string) (a : Application) : Application :=
  {| a_id := a_id a;
     a_job := a_job a;
     a_applicant := a_applicant a;
     a_employer := a_employer a;
     a_status := s;
     a_coverLetter := a_coverLetter a;
     a_resume := a_resume a;
     a_matchScore := a_matchScore a;
     a_skills := a_skills a;
     a_experience := a_experience a;
     a_education := a_education a;
     a_interview := a_interview a;
     a_evaluation := a_evaluation a;
     a_timeline := a_timeline a;
     a_offer := a_offer a |}.

Definition with_timeline (t : list TimelineEntry) (a : Application) : Application :=
  {| a_id := a_id a;
     a_job := a_job a;
     a_applicant := a_applicant a;
     a_employer := a_employer a;
     a_status := a_status a;
     a_coverLetter := a_coverLetter a;
     a_resume := a_resume a;
     a_matchScore := a_matchScore a;
     a_skills := a_skills a;
     a_experience := a_experience a;
     a_education := a_education a;
     a_interview := a_interview a;
     a_evaluation := a_evaluation a;
     a_timeline := t;
     a_offer := a_offer a |}.

Definition with_matchScore (m : option Z) (a : Application) : Application :=
  {| a_id := a_id a;
     a_job := a_job a;
     a_applicant := a_applicant a;
     a_employer := a_employer a;
     a_status := a_status a;
     a_coverLetter := a_coverLetter a;
     a_resume := a_resume a;
     a_matchScore := m;
     a_skills := a_skills a;
     a_experience := a_experience a;
     a_education := a_education a;
     a_interview := a_interview a;
     a_evaluation := a_evaluation a;
     a_timeline := a_timeline a;
     a_offer := a_offer a |}.

Definition with_interview (i : Interview) (a : Application) : Application :=
  {| a_id := a_id a;
     a_job := a_job a;
     a_applicant := a_applicant a;
     a_employer := a_employer a;
     a_status := a_status a;
     a_coverLetter := a_coverLetter a;
     a_resume := a_resume a;
     a_matchScore := a_matchScore a;
     a_skills := a_skills a;
     a_experience := a_experience a;
     a_education := a_education a;
     a_interview := i;
     a_evaluation := a_evaluation a;
     a_timeline := a_timeline a;
     a_offer := a_offer a |}.

Definition with_evaluation (e : Evaluation) (a : Application) : Application :=
  {| a_id := a_id a;
     a_job := a_job a;
     a_applicant := a_applicant a;
     a_employer := a_employer a;
     a_status := a_status a;
     a_coverLetter := a_coverLetter a;
     a_resume := a_resume a;
     a_matchScore := a_matchScore a;
     a_skills := a_skills a;
     a_experience := a_experience a;
     a_education := a_education a;
     a_interview := a_interview a;
     a_evaluation := e;
     a_timeline := a_timeline a;
     a_offer := a_offer a |}.

Definition with_offer (o : Offer) (a : Application) : Application :=
  {| a_id := a_id a;
     a_job := a_job a;
     a_applicant := a_applicant a;
     a_employer := a_employer a;
     a_status := a_status a;
     a_coverLetter := a_coverLetter a;
     a_resume := a_resume a;
     a_matchScore := a_matchScore a;
     a_skills := a_skills a;
     a_experience := a_experience a;
     a_education := a_education a;
     a_interview := a_interview a;
     a_evaluation := a_evaluation a;
     a_timeline := a_timeline a;
     a_offer := o |}.

(** The defaults of the schema for the nested paths. *)
Definition defaultInterview : Interview :=
  {| i_scheduled := false; i_date := None; i_time := None;
     i_type := Some "video"; i_location := None; i_meetingLink := None;
     i_notes := None; i_interviewerName := None; i_interviewerEmail := None;
     i_interviewerRole := None |}.

Definition defaultEvaluation : Evaluation :=
  {| e_technicalSkills := None; e_communicationSkills := None;
     e_culturalFit := None; e_overallRating := None; e_notes := None;
     e_strengths := None; e_areasForImprovement := None;
     e_recommended := Some false |}.

Definition defaultOffer : Offer :=
  {| o_salaryAmount := None; o_salaryCurrency := None;
     o_salaryPeriod := None; o_benefits := []; o_startDate := None;
     o_terms := None; o_deadline := None; o_accepted := false;
     o_acceptedAt := None |}.

(** [offer.accepted = true; offer.acceptedAt = at]. *)
Definition markAccepted (at_ : Date) (o : Offer) : Offer :=
  {| o_salaryAmount := o_salaryAmount o;
     o_salaryCurrency := o_salaryCurrency o;
     o_salaryPeriod := o_salaryPeriod o; o_benefits := o_benefits o;
     o_startDate := o_startDate o; o_terms := o_terms o;
     o_deadline := o_deadline o; o_accepted := true;
     o_acceptedAt := Some at_ |}.

Definition onApp (f : Application -> Application) (d : Doc) : Doc :=
  {| d_app := f (d_app d); d_isNew := d_isNew d;
     d_statusModified := d_statusModified d |}.

(** [this.status = s]: the path is marked modified when the document is new
    or the value differs from the current one. *)
Definition setStatus (s : string) (d : Doc) : Doc :=
  {| d_app := with_status s (d_app d); d_isNew := d_isNew d;
     d_statusModified :=
       d_statusModified d || d_isNew d || negb (a_status (d_app d) =? s) |}.

(** [this.timeline.push(entry)]. *)
Definition pushTimeline (e : TimelineEntry) (d : Doc) : Doc :=
  onApp (fun a => with_timeline (a_timeline a ++ [e]) a) d.

(** [enum] of [interview.type]. *)
Definition interviewTypeEnum : list string := ["phone"; "video"; "in-person"].

(** [min: 1, max: 5] of a rating. *)
Definition ratingOk (r : option Z) : bool :=
  match r with
  | Some n => (1 <=? n)%Z && (n <=? 5)%Z
  | None => true
  end.

(** The validators of the schema, by path: [required], [maxlength],
    [min]/[max] and [enum]. *)
Definition checks (a : Application) : list (string * bool) :=
  [ ("status", arrayIncludes statusEnum (a_status a));
    ("coverLetter",
     negb (a_coverLetter a =? "")
     && (String.length (a_coverLetter a) <=? 2000)%nat);
    ("matchScore",
     match a_matchScore a with
     | Some m => (0 <=? m)%Z && (m <=? 100)%Z
     | None => true
     end);
    ("interview.type",
     match i_type (a_interview a) with
     | Some t => arrayIncludes interviewTypeEnum t
     | None => true
     end);
    ("evaluation.technicalSkills",
     ratingOk (e_technicalSkills (a_evaluation a)));
    ("evaluation.communicationSkills",
     ratingOk (e_communicationSkills (a_evaluation a)));
    ("evaluation.culturalFit", ratingOk (e_culturalFit (a_evaluation a)));
    ("evaluation.overallRating",
     ratingOk (e_overallRating (a_evaluation a)));
    ("timeline.action",
     forallb (fun e => arrayIncludes timelineActionEnum (t_action e))
             (a_timeline a)) ].

Definition failing (cs : list (string * bool)) : list string :=
  map fst (filter (fun c => negb (snd c)) cs).

(** Schema validation, run by [save] before the [pre('save')] hooks of the
    schema: a [ValidationError] with the paths that fail, if any does. *)
Definition validate (a : Application) : option Error :=
  match failing (checks a) with
  | [] => None
  | paths => Some (ValidationError paths)
  end.

(** [applicationSchema.pre('save')]. *)
Definition preSave (d : Doc) : M Doc :=
  if d_statusModified d then
    now <- newDate ;;
    ret (pushTimeline {| t_action := a_status (d_app d);
                         t_date := now;
                         t_performedBy := Some (a_employer (d_app d));
                         t_notes := None |} d)
  else ret d.

Definition replaceApplication (a : Application) (apps : list Application)
  : list Application :=
  map (fun b => if (a_id b =? a_id a)%nat then a else b) apps.

(** The write of [save]: an insert for a new document, refused by the unique
    indexes on [_id] and on [{ job, applicant }]; an update by [_id]
    otherwise. *)
Definition persist (d : Doc) : M Doc :=
  fun w =>
    let a := d_app d in
    let stored :=
      {| d_app := a; d_isNew := false; d_statusModified := false |} in
    if d_isNew d then
      if existsb (fun b => (a_id b =? a_id a)%nat
                           || samePair (a_job a) (a_applicant a) b)
                 (applications w)
      then (Throw DuplicateKey, w)
      else (Ok stored, setApplications (applications w ++ [a]) w)
    else if existsb (fun b => (a_id b =? a_id a)%nat) (applications w)
    then (Ok stored, setApplications (replaceApplication a (applications w)) w)
    else (Throw DocumentNotFound, w).

(** [doc.save()]. *)
Definition save (d : Doc) : M Doc :=
  match validate (d_app d) with
  | Some e => throw e
  | None => d' <- preSave d ;; persist d'
  end.

(** [applicationSchema.methods.updateStatus]. *)
Definition updateStatus (newStatus : string) (performedBy : ObjectId)
           (notes : string) (d : Doc) : M Doc :=
  let d := setStatus newStatus d in
  now <- newDate ;;
  let d := pushTimeline {| t_action := newStatus;
                           t_date := now;
                           t_performedBy := Some performedBy;
                           t_notes := Some notes |} d in
  save d.

(** The value [calculateMatchScore] assigns to [matchScore]. *)
Definition matchScoreOf (a : Application) : Z :=
  let score := 0%Z in
  let score :=
    if (0 <? List.length (a_skills a))%nat
    then (score + Z.min (Z.of_nat (List.length (a_skills a)) * 10) 50)%Z
    else score in
  let score :=
    if (0 <? List.length (a_experience a))%nat
    then (score + Z.min (Z.of_nat (List.length (a_experience a)) * 5) 30)%Z
    else score in
  let score :=
    if (0 <? List.length (a_education a))%nat
    then (score + Z.min (Z.of_nat (List.length (a_education a)) * 5) 20)%Z
    else score in
  Z.min score 100.

(** [applicationSchema.methods.calculateMatchScore]. *)
Definition calculateMatchScore (d : Doc) : M Doc :=
  save (onApp (with_matchScore (Some (matchScoreOf (d_app d)))) d).

Definition findJob (id : ObjectId) (js : list Job) : option Job :=
  find (fun j => (j_id j =? id)%nat) js.

(** [Job.findById(id)]. *)
Definition Job_findById (id : ObjectId) : M (option Job) :=
  fun w => (Ok (findJob id (jobs w)), w).

(** [jobSchema.methods.incrementApplications]: the stored job gets the
    counter of the document in hand plus one. *)
Definition incrementApplications (job : Job) : M Job :=
  fun w =>
    let job' :=
      {| j_id := j_id job; j_company := j_company job;
         j_location := j_location job; j_requirements := j_requirements job;
         j_jobType := j_jobType job; j_level := j_level job;
         j_status := j_status job; j_approved := j_approved job;
         j_applicationCount := (j_applicationCount job + 1)%Z |} in
    (Ok job',
     setJobs (map (fun j => if (j_id j =? j_id job)%nat then job' else j)
                  (jobs w)) w).

(** The [_id] of a document made with [new Application]: one that no stored
    application has. *)
Definition freshId (apps : list Application) : ObjectId :=
  S (list_max (map a_id apps)).

End Mongoose.

(* ------------------------------------------------------------------ *)
(** ** Route handlers ([routes/applications.js])

    A handler is modelled from the point where the authentication
    middleware has attached [req.user]; [params.id] is a well-formed id.
    [populate] only joins referenced documents into the answer and is left
    out: a response carries the stored application. *)

Module Routes.

Import JS Mongoose.
Local Open Scope string_scope.

Inductive Body :=
| Errors (errors : list string)
| Message (message : string)
| WithApplication (message : string) (application : option Application).

Record Response := {
  r_status : Z;
  r_body : Body
}.

(** [res.status(code).json({ message })]. *)
Definition respond (code : Z) (message : string) : Response :=
  {| r_status := code; r_body := Message message |}.

(** [try { ... } catch (error) { res.status(500).json(...) }]. *)
Definition tryCatch (body : M Response) : World -> Response * World :=
  fun w =>
    match body w with
    | (Ok r, w') => (r, w')
    | (Throw _, w') => (respond 500 "Server error", w')
    end.

(** *** PUT /api/applications/:id/status *)

Record StatusRequest := {
  sr_user : User;
  sr_id : ObjectId;
  sr_status : option string;
  sr_notes : option string
}.

(** [body('status').isIn([...])], [body('notes').optional().trim()]. *)
Definition statusErrors (req : StatusRequest) : list string :=
  match sr_status req with
  | Some s => if arrayIncludes statusEnum s then [] else ["Invalid value"]
  | None => ["Invalid value"]
  end.

Definition putStatus (req : StatusRequest) : World -> Response * World :=
  tryCatch
    (match statusErrors req, sr_status req with
     | [], Some status =>
         let notes := option_map trim (sr_notes req) in
         application <- findById (sr_id req) ;;
         match application with
         | None => ret (respond 404 "Application not found")
         | Some application =>
             if negb (a_employer (d_app application) =? u_id (sr_user req))%nat
                && negb (u_role (sr_user req) =? "admin")
             then ret (respond 403 "Not authorized to update this application")
             else
               _ <- updateStatus status (u_id (sr_user req))
                      (match notes with Some n => n | None => "" end)
                      application ;;
               updatedApplication <- findById (a_id (d_app application)) ;;
               ret {| r_status := 200;
                      r_body := WithApplication
                                  "Application status updated successfully"
                                  (option_map d_app updatedApplication) |}
         end
     | errors, _ => ret {| r_status := 400; r_body := Errors errors |}
     end).

(** *** POST /api/applications/:id/accept-offer *)

Record IdRequest := {
  ir_user : User;
  ir_id : ObjectId
}.

Definition acceptOffer (req : IdRequest) : World -> Response * World :=
  tryCatch
    (application <- findById (ir_id req) ;;
     match application with
     | None => ret (respond 404 "Application not found")
     | Some application =>
         if negb (a_applicant (d_app application) =? u_id (ir_user req))%nat
         then ret (respond 403
                     "Not authorized to accept offer for this application")
         else if negb (a_status (d_app application) =? "offered")
         then ret (respond 400 "No offer to accept")
         else
           acceptedAt <- newDate ;;
           let application :=
             onApp (fun a => with_offer (markAccepted acceptedAt (a_offer a)) a)
                   application in
           _ <- updateStatus "hired" (u_id (ir_user req)) "Offer accepted"
                  application ;;
           updatedApplication <- findById (a_id (d_app application)) ;;
           ret {| r_status := 200;
                  r_body := WithApplication "Offer accepted successfully"
                              (option_map d_app updatedApplication) |}
     end).

(** *** POST /api/applications/:id/withdraw *)

Definition withdraw (req : IdRequest) : World -> Response * World :=
  tryCatch
    (application <- findById (ir_id req) ;;
     match application with
     | None => ret (respond 404 "Application not found")
     | Some application =>
         if negb (a_applicant (d_app application) =? u_id (ir_user req))%nat
         then ret (respond 403 "Not authorized to withdraw this application")
         else if (a_status (d_app application) =? "hired")
                 || (a_status (d_app application) =? "withdrawn")
         then ret (respond 400 "Cannot withdraw application in current status")
         else
           _ <- updateStatus "withdrawn" (u_id (ir_user req))
                  "Application withdrawn by candidate" application ;;
           updatedApplication <- findById (a_id (d_app application)) ;;
           ret {| r_status := 200;
                  r_body := WithApplication "Application withdrawn successfully"
                              (option_map d_app updatedApplication) |}
     end).

(** *** POST /api/applications/:id/interview *)

(** A request with a body checked by validation chains that the model does
    not look into: [vr_errors] is what [validationResult] reports, the body
    is the body once the sanitizers have run. *)
Record InterviewRequest := {
  vr_user : User;
  vr_id : ObjectId;
  vr_errors : list string;
  vr_date : option string;
  vr_time : option string;
  vr_type : option string;
  vr_location : option string;
  vr_meetingLink : option string;
  vr_notes : option string;
  vr_interviewerName : option string;
  vr_interviewerEmail : option string;
  vr_interviewerRole : option string
}.

Definition scheduleInterview (req : InterviewRequest)
  : World -> Response * World :=
  tryCatch
    (match vr_errors req with
     | [] =>
         application <- findById (vr_id req) ;;
         match application with
         | None => ret (respond 404 "Application not found")
         | Some application =>
             if negb (a_employer (d_app application) =? u_id (vr_user req))%nat
                && negb (u_role (vr_user req) =? "admin")
             then ret (respond 403
                         "Not authorized to schedule interview for this application")
             else
               let application :=
                 onApp (with_interview
                          {| i_scheduled := true;
                             i_date := vr_date req;
                             i_time := vr_time req;
                             i_type := vr_type req;
                             i_location := vr_location req;
                             i_meetingLink := vr_meetingLink req;
                             i_notes := vr_notes req;
                             i_interviewerName := vr_interviewerName req;
                             i_interviewerEmail := vr_interviewerEmail req;
                             i_interviewerRole := vr_interviewerRole req |})
                       application in
               _ <- updateStatus "interview-scheduled" (u_id (vr_user req))
                      "Interview scheduled" application ;;
               updatedApplication <- findById (a_id (d_app application)) ;;
               ret {| r_status := 200;
                      r_body := WithApplication
                                  "Interview scheduled successfully"
                                  (option_map d_app updatedApplication) |}
         end
     | errors => ret {| r_status := 400; r_body := Errors errors |}
     end).

(** *** POST /api/applications/:id/evaluate *)

Record EvaluateRequest := {
  er_user : User;
  er_id : ObjectId;
  er_errors : list string;
  er_body : Evaluation
}.

(** [b] when the body has the key, the stored value otherwise. *)
Definition orElse {A : Type} (b stored : option A) : option A :=
  match b with
  | Some x => Some x
  | None => stored
  end.

(** [{ ...application.evaluation, ...req.body }]. *)
Definition mergeEvaluation (stored body : Evaluation) : Evaluation :=
  {| e_technicalSkills :=
       orElse (e_technicalSkills body) (e_technicalSkills stored);
     e_communicationSkills :=
       orElse (e_communicationSkills body) (e_communicationSkills stored);
     e_culturalFit := orElse (e_culturalFit body) (e_culturalFit stored);
     e_overallRating :=
       orElse (e_overallRating body) (e_overallRating stored);
     e_notes := orElse (e_notes body) (e_notes stored);
     e_strengths := orElse (e_strengths body) (e_strengths stored);
     e_areasForImprovement :=
       orElse (e_areasForImprovement body) (e_areasForImprovement stored);
     e_recommended := orElse (e_recommended body) (e_recommended stored) |}.

Definition evaluate (req : EvaluateRequest) : World -> Response * World :=
  tryCatch
    (match er_errors req with
     | [] =>
         application <- findById (er_id req) ;;
         match application with
         | None => ret (respond 404 "Application not found")
         | Some application =>
             if negb (a_employer (d_app application) =? u_id (er_user req))%nat
                && negb (u_role (er_user req) =? "admin")
             then ret (respond 403
                         "Not authorized to evaluate this application")
             else
               let application :=
                 onApp (fun a => with_evaluation
                                   (mergeEvaluation (a_evaluation a)
                                                    (er_body req)) a)
                       application in
               _ <- save application ;;
               updatedApplication <- findById (a_id (d_app application)) ;;
               ret {| r_status := 200;
                      r_body := WithApplication
                                  "Application evaluated successfully"
                                  (option_map d_app updatedApplication) |}
         end
     | errors => ret {| r_status := 400; r_body := Errors errors |}
     end).

(** *** POST /api/applications/:id/offer *)

Record OfferRequest := {
  or_user : User;
  or_id : ObjectId;
  or_errors : list string;
  or_salaryAmount : option Q;
  or_salaryCurrency : option string;
  or_salaryPeriod : option string;
  or_benefits : option (list string);
  or_startDate : option string;
  or_terms : option string;
  or_deadline : option string
}.

(** [x || fallback] for a string-valued property. *)
Definition orDefault (x : option string) (fallback : string) : string :=
  match x with
  | Some s => if s =? "" then fallback else s
  | None => fallback
  end.

Definition makeOffer (req : OfferRequest) : World -> Response * World :=
  tryCatch
    (match or_errors req with
     | [] =>
         application <- findById (or_id req) ;;
         match application with
         | None => ret (respond 404 "Application not found")
         | Some application =>
             if negb (a_employer (d_app application) =? u_id (or_user req))%nat
                && negb (u_role (or_user req) =? "admin")
             then ret (respond 403
                         "Not authorized to make offer for this application")
             else
               let application :=
                 onApp (with_offer
                          {| o_salaryAmount := or_salaryAmount req;
                             o_salaryCurrency :=
                               Some (orDefault (or_salaryCurrency req) "USD");
                             o_salaryPeriod :=
                               Some (orDefault (or_salaryPeriod req) "yearly");
                             o_benefits := orEmpty (or_benefits req);
                             o_startDate := or_startDate req;
                             o_terms := or_terms req;
                             o_deadline := or_deadline req;
                             o_accepted := false;
                             o_acceptedAt := None |})
                       application in
               _ <- updateStatus "offered" (u_id (or_user req))
                      "Job offer made" application ;;
               updatedApplication <- findById (a_id (d_app application)) ;;
               ret {| r_status := 200;
                      r_body := WithApplication "Job offer made successfully"
                                  (option_map d_app updatedApplication) |}
         end
     | errors => ret {| r_status := 400; r_body := Errors errors |}
     end).

(** *** POST /api/applications *)

(** The body of a submission.  [ar_jobId] is [None] when the field is
    missing or is not a Mongo id; [ar_resumeIsURL] is the verdict of the
    [isURL] validator on [resume], [ar_answersIsArray] that of [isArray] on
    [answers] when the body has answers. *)
Record ApplyRequest := {
  ar_user : User;
  ar_jobId : option ObjectId;
  ar_coverLetter : option string;
  ar_resume : option string;
  ar_resumeIsURL : bool;
  ar_answersIsArray : option bool
}.

(** [req.body.coverLetter] once the [trim()] sanitizer has run. *)
Definition trimmedCoverLetter (req : ApplyRequest) : string :=
  match ar_coverLetter req with
  | Some c => trim c
  | None => ""
  end.

(** The validation chains of the route, in order. *)
Definition applyErrors (req : ApplyRequest) : list string :=
  (match ar_jobId req with
   | Some _ => []
   | None => ["Valid job ID is required"]
   end)
  ++ (if trimmedCoverLetter req =? "" then ["Cover letter is required"] else [])
  ++ (if (2000 <? String.length (trimmedCoverLetter req))%nat
      then ["Cover letter must be less than 2000 characters"] else [])
  ++ (match ar_resume req with
      | Some _ => if ar_resumeIsURL req then []
                  else ["Resume must be a valid URL"]
      | None => []
      end)
  ++ (match ar_answersIsArray req with
      | Some false => ["Invalid value"]
      | _ => []
      end).

(** [req.user.candidateProfile?.experience || []]. *)
Definition candidateExperience (user : User) : list Experience :=
  match u_candidateProfile user with
  | Some cp => orEmpty (cp_experience cp)
  | None => []
  end.

(** [req.user.candidateProfile?.education || []]. *)
Definition candidateEducation (user : User) : list Education :=
  match u_candidateProfile user with
  | Some cp => orEmpty (cp_education cp)
  | None => []
  end.

(** [new Application({ ... })] of the route, with the defaults of the
    schema: status [applied], an empty timeline, no interview scheduled, no
    offer accepted. *)
Definition newApplication (id : ObjectId) (job : Job) (req : ApplyRequest)
  : Doc :=
  {| d_app :=
       {| a_id := id;
          a_job := j_id job;
          a_applicant := u_id (ar_user req);
          a_employer := j_company job;
          a_status := "applied";
          a_coverLetter := trimmedCoverLetter req;
          a_resume := if truthy (ar_resume req) then ar_resume req else None;
          a_matchScore := None;
          a_skills := Scorer.candidateSkills (ar_user req);
          a_experience := map exp_title (candidateExperience (ar_user req));
          a_education := map edu_degree (candidateEducation (ar_user req));
          a_interview := defaultInterview;
          a_evaluation := defaultEvaluation;
          a_timeline := [];
          a_offer := defaultOffer |};
     d_isNew := true;
     d_statusModified := false |}.

Definition postApplication (req : ApplyRequest) : World -> Response * World :=
  tryCatch
    (match applyErrors req, ar_jobId req with
     | [], Some jobId =>
         job <- Job_findById jobId ;;
         match job with
         | None => ret (respond 404 "Job not found")
         | Some job =>
             if negb (j_status job =? "active") || negb (j_approved job)
             then ret (respond 400 "This job is not accepting applications")
             else
               existingApplication <- findOne jobId (u_id (ar_user req)) ;;
               match existingApplication with
               | Some _ =>
                   ret (respond 400 "You have already applied to this job")
               | None =>
                   fun w =>
                     (application <-
                        save (newApplication (freshId (applications w)) job req) ;;
                      application <- calculateMatchScore application ;;
                      _ <- incrementApplications job ;;
                      populatedApplication <-
                        findById (a_id (d_app application)) ;;
                      ret {| r_status := 201;
                             r_body := WithApplication
                                         "Application submitted successfully"
                                         (option_map d_app
                                                     populatedApplication) |})
                       w
               end
         end
     | errors, _ => ret {| r_status := 400; r_body := Errors errors |}
     end).

(** *** The server as a transition system *)

(** The requests that write to the collection of applications. *)
Inductive Request :=
| PostApplication (req : ApplyRequest)
| PutStatus (req : StatusRequest)
| ScheduleInterview (req : InterviewRequest)
| Evaluate (req : EvaluateRequest)
| MakeOffer (req : OfferRequest)
| AcceptOffer (req : IdRequest)
| Withdraw (req : IdRequest).

Definition handle (req : Request) : World -> Response * World :=
  match req with
  | PostApplication r => postApplication r
  | PutStatus r => putStatus r
  | ScheduleInterview r => scheduleInterview r
  | Evaluate r => evaluate r
  | MakeOffer r => makeOffer r
  | AcceptOffer r => acceptOffer r
  | Withdraw r => withdraw r
  end.

(** The world after serving the requests one after the other. *)
Fixpoint serve (reqs : list Request) (w : World) : World :=
  match reqs with
  | [] => w
  | req :: rest => serve rest (snd (handle req w))
  end.

End Routes.

(* ------------------------------------------------------------------ *)
(** ** Virtuals and read-only routes

    The virtuals of the two models, the list of applications of
    [routes/applications.js], what the job list of [routes/jobs.js] does
    with the answer of its query (the match scores, the ranking and the
    pagination) and the order in which the GET routes of the file are
    tried.  The queries on jobs themselves (text search, regular
    expressions) are not modelled. *)

Module Views.

Import JS Scorer Mongoose Routes.
Local Open Scope string_scope.

(** *** Virtuals *)

(** [if (x) parts.push(x)] for a string-valued property. *)
Definition part (o : option string) : list string :=
  match o with
  | Some s => if s =? "" then [] else [s]
  | None => []
  end.

(** [jobSchema.virtual('fullLocation')]. *)
Definition fullLocation (l : JobLocation) : string :=
  String.concat ", "
    (part (jl_city l) ++ part (jl_state l) ++ part (jl_country l)
     ++ (if truthyFlag (jl_remote l) then ["Remote"] else [])).

(** [1000 * 60 * 60 * 24]. *)
Definition msPerDay : Z := 1000 * 60 * 60 * 24.

(** [applicationSchema.virtual('age')] of a document whose [createdAt] is
    [created]: the getter reads the clock. *)
Definition age (R : Rounding) (created : Date) : M Z :=
  now <- newDate ;;
  let diffTime := Qabs (R (inject_Z now - inject_Z created)) in
  let diffDays := Qceiling (R (diffTime / inject_Z msPerDay)) in
  ret diffDays.

(** *** Pagination, as the two list routes compute it *)

Record Pagination := {
  pg_current : nat;
  pg_total : Z;
  pg_hasNext : bool;
  pg_hasPrev : bool
}.

(** [(parseInt(page) - 1) * parseInt(limit)], for a page from 1 on. *)
Definition skipOf (page limit : nat) : nat := (page - 1) * limit.

(** [.skip(skip).limit(limit)] on the sorted answer of a query, for a limit
    from 1 on. *)
Definition slice {A : Type} (skip limit : nat) (sorted : list A) : list A :=
  firstn limit (skipn skip sorted).

(** The [pagination] object of an answer that shows [shown] documents out
    of [total]. *)
Definition pagination (R : Rounding) (page limit shown total : nat)
  : Pagination :=
  {| pg_current := page;
     pg_total := Qceiling (R (num total / num limit));
     pg_hasNext := (skipOf page limit + shown <? total)%nat;
     pg_hasPrev := (1 <? page)%nat |}.

(** *** GET /api/applications *)

(** [lr_errors] is the verdict of the validation chains on the query;
    [lr_page] and [lr_limit] are the integers the query gives. *)
Record ListRequest := {
  lr_user : User;
  lr_errors : list string;
  lr_page : option nat;
  lr_limit : option nat;
  lr_status : option string;
  lr_jobId : option ObjectId
}.

(** The filter of the route: by role, then by the status and the job of the
    query when it has them. *)
Definition matches (req : ListRequest) (a : Application) : bool :=
  (if u_role (lr_user req) =? "candidate"
   then (a_applicant a =? u_id (lr_user req))%nat
   else if u_role (lr_user req) =? "employer"
   then (a_employer a =? u_id (lr_user req))%nat
   else true)
  && (if truthy (lr_status req)
      then match lr_status req with
           | Some s => a_status a =? s
           | None => true
           end
      else true)
  && match lr_jobId req with
     | Some jobId => (a_job a =? jobId)%nat
     | None => true
     end.

(** [.sort({ createdAt: -1 })]: the collection holds the documents in the
    order of their creation. *)
Definition newestFirst (apps : list Application) : list Application :=
  rev apps.

Inductive ListBody :=
| ListErrors (errors : list string)
| Listed (applications : list Application) (pagination : Pagination)
         (total : nat).

Definition pageOf (req : ListRequest) : nat :=
  match lr_page req with Some p => p | None => 1%nat end.

Definition limitOf (req : ListRequest) : nat :=
  match lr_limit req with Some l => l | None => 10%nat end.

Definition getApplications (R : Rounding) (req : ListRequest) (w : World)
  : Z * ListBody :=
  match lr_errors req with
  | [] =>
      let page := pageOf req in
      let limit := limitOf req in
      let skip := skipOf page limit in
      let found :=
        slice skip limit
              (newestFirst (filter (matches req) (applications w))) in
      let total := List.length (filter (matches req) (applications w)) in
      (200%Z,
       Listed found
              (pagination R page limit (List.length found) total)
              total)
  | errors => (400%Z, ListErrors errors)
  end.

(** *** Match scores on the job lists *)

(** A job of a lean query answer with its [matchScore]; [None] is a score
    that is [null] or was never assigned. *)
Definition ScoredJob : Type := Job * option Z.

(** [x.matchScore || 0]. *)
Definition scoreOrZero (x : ScoredJob) : Z :=
  match snd x with
  | Some n => n
  | None => 0%Z
  end.

(** [for (let job of jobs) job.matchScore = calculateJobMatch(job, user)]. *)
Definition withMatchScores (R : Rounding) (user : User) (jobs : list Job)
  : list ScoredJob :=
  map (fun job => (job, calculateJobMatch R job user)) jobs.

(** [jobs.sort((a, b) => (b.matchScore || 0) - (a.matchScore || 0))]:
    [Array.prototype.sort] is stable, so the answer is that of an insertion
    sort in which an element stays behind the elements it does not beat. *)
Fixpoint insertByScore (x : ScoredJob) (sorted : list ScoredJob)
  : list ScoredJob :=
  match sorted with
  | [] => [x]
  | y :: rest =>
      if (scoreOrZero y <=? scoreOrZero x)%Z then x :: y :: rest
      else y :: insertByScore x rest
  end.

Fixpoint sortByMatchScore (jobs : list ScoredJob) : list ScoredJob :=
  match jobs with
  | [] => []
  | x :: rest => insertByScore x (sortByMatchScore rest)
  end.

(** GET /api/jobs, from the page [jobs] of its query to the list it sends:
    a candidate gets the scores, and the ranking by score when searching
    by relevance. *)
Definition scoredPage (R : Rounding) (user : option User)
           (search : option string) (sort : string) (jobs : list Job)
  : list ScoredJob :=
  match user with
  | Some user =>
      if u_role user =? "candidate" then
        let jobs := withMatchScores R user jobs in
        if truthy search && (sort =? "relevance") then sortByMatchScore jobs
        else jobs
      else map (fun job => (job, None)) jobs
  | None => map (fun job => (job, None)) jobs
  end.

(** *** The GET routes of [routes/jobs.js]

    Express tries the routes of a router in the order of their
    registration and runs the first whose path matches; each of the four
    GET handlers of the file answers the request itself and never passes it
    on.  A request is taken from the point where the middleware of the
    route has run. *)

Inductive Segment :=
| Fixed (s : string)
| Param (name : string).

Inductive GetHandler :=
| ListJobs
| JobById
| MyJobs
| RecommendedJobs.

(** [router.get('/')], [router.get('/:id')],
    [router.get('/employer/my-jobs')] and [router.get('/recommended')], as
    the file registers them. *)
Definition getRoutes : list (list Segment * GetHandler) :=
  [ ([], ListJobs);
    ([Param "id"], JobById);
    ([Fixed "employer"; Fixed "my-jobs"], MyJobs);
    ([Fixed "recommended"], RecommendedJobs) ].

(** Whether a route path matches the segments of a request path, and the
    parameters it binds then: a fixed segment matches whatever the case, a
    parameter matches any segment that is not empty. *)
Fixpoint matchPath (pattern : list Segment) (path : list string)
  : option (list (string * string)) :=
  match pattern, path with
  | [], [] => Some []
  | Fixed s :: pattern, x :: path =>
      if toLowerCase s =? toLowerCase x then matchPath pattern path else None
  | Param name :: pattern, x :: path =>
      if x =? "" then None
      else option_map (cons (name, x)) (matchPath pattern path)
  | _, _ => None
  end.

(** The first route that matches. *)
Fixpoint dispatch (routes : list (list Segment * GetHandler))
         (path : list string)
  : option (GetHandler * list (string * string)) :=
  match routes with
  | [] => None
  | (pattern, handler) :: routes =>
      match matchPath pattern path with
      | Some params => Some (handler, params)
      | None => dispatch routes path
      end
  end.

Inductive JobBody :=
| JobMessage (message : string)
| JobSent (job : ScoredJob).

(** GET /api/jobs/:id.  [castObjectId] is the cast Mongoose applies to the
    id of [findById]; when it fails the query throws and the handler
    answers from its [catch].  The increment of [views], a field the model
    of a job leaves out, is the only write of the handler. *)
Definition getJob (R : Rounding) (castObjectId : string -> option ObjectId)
           (user : option User) (id : string) (w : World) : Z * JobBody :=
  match castObjectId id with
  | None => (500%Z, JobMessage "Server error")
  | Some _id =>
      match findJob _id (jobs w) with
      | None => (404%Z, JobMessage "Job not found")
      | Some job =>
          (200%Z,
           JobSent (job,
                    match user with
                    | Some user =>
                        if u_role user =? "candidate"
                        then calculateJobMatch R job user
                        else None
                    | None => None
                    end))
      end
  end.

End Views.

(* ------------------------------------------------------------------ *)
(** ** Exact arithmetic is a rounding *)

Module ExactArithmetic.

Import Scorer.
Local Open Scope Q_scope.

Lemma unitRoundoff_pos : 0 < unitRoundoff.
Proof. reflexivity. Qed.

Lemma minNormal_pos : 0 < minNormal.
Proof. reflexivity. Qed.

Lemma id_mono (x y : Q) :
  - maxExact <= x -> x <= y -> y <= maxExact -> x <= y.
Proof. intros _ H _. exact H. Qed.

Lemma id_exact (n : Z) : (Z.abs n <= 2 ^ 53)%Z -> inject_Z n == inject_Z n.
Proof. intros _. reflexivity. Qed.

Lemma id_error (x : Q) :
  minNormal <= x -> x <= maxExact ->
  x * (1 - unitRoundoff) <= x /\ x <= x * (1 + unitRoundoff).
Proof.
  intros Hlo _.
  assert (Hx : 0 <= x).
  { apply Qle_trans with minNormal; [ discriminate | exact Hlo ]. }
  assert (Hu : 0 <= x * unitRoundoff).
  { apply Qmult_le_0_compat; [ exact Hx | discriminate ]. }
  split; lra.
Qed.

(** The rounding that rounds nothing: the scorer over the rationals. *)
Definition exact : Rounding :=
  Build_Rounding (fun x => x) id_mono id_exact id_error.

End ExactArithmetic.

(* ------------------------------------------------------------------ *)
(** ** Numeric lemmas for the scorer *)

Module ScorerFacts.

Import JS Scorer.
Local Open Scope Q_scope.

Lemma Math_round_Z (n : Z) : Math_round (inject_Z n) = n.
Proof.
  unfold Math_round, Qfloor, Qplus, inject_Z; simpl.
  symmetry; apply Z.div_unique with 1%Z; lia.
Qed.

Lemma Math_round_le (x y : Q) : x <= y -> (Math_round x <= Math_round y)%Z.
Proof.
  intros H. unfold Math_round. apply Qfloor_resp_le. lra.
Qed.

Lemma Math_round_between (a b : Z) (x : Q) :
  inject_Z a <= x -> x <= inject_Z b -> (a <= Math_round x <= b)%Z.
Proof.
  intros Ha Hb. split.
  - rewrite <- (Math_round_Z a). now apply Math_round_le.
  - rewrite <- (Math_round_Z b). now apply Math_round_le.
Qed.

(** [Math.round] of a number strictly within a half of [n] is [n]. *)
Lemma Math_round_near (n : Z) (x : Q) :
  inject_Z n - (1 # 2) <= x -> x < inject_Z n + (1 # 2) -> Math_round x = n.
Proof.
  intros Hlo Hhi. unfold Math_round.
  pose proof (Qfloor_le (x + (1 # 2))) as Hfl.
  pose proof (Qlt_floor (x + (1 # 2))) as Hlt.
  set (k := Qfloor (x + (1 # 2))) in *.
  rewrite inject_Z_plus in Hlt. change (inject_Z 1) with 1 in Hlt.
  assert (H1 : inject_Z k < inject_Z (n + 1)).
  { rewrite inject_Z_plus. change (inject_Z 1) with 1. lra. }
  assert (H2 : inject_Z (n - 1) < inject_Z k).
  { unfold Z.sub. rewrite inject_Z_plus. change (inject_Z (- (1))) with (- (1)). lra. }
  rewrite <- Zlt_Qlt in H1, H2. lia.
Qed.

Lemma maxExact_Z (n : Z) : (Z.abs n <= 2 ^ 53)%Z ->
  - maxExact <= inject_Z n /\ inject_Z n <= maxExact.
Proof.
  intros H. unfold maxExact. split.
  - rewrite <- inject_Z_opp. rewrite <- Zle_Qle. lia.
  - rewrite <- Zle_Qle. lia.
Qed.

Section WithRounding.

Variable R : Rounding.

(** Rounding stays between two integers its argument lies between. *)
Lemma fl_between (a b : Z) (x : Q) :
  (Z.abs a <= 2 ^ 53)%Z -> (Z.abs b <= 2 ^ 53)%Z ->
  inject_Z a <= x -> x <= inject_Z b ->
  inject_Z a <= R x /\ R x <= inject_Z b.
Proof.
  intros Ha Hb Hax Hxb.
  destruct (maxExact_Z a Ha) as [Ha1 Ha2], (maxExact_Z b Hb) as [Hb1 Hb2].
  split.
  - rewrite <- (fl_exact R a Ha). apply fl_mono; lra.
  - rewrite <- (fl_exact R b Hb). apply fl_mono; lra.
Qed.

Lemma plus_between (a b p : Z) (score : Q) :
  (Z.abs (a + p) <= 2 ^ 53)%Z -> (Z.abs (b + p) <= 2 ^ 53)%Z ->
  inject_Z a <= score -> score <= inject_Z b ->
  inject_Z (a + p) <= plus R score p /\ plus R score p <= inject_Z (b + p).
Proof.
  intros Ha Hb H1 H2. unfold plus.
  apply fl_between; trivial; rewrite inject_Z_plus; lra.
Qed.

(** An integer score stays an integer when integer points are added. *)
Lemma plus_Z (n p : Z) (score : Q) :
  (Z.abs (n + p) <= 2 ^ 53)%Z -> score == inject_Z n ->
  plus R score p == inject_Z (n + p).
Proof.
  intros Hn Hs.
  destruct (plus_between n n p score Hn Hn) as [H1 H2]; try lra.
Qed.

Lemma matchingSkills_length (cs js : list string) :
  (List.length (matchingSkills cs js) <= List.length cs)%nat.
Proof. unfold matchingSkills. apply filter_length_le. Qed.

Lemma num_nonneg (n : nat) : 0 <= num n.
Proof. unfold num. change 0 with (inject_Z 0). rewrite <- Zle_Qle. lia. Qed.

Lemma num_le (m n : nat) : (m <= n)%nat -> num m <= num n.
Proof. intros H. unfold num. rewrite <- Zle_Qle. lia. Qed.

Lemma num_pos (n : nat) : (0 < n)%nat -> 0 < num n.
Proof. intros H. unfold num. change 0 with (inject_Z 0). rewrite <- Zlt_Qlt. lia. Qed.

(** The fraction of matching skills lies in [[0,1]]. *)
Lemma ratio_unit (m M : nat) :
  (m <= M)%nat -> (0 < M)%nat -> 0 <= num m / num M /\ num m / num M <= 1.
Proof.
  intros Hle Hpos.
  pose proof (num_pos M Hpos) as HM. pose proof (num_nonneg m) as Hm.
  pose proof (num_le m M Hle) as HmM.
  split.
  - apply Qle_shift_div_l; [ exact HM | lra ].
  - apply Qle_shift_div_r; [ exact HM | lra ].
Qed.

Lemma skillMatching_between (b : Z) (cs js : list string) (score : Q) :
  (0 <= b <= 50)%Z -> 0 <= score -> score <= inject_Z b ->
  0 <= skillMatching R cs js score /\
  skillMatching R cs js score <= inject_Z (b + 50).
Proof.
  intros Hb H0 H1. unfold skillMatching.
  assert (Hb50 : inject_Z b <= inject_Z (b + 50)) by (rewrite <- Zle_Qle; lia).
  destruct ((0 <? List.length cs)%nat && (0 <? List.length js)%nat) eqn:Hguard;
    [ | split; lra ].
  apply andb_prop in Hguard. destruct Hguard as [Hcs _].
  apply Nat.ltb_lt in Hcs.
  set (m := List.length (matchingSkills cs js)).
  set (M := Nat.max (List.length cs) (List.length js)).
  assert (HmM : (m <= M)%nat).
  { pose proof (matchingSkills_length cs js). subst m M. lia. }
  assert (HM : (0 < M)%nat) by (subst M; lia).
  destruct (ratio_unit m M HmM HM) as [Hr0 Hr1].
  destruct (@fl_between 0 1 (num m / num M)) as [Hq0 Hq1];
    try (simpl; lia); try assumption.
  change (inject_Z 0) with 0 in Hq0. change (inject_Z 1) with 1 in Hq1.
  destruct (@fl_between 0 50 (R (num m / num M) * 50)) as [Hp0 Hp1];
    try (simpl; lia).
  { change (inject_Z 0) with 0. lra. }
  { change (inject_Z 50) with 50. lra. }
  change (inject_Z 0) with 0 in Hp0. change (inject_Z 50) with 50 in Hp1.
  destruct (@fl_between 0 (b + 50) (score + R (R (num m / num M) * 50)))
    as [Hs0 Hs1]; try (simpl; lia).
  { change (inject_Z 0) with 0. lra. }
  { rewrite inject_Z_plus. change (inject_Z 50) with 50. lra. }
  change (inject_Z 0) with 0 in Hs0. split; assumption.
Qed.

End WithRounding.

End ScorerFacts.

(* ------------------------------------------------------------------ *)
(** ** Properties of the job-listing scorer *)

Module ScorerProperties.

Import JS Scorer ScorerFacts ExactArithmetic.
Local Open Scope Q_scope.

(** The inputs of the worked example of the specification. *)
Definition exampleCandidateSkills : list string :=
  ["JavaScript"; "React"]%string.
Definition exampleJobSkills : list string :=
  ["React"; "Node.js"; "MongoDB"]%string.

(** A remote senior position that requires no skill. *)
Definition remoteJob : Job :=
  {| j_id := 7%nat; j_company := 2%nat;
     j_location := Some {| jl_city := Some "Berlin"%string; jl_state := None;
                           jl_country := Some "Germany"%string;
                           jl_remote := Some true |};
     j_requirements := Some {| rq_skills := Some [] |};
     j_jobType := "full-time"%string; j_level := "senior"%string;
     j_status := "active"%string; j_approved := true;
     j_applicationCount := 0%Z |}.

(** A candidate whose profile holds nothing yet and has no location. *)
Definition blankCandidate : User :=
  {| u_id := 1%nat; u_role := "candidate"%string;
     u_profile := Some {| p_location := None |};
     u_candidateProfile :=
       Some {| cp_skills := Some []; cp_experience := Some [];
               cp_education := Some []; cp_preferredJobTypes := Some [] |} |}.

(** The same candidate, living in Lyon. *)
Definition lyonCandidate : User :=
  {| u_id := 1%nat; u_role := "candidate"%string;
     u_profile :=
       Some {| p_location :=
                 Some {| ul_city := Some "Lyon"%string; ul_state := None;
                         ul_country := Some "France"%string |} |};
     u_candidateProfile := u_candidateProfile blankCandidate |}.

(** A junior position on site. *)
Definition juniorJob : Job :=
  {| j_id := 8%nat; j_company := 2%nat;
     j_location := Some {| jl_city := Some "Berlin"%string; jl_state := None;
                           jl_country := Some "Germany"%string;
                           jl_remote := Some false |};
     j_requirements := Some {| rq_skills := Some exampleJobSkills |};
     j_jobType := "full-time"%string; j_level := "junior"%string;
     j_status := "active"%string; j_approved := true;
     j_applicationCount := 0%Z |}.

(** A user as the server holds one.  The scorer is called with [req.user],
    a document of the User model ([models/User.js]); [profile] and
    [profile.location] are nested paths of its schema, which Mongoose
    always reads as objects, empty when nothing is stored in them: the
    location of such a user is never [undefined]. *)
Definition hydrated (user : User) : bool :=
  match userLocation user with
  | Some _ => true
  | None => false
  end.

(** The location of the user, if any, has no city, no state and no
    country. *)
Definition nowhere (user : User) : bool :=
  match userLocation user with
  | Some ul =>
      negb (truthy (ul_city ul)) && negb (truthy (ul_state ul))
      && negb (truthy (ul_country ul))
  | None => true
  end.

(** [job.location.remote], for a job that has a location. *)
Definition isRemote (job : Job) : bool :=
  match j_location job with
  | Some jl => truthyFlag (jl_remote jl)
  | None => false
  end.

(** The blank candidate as the server holds it: the location is there and
    holds nothing. *)
Definition storedBlankCandidate : User :=
  {| u_id := 1%nat; u_role := "candidate"%string;
     u_profile :=
       Some {| p_location :=
                 Some {| ul_city := None; ul_state := None;
                         ul_country := None |} |};
     u_candidateProfile := u_candidateProfile blankCandidate |}.

(** A remote junior position. *)
Definition remoteJuniorJob : Job :=
  {| j_id := 10%nat; j_company := 2%nat;
     j_location := Some {| jl_city := None; jl_state := None;
                           jl_country := None; jl_remote := Some true |};
     j_requirements := Some {| rq_skills := Some exampleJobSkills |};
     j_jobType := "full-time"%string; j_level := "junior"%string;
     j_status := "active"%string; j_approved := true;
     j_applicationCount := 0%Z |}.

Section WithRounding.

Variable R : Rounding.

Lemma locationMatching_between (b : Z) ul jl (score : Q) :
  (0 <= b <= 80)%Z -> 0 <= score -> score <= inject_Z b ->
  0 <= locationMatching R ul jl score /\
  locationMatching R ul jl score <= inject_Z (b + 20).
Proof.
  intros Hb H0 H1.
  assert (Hb20 : inject_Z b <= inject_Z (b + 20)) by (rewrite <- Zle_Qle; lia).
  assert (Hplus : forall p : Z, (0 <= p <= 20)%Z ->
            0 <= plus R score p /\ plus R score p <= inject_Z (b + 20)).
  { intros p Hp.
    destruct (@plus_between R 0 b p score) as [A B];
      try lia; try assumption.
    split.
    - apply Qle_trans with (inject_Z (0 + p)); [ | exact A ].
      change 0 with (inject_Z 0). rewrite <- Zle_Qle. lia.
    - apply Qle_trans with (inject_Z (b + p)); [ exact B | ].
      rewrite <- Zle_Qle. lia. }
  unfold locationMatching.
  destruct ul as [ul | ]; [ | split; lra ].
  destruct jl as [jl | ]; [ | split; lra ].
  destruct (truthyFlag (jl_remote jl)); [ apply Hplus; lia | ].
  destruct (sameName (ul_city ul) (jl_city jl)); [ apply Hplus; lia | ].
  destruct (sameName (ul_state ul) (jl_state jl)); [ apply Hplus; lia | ].
  destruct (sameName (ul_country ul) (jl_country jl)); [ apply Hplus; lia | ].
  split; lra.
Qed.

Lemma jobTypePreference_between (b : Z) types jobType (score : Q) :
  (0 <= b <= 80)%Z -> 0 <= score -> score <= inject_Z b ->
  0 <= jobTypePreference R types jobType score /\
  jobTypePreference R types jobType score <= inject_Z (b + 15).
Proof.
  intros Hb H0 H1. unfold jobTypePreference.
  assert (Hb15 : inject_Z b <= inject_Z (b + 15)) by (rewrite <- Zle_Qle; lia).
  destruct (arrayIncludes types jobType); [ | split; lra ].
  destruct (@plus_between R 0 b 15 score) as [A B]; try lia; try assumption.
  split; [ | exact B ].
  apply Qle_trans with (inject_Z (0 + 15)); [ discriminate | exact A ].
Qed.

Lemma experienceLevel_between (b : Z) level (n : nat) (score : Q) :
  (0 <= b <= 85)%Z -> 0 <= score -> score <= inject_Z b ->
  0 <= experienceLevel R level n score /\
  experienceLevel R level n score <= inject_Z (b + 15).
Proof.
  intros Hb H0 H1.
  assert (Hb15 : inject_Z b <= inject_Z (b + 15)) by (rewrite <- Zle_Qle; lia).
  assert (Hplus : 0 <= plus R score 15 /\ plus R score 15 <= inject_Z (b + 15)).
  { destruct (@plus_between R 0 b 15 score) as [A B]; try lia; try assumption.
    split; [ | exact B ].
    apply Qle_trans with (inject_Z (0 + 15)); [ discriminate | exact A ]. }
  unfold experienceLevel.
  repeat match goal with
         | |- context [if ?c then _ else _] => destruct c; [ exact Hplus | ]
         end.
  split; lra.
Qed.

(** The score before rounding lies between 0 and 100. *)
Lemma rawScore_between (job : Job) (user : User) :
  0 <= rawScore R job user /\ rawScore R job user <= 100.
Proof.
  unfold rawScore.
  assert (Z0 : 0 <= inject_Z 0) by discriminate.
  destruct (@skillMatching_between R 0 (candidateSkills user) (jobSkills job) 0
              ltac:(lia) ltac:(lra) Z0) as [A1 B1].
  destruct (@locationMatching_between 50 (userLocation user) (j_location job) _
              ltac:(lia) A1 B1) as [A2 B2].
  destruct (@jobTypePreference_between 70 (preferredJobTypes user)
              (j_jobType job) _ ltac:(lia) A2 B2) as [A3 B3].
  destruct (@experienceLevel_between 85 (j_level job) (userExperience user) _
              ltac:(lia) A3 B3) as [A4 B4].
  split; [ exact A4 | exact B4 ].
Qed.

(** On the range the scorer works in, rounding is off by less than a
    thousandth of its argument. *)
Lemma fl_coarse (x : Q) :
  1 # 4 <= x -> x <= 100 ->
  x * (999 # 1000) <= R x /\ R x <= x * (1001 # 1000).
Proof.
  intros Hlo Hhi.
  assert (H1 : minNormal <= x).
  { apply Qle_trans with (1 # 4); [ discriminate | exact Hlo ]. }
  assert (H2 : x <= maxExact).
  { apply Qle_trans with 100; [ exact Hhi | discriminate ]. }
  destruct (fl_error R x H1 H2) as [A B].
  unfold unitRoundoff in A, B.
  change (2 ^ 53)%positive with 9007199254740992%positive in A, B.
  split; lra.
Qed.

Lemma Math_round_plus_Z (n p : Z) :
  (Z.abs (n + p) <= 2 ^ 53)%Z ->
  Math_round (plus R (inject_Z n) p) = (n + p)%Z.
Proof.
  intros H.
  destruct (@plus_between R n n p (inject_Z n) H H) as [A B]; try lra.
  pose proof (@Math_round_between (n + p) (n + p) _ A B). lia.
Qed.

(** C8: for every job and every candidate, [calculateJobMatch] returns an
    integer score between 0 and 100; being a function of the job and the
    user alone, it is deterministic. *)
Theorem calculateJobMatch_in_range (job : Job) (user : User) :
  u_role user = "candidate"%string ->
  exists score : Z,
    calculateJobMatch R job user = Some score /\ (0 <= score <= 100)%Z.
Proof.
  intros Hrole. unfold calculateJobMatch. rewrite Hrole. simpl.
  eexists. split; [ reflexivity | ].
  destruct (rawScore_between job user) as [A B].
  apply Math_round_between; assumption.
Qed.


(** C7, amended: with candidate skills JavaScript and React and job skills
    React, Node.js and MongoDB, exactly one candidate skill matches, the
    larger list has 3 entries, and the skill component 50 * 1 / 3 rounds
    to 17. *)
Theorem example_skill_component :
  List.length (matchingSkills exampleCandidateSkills exampleJobSkills) = 1%nat /\
  Nat.max (List.length exampleCandidateSkills) (List.length exampleJobSkills)
  = 3%nat /\
  Math_round (skillMatching R exampleCandidateSkills exampleJobSkills 0) = 17%Z.
Proof.
  split; [ reflexivity | ]. split; [ reflexivity | ].
  assert (E : skillMatching R exampleCandidateSkills exampleJobSkills 0
              = R (0 + R (R (1 # 3) * 50))) by reflexivity.
  rewrite E; clear E.
  destruct (fl_coarse (1 # 3)) as [A1 B1]; [ discriminate | discriminate | ].
  set (x1 := R (1 # 3)) in *.
  destruct (fl_coarse (x1 * 50)) as [A2 B2]; [ lra | lra | ].
  set (x2 := R (x1 * 50)) in *.
  destruct (fl_coarse (0 + x2)) as [A3 B3]; [ lra | lra | ].
  set (x3 := R (0 + x2)) in *.
  apply Math_round_near; change (inject_Z 17) with 17; lra.
Qed.

Lemma Math_round_at (n : Z) (x : Q) : x == inject_Z n -> Math_round x = n.
Proof.
  intros H. destruct (@Math_round_between n n x); [ lra | lra | lia ].
Qed.

Lemma sameName_falsy (a b : option string) :
  truthy a = false -> sameName a b = false.
Proof.
  unfold sameName. intros H. destruct a as [x | ], b as [y | ]; trivial.
  now rewrite H.
Qed.

(** The location step for a candidate without city, state and country. *)
Lemma locationMatching_nowhere (job : Job) (user : User) (score : Q) :
  nowhere user = true ->
  locationMatching R (userLocation user) (j_location job) score
  = if hydrated user && isRemote job then plus R score 20 else score.
Proof.
  unfold nowhere, hydrated, isRemote, locationMatching.
  destruct (userLocation user) as [ul | ]; [ | reflexivity ].
  destruct (j_location job) as [jl | ]; [ | reflexivity ].
  intros H. apply andb_prop in H. destruct H as [H Hcountry].
  apply andb_prop in H. destruct H as [Hcity Hstate].
  apply negb_true_iff in Hcity, Hstate, Hcountry.
  cbn [andb]. destruct (truthyFlag (jl_remote jl)); [ reflexivity | ].
  now rewrite !sameName_falsy.
Qed.

(** C10, amended: a candidate with no skill, no preferred job type, no
    experience and no city, state or country scores 15 on a job of level
    entry or junior and 0 on a job of any other level, and 20 more on a
    remote job when the candidate is one the server holds, whose location
    is an object although it holds nothing. *)
Theorem blank_profile_score (job : Job) (user : User) :
  u_role user = "candidate"%string ->
  candidateSkills user = [] ->
  nowhere user = true ->
  preferredJobTypes user = [] ->
  userExperience user = 0%nat ->
  calculateJobMatch R job user =
  Some ((if (j_level job =? "entry")%string || (j_level job =? "junior")%string
         then 15 else 0)
        + (if hydrated user && isRemote job then 20 else 0))%Z.
Proof.
  intros Hrole Hskills Hloc Htypes Hexp.
  unfold calculateJobMatch, rawScore.
  rewrite Hrole, Hskills, Htypes, Hexp.
  change (negb ("candidate" =? "candidate")%string) with false. cbv iota zeta.
  change (skillMatching R [] (jobSkills job) 0) with 0.
  rewrite (locationMatching_nowhere job user 0 Hloc).
  change (jobTypePreference R [] (j_jobType job) ?x) with x.
  f_equal. apply Math_round_at.
  assert (Hbase : (if hydrated user && isRemote job then plus R 0 20 else 0)
                  == inject_Z (if hydrated user && isRemote job
                               then 20 else 0)).
  { destruct (hydrated user && isRemote job); [ | reflexivity ].
    apply (@plus_Z R 0 20); [ simpl; lia | reflexivity ]. }
  set (base := if hydrated user && isRemote job then plus R 0 20 else 0) in *.
  set (b := (if hydrated user && isRemote job then 20 else 0)%Z) in *.
  assert (Hb : (0 <= b <= 20)%Z)
    by (subst b; destruct (hydrated user && isRemote job); lia).
  unfold experienceLevel.
  destruct (j_level job =? "entry")%string; cbn [andb orb Nat.leb].
  { rewrite Z.add_comm. apply plus_Z; [ lia | exact Hbase ]. }
  destruct (j_level job =? "junior")%string; cbn [andb orb Nat.leb].
  { rewrite Z.add_comm. apply plus_Z; [ lia | exact Hbase ]. }
  rewrite !andb_false_r. cbn [andb]. exact Hbase.
Qed.

End WithRounding.

(** C10: the blank candidate as the server holds it, on a remote junior
    job and on the remote senior job: 35 and 20, not 15 and 0. *)
Lemma blank_candidate_on_remote_job :
  candidateSkills storedBlankCandidate = [] /\
  userLocation storedBlankCandidate
  = Some {| ul_city := None; ul_state := None; ul_country := None |} /\
  preferredJobTypes storedBlankCandidate = [] /\
  userExperience storedBlankCandidate = 0%nat /\
  j_level remoteJuniorJob = "junior"%string /\
  calculateJobMatch exact remoteJuniorJob storedBlankCandidate = Some 35%Z /\
  (35 =? 15)%Z = false /\
  j_level remoteJob = "senior"%string /\
  calculateJobMatch exact remoteJob storedBlankCandidate = Some 20%Z /\
  (20 =? 0)%Z = false.
Proof. repeat split. Qed.

(** C7: in exact arithmetic the skill component of the example is 50/3,
    which [Math.round] takes to 17, not 16. *)
Lemma example_skill_component_is_not_16 :
  skillMatching exact exampleCandidateSkills exampleJobSkills 0 == 50 # 3 /\
  Math_round (skillMatching exact exampleCandidateSkills exampleJobSkills 0)
  = 17%Z /\
  (17 =? 16)%Z = false.
Proof. repeat split. Qed.

(** The range of the score, on the junior job and the candidate of Lyon. *)
Lemma calculateJobMatch_in_range_witness :
  exists score : Z,
    calculateJobMatch exact juniorJob lyonCandidate = Some score /\
    (0 <= score <= 100)%Z.
Proof.
  exact (calculateJobMatch_in_range exact juniorJob lyonCandidate eq_refl).
Defined.


(** The worked example in exact arithmetic. *)
Lemma example_skill_component_witness :
  List.length (matchingSkills exampleCandidateSkills exampleJobSkills) = 1%nat /\
  Nat.max (List.length exampleCandidateSkills) (List.length exampleJobSkills)
  = 3%nat /\
  Math_round (skillMatching exact exampleCandidateSkills exampleJobSkills 0)
  = 17%Z.
Proof. exact (example_skill_component exact). Defined.

(** The stored blank candidate on a junior job on site and on a remote
    one. *)
Lemma blank_profile_score_witness :
  calculateJobMatch exact juniorJob storedBlankCandidate = Some 15%Z /\
  calculateJobMatch exact remoteJuniorJob storedBlankCandidate = Some 35%Z.
Proof.
  split.
  - exact (blank_profile_score exact juniorJob storedBlankCandidate
             eq_refl eq_refl eq_refl eq_refl eq_refl).
  - exact (blank_profile_score exact remoteJuniorJob storedBlankCandidate
             eq_refl eq_refl eq_refl eq_refl eq_refl).
Defined.

End ScorerProperties.

(* ------------------------------------------------------------------ *)
(** ** Facts about documents and [save] *)

Module MongooseFacts.

Import JS Mongoose.
Local Open Scope string_scope.

(** Two versions of one document: same [_id], job and applicant. *)
Definition sameKeys (a b : Application) : Prop :=
  a_id a = a_id b /\ a_job a = a_job b /\ a_applicant a = a_applicant b.

Definition pairOf (a : Application) : ObjectId * ObjectId :=
  (a_job a, a_applicant a).

(** The uniqueness constraints of the collection: no two applications with
    one [_id], no two applications of one applicant to one job. *)
Definition wellFormed (w : World) : Prop :=
  NoDup (map a_id (applications w)) /\ NoDup (map pairOf (applications w)).

(** The world once [new Date()] has been called. *)
Definition tick (w : World) : World :=
  {| applications := applications w; jobs := jobs w;
     clock := clock w; ticks := S (ticks w) |}.

(** What [validate] accepts: every check of the schema holds. *)
Definition valid (a : Application) : bool := forallb snd (checks a).

Lemma failing_nil (cs : list (string * bool)) :
  failing cs = [] <-> forallb snd cs = true.
Proof.
  unfold failing.
  induction cs as [ | [path ok] cs IH]; cbn [filter forallb snd map];
    [ tauto | ].
  destruct ok; cbn [negb andb map]; [ exact IH | split; discriminate ].
Qed.

Lemma validate_valid (a : Application) :
  validate a = None <-> valid a = true.
Proof.
  unfold validate, valid. rewrite <- failing_nil.
  destruct (failing (checks a)); split; (reflexivity || discriminate).
Qed.

(** The checks that do not look at the status or the timeline. *)
Definition restValid (a : Application) : bool :=
  forallb snd (firstn 7 (tl (checks a))).

Lemma valid_split (a : Application) :
  valid a =
  arrayIncludes statusEnum (a_status a)
  && restValid a
  && forallb (fun e => arrayIncludes timelineActionEnum (t_action e))
             (a_timeline a).
Proof.
  unfold valid, restValid, checks.
  cbn [forallb snd firstn tl]. rewrite !andb_true_r, !andb_assoc.
  reflexivity.
Qed.

(** The two entries a status change leaves in the timeline: the one
    [updateStatus] pushes and the one the [pre('save')] hook pushes. *)
Definition statusEntry (s : string) (by_ : ObjectId) (notes : string)
           (at_ : Date) : TimelineEntry :=
  {| t_action := s; t_date := at_; t_performedBy := Some by_;
     t_notes := Some notes |}.

Definition hookEntry (a : Application) (at_ : Date) : TimelineEntry :=
  {| t_action := a_status a; t_date := at_;
     t_performedBy := Some (a_employer a); t_notes := None |}.

(** The entries [updateStatus] adds to the timeline of a stored document
    when the clock reads [t1] and then [t2]. *)
Definition addedEntries (s : string) (by_ : ObjectId) (notes : string)
           (a : Application) (t1 t2 : Date) : list TimelineEntry :=
  statusEntry s by_ notes t1
  :: (if a_status a =? s then [] else [hookEntry (with_status s a) t2]).

(** The document [updateStatus] stores. *)
Definition updated (s : string) (by_ : ObjectId) (notes : string)
           (a : Application) (t1 t2 : Date) : Application :=
  with_timeline (a_timeline a ++ addedEntries s by_ notes a t1 t2)
                (with_status s a).

Lemma forallb_snoc {A : Type} (f : A -> bool) (l : list A) (x : A) :
  forallb f (l ++ [x]) = forallb f l && f x.
Proof. rewrite forallb_app. simpl. now rewrite andb_true_r. Qed.

(** [updateStatus] on a stored, unmodified document: when the new status is
    a legal status that is also a legal timeline action, the document is
    stored with one entry more if the status is unchanged and with two
    entries more if it changed. *)
Lemma updateStatus_accepts (s : string) (by_ : ObjectId) (notes : string)
      (d : Doc) (w : World) :
  d_isNew d = false -> d_statusModified d = false ->
  valid (d_app d) = true ->
  arrayIncludes statusEnum s = true ->
  arrayIncludes timelineActionEnum s = true ->
  existsb (fun b => (a_id b =? a_id (d_app d))%nat) (applications w) = true ->
  let t1 := clock w (ticks w) in
  let t2 := clock w (S (ticks w)) in
  let a' := updated s by_ notes (d_app d) t1 t2 in
  updateStatus s by_ notes d w =
  (Ok {| d_app := a'; d_isNew := false; d_statusModified := false |},
   setApplications (replaceApplication a' (applications w))
     (if a_status (d_app d) =? s then tick w else tick (tick w))).
Proof.
  intros Hnew Hmod Hvalid Hs Ha Hstored. cbv zeta.
  destruct d as [a isNew modified].
  cbn [d_app d_isNew d_statusModified] in *. subst isNew modified.
  unfold updateStatus, bind, newDate, save, setStatus, pushTimeline, onApp.
  cbn [d_app d_isNew d_statusModified applications jobs clock ticks].
  rewrite valid_split in Hvalid.
  apply andb_prop in Hvalid. destruct Hvalid as [Hvalid Htl].
  apply andb_prop in Hvalid. destruct Hvalid as [_ Hrest].
  assert (Hv : validate
                 (with_timeline
                    (a_timeline (with_status s a)
                     ++ [statusEntry s by_ notes (clock w (ticks w))])
                    (with_status s a)) = None).
  { apply validate_valid. rewrite valid_split.
    cbn [a_status a_timeline with_timeline with_status].
    rewrite Hs, forallb_snoc, Htl. cbn [statusEntry t_action].
    rewrite Ha. now rewrite !andb_true_r. }
  unfold statusEntry in Hv. rewrite Hv.
  unfold updated, addedEntries, preSave, bind.
  cbn [d_app d_isNew d_statusModified orb a_status with_status].
  destruct (a_status a =? s) eqn:Hsame; cbn [negb].
  - unfold persist, ret.
    cbn [d_app d_isNew a_id with_timeline with_status applications].
    rewrite Hstored. reflexivity.
  - unfold newDate, persist, ret, pushTimeline, onApp.
    cbn [d_app d_isNew d_statusModified a_id a_timeline with_timeline
         with_status applications jobs clock ticks].
    rewrite Hstored. rewrite <- app_assoc. reflexivity.
Qed.

Lemma validate_error (a : Application) (e : Error) :
  validate a = Some e -> exists paths, e = ValidationError paths.
Proof.
  unfold validate. destruct (failing (checks a)); intros H; inversion H; eauto.
Qed.

Lemma validate_invalid (a : Application) :
  valid a = false -> exists path, validate a = Some (ValidationError path).
Proof.
  intros H. destruct (validate a) as [e | ] eqn:E.
  - destruct (validate_error a e E) as [path ->]. eauto.
  - apply validate_valid in E. congruence.
Qed.

(** [updateStatus] with a status that is no timeline action: validation
    throws and nothing is stored. *)
Lemma updateStatus_rejects (s : string) (by_ : ObjectId) (notes : string)
      (d : Doc) (w : World) :
  arrayIncludes timelineActionEnum s = false ->
  exists path,
    updateStatus s by_ notes d w = (Throw (ValidationError path), tick w).
Proof.
  intros Hs.
  unfold updateStatus, bind, newDate, save.
  cbv beta iota zeta.
  destruct (validate_invalid
              (d_app (pushTimeline
                        {| t_action := s; t_date := clock w (ticks w);
                           t_performedBy := Some by_; t_notes := Some notes |}
                        (setStatus s d)))) as [path Hpath].
  { rewrite valid_split. unfold pushTimeline, onApp, setStatus.
    cbn [d_app a_timeline with_timeline with_status].
    rewrite forallb_snoc. cbn [t_action]. rewrite Hs.
    now rewrite !andb_false_r. }
  rewrite Hpath. exists path. reflexivity.
Qed.

Lemma valid_with_matchScore (a : Application) (m : Z) :
  valid a = true -> (0 <= m <= 100)%Z ->
  valid (with_matchScore (Some m) a) = true.
Proof.
  unfold valid, checks.
  cbn [forallb snd with_matchScore a_status a_coverLetter a_matchScore
       a_interview a_evaluation a_timeline].
  intros H Hm. rewrite !andb_true_iff in *.
  repeat match goal with
         | H : _ /\ _ |- _ => destruct H
         end.
  repeat split; trivial; apply Z.leb_le; lia.
Qed.

Lemma bind_ok {A B : Type} (c : M A) (k : A -> M B) (w w' : World) (a : A) :
  c w = (Ok a, w') -> bind c k w = k a w'.
Proof. intros H. unfold bind. now rewrite H. Qed.

Lemma bind_throw {A B : Type} (c : M A) (k : A -> M B) (w w' : World)
      (e : Error) :
  c w = (Throw e, w') -> bind c k w = (Throw e, w').
Proof. intros H. unfold bind. now rewrite H. Qed.

(** The document in hand once it has been written. *)
Definition written (a : Application) : Doc :=
  {| d_app := a; d_isNew := false; d_statusModified := false |}.

(** [save] of a new, valid document that breaks no unique index. *)
Lemma save_insert (d : Doc) (w : World) :
  d_isNew d = true -> d_statusModified d = false ->
  validate (d_app d) = None ->
  existsb (fun b => (a_id b =? a_id (d_app d))%nat
                    || samePair (a_job (d_app d)) (a_applicant (d_app d)) b)
          (applications w) = false ->
  save d w =
  (Ok (written (d_app d)), setApplications (applications w ++ [d_app d]) w).
Proof.
  intros Hnew Hmod Hv Hfree.
  unfold save. rewrite Hv. unfold preSave. rewrite Hmod.
  unfold bind, ret, persist. rewrite Hnew, Hfree. reflexivity.
Qed.

(** [save] of a stored, valid document whose status is not modified. *)
Lemma save_update (d : Doc) (w : World) :
  d_isNew d = false -> d_statusModified d = false ->
  validate (d_app d) = None ->
  existsb (fun b => (a_id b =? a_id (d_app d))%nat) (applications w) = true ->
  save d w =
  (Ok (written (d_app d)),
   setApplications (replaceApplication (d_app d) (applications w)) w).
Proof.
  intros Hnew Hmod Hv Hstored.
  unfold save. rewrite Hv. unfold preSave. rewrite Hmod.
  unfold bind, ret, persist. rewrite Hnew, Hstored. reflexivity.
Qed.

End MongooseFacts.

(* ------------------------------------------------------------------ *)
(** ** Facts about submissions *)

Module SubmissionFacts.

Import JS Mongoose MongooseFacts Routes.
Local Open Scope string_scope.

(** The score of the specification for lists of [s] skills, [x] experience
    entries and [e] education entries. *)
Definition specMatchScore (s x e : nat) : Z :=
  Z.min (Z.min (Z.of_nat s * 10) 50 + Z.min (Z.of_nat x * 5) 30
         + Z.min (Z.of_nat e * 5) 20) 100.

Lemma matchScoreOf_spec (a : Application) :
  matchScoreOf a =
  specMatchScore (List.length (a_skills a)) (List.length (a_experience a))
                 (List.length (a_education a)).
Proof.
  unfold matchScoreOf, specMatchScore.
  destruct (List.length (a_skills a)) as [ | s];
    destruct (List.length (a_experience a)) as [ | x];
    destruct (List.length (a_education a)) as [ | e];
    cbv beta iota zeta delta [Nat.ltb Nat.leb]; lia.
Qed.

Lemma specMatchScore_range (s x e : nat) :
  (0 <= specMatchScore s x e <= 100)%Z.
Proof. unfold specMatchScore. lia. Qed.

Lemma freshId_fresh (apps : list Application) (b : Application) :
  In b apps -> (a_id b =? freshId apps)%nat = false.
Proof.
  intros Hin. apply Nat.eqb_neq. unfold freshId.
  assert (H : (a_id b <= list_max (map a_id apps))%nat).
  { pose proof (proj1 (list_max_le (map a_id apps) (list_max (map a_id apps)))
                      (Nat.le_refl _)) as Hall.
    rewrite Forall_forall in Hall. apply Hall. now apply in_map. }
  lia.
Qed.

Lemma existsb_false {A : Type} (f : A -> bool) (l : list A) :
  (forall x, In x l -> f x = false) -> existsb f l = false.
Proof.
  induction l as [ | x l IH]; intros H; simpl; [ reflexivity | ].
  rewrite (H x (or_introl eq_refl)). simpl. apply IH.
  intros y Hy. apply H. now right.
Qed.

Lemma find_none_iff {A : Type} (f : A -> bool) (l : list A) :
  find f l = None <-> existsb f l = false.
Proof.
  induction l as [ | x l IH]; simpl; [ tauto | ].
  destruct (f x); simpl; [ split; discriminate | exact IH ].
Qed.

Lemma find_app_none {A : Type} (f : A -> bool) (l l' : list A) :
  find f l = None -> find f (l ++ l') = find f l'.
Proof.
  induction l as [ | x l IH]; simpl; [ reflexivity | ].
  destruct (f x); [ discriminate | exact IH ].
Qed.

Lemma replace_absent (a : Application) (apps : list Application) :
  (forall b, In b apps -> (a_id b =? a_id a)%nat = false) ->
  replaceApplication a apps = apps.
Proof.
  intros H. unfold replaceApplication.
  rewrite <- (map_id apps) at 2. apply map_ext_in.
  intros b Hb. now rewrite (H b Hb).
Qed.

(** What the chains of the submission route let through. *)
Lemma applyErrors_nil (req : ApplyRequest) :
  applyErrors req = [] ->
  (trimmedCoverLetter req =? "") = false /\
  (2000 <? String.length (trimmedCoverLetter req))%nat = false.
Proof.
  unfold applyErrors. intros H.
  apply app_eq_nil in H. destruct H as [_ H].
  apply app_eq_nil in H. destruct H as [H1 H].
  apply app_eq_nil in H. destruct H as [H2 _].
  split.
  - destruct (trimmedCoverLetter req =? ""); [ discriminate | reflexivity ].
  - destruct (2000 <? String.length (trimmedCoverLetter req))%nat;
      [ discriminate | reflexivity ].
Qed.

(** The application a successful submission stores. *)
Definition submitted (w : World) (job : Job) (req : ApplyRequest)
  : Application :=
  let a := d_app (newApplication (freshId (applications w)) job req) in
  with_matchScore (Some (matchScoreOf a)) a.

(** The job collection once the counter of [job] has been incremented. *)
Definition counted (job : Job) (w : World) : World :=
  snd (incrementApplications job w).

Lemma findJob_id (id : ObjectId) (js : list Job) (job : Job) :
  findJob id js = Some job -> j_id job = id.
Proof.
  intros H. apply find_some in H. destruct H as [_ H].
  now apply Nat.eqb_eq in H.
Qed.

(** A submission that passes every check stores the application, scores it,
    counts it on the job and answers 201 with it. *)
Lemma postApplication_accepts (w : World) (req : ApplyRequest)
      (jobId : ObjectId) (job : Job) :
  applyErrors req = [] -> ar_jobId req = Some jobId ->
  findJob jobId (jobs w) = Some job ->
  j_status job = "active" -> j_approved job = true ->
  existsb (samePair jobId (u_id (ar_user req))) (applications w) = false ->
  postApplication req w =
  ({| r_status := 201;
      r_body := WithApplication "Application submitted successfully"
                  (Some (submitted w job req)) |},
   counted job (setApplications (applications w ++ [submitted w job req]) w)).
Proof.
  intros Herr Hid Hjob Hactive Happroved Hnone.
  pose proof (findJob_id _ _ _ Hjob) as Hjid.
  destruct (applyErrors_nil req Herr) as [Hcl Hlen].
  unfold postApplication, tryCatch. rewrite Herr, Hid.
  unfold bind at 1. unfold Job_findById. rewrite Hjob.
  rewrite Hactive, Happroved, String.eqb_refl. cbn [negb orb].
  unfold bind at 1. unfold findOne. cbv beta.
  apply find_none_iff in Hnone. rewrite Hnone. cbn [option_map]. cbv beta.
  set (a0 := d_app (newApplication (freshId (applications w)) job req)).
  set (a1 := with_matchScore (Some (matchScoreOf a0)) a0).
  assert (Hfresh : forall b, In b (applications w) ->
                             (a_id b =? a_id a1)%nat = false).
  { intros b Hb. exact (freshId_fresh (applications w) b Hb). }
  (* the first save: an insert *)
  assert (Hv0 : validate a0 = None).
  { apply validate_valid. unfold valid, checks, a0, newApplication.
    cbn [d_app a_status a_coverLetter a_matchScore a_interview a_evaluation
         a_timeline forallb snd].
    rewrite Hcl. rewrite Nat.ltb_antisym in Hlen.
    apply negb_false_iff in Hlen. rewrite Hlen. reflexivity. }
  assert (Hfree : existsb (fun b => (a_id b =? a_id a0)%nat
                                    || samePair (a_job a0) (a_applicant a0) b)
                          (applications w) = false).
  { apply existsb_false. intros b Hb.
    change (a_id a0) with (a_id a1). rewrite (Hfresh b Hb).
    change (a_job a0) with (j_id job).
    change (a_applicant a0) with (u_id (ar_user req)).
    rewrite Hjid. exact (find_none _ _ Hnone b Hb). }
  rewrite (bind_ok _ _ _ _ _
             (save_insert (newApplication (freshId (applications w)) job req)
                          w eq_refl eq_refl Hv0 Hfree)).
  fold a0.
  (* the second save: the score *)
  assert (Hv1 : validate a1 = None).
  { apply validate_valid. apply validate_valid in Hv0.
    apply valid_with_matchScore; [ exact Hv0 | ].
    rewrite matchScoreOf_spec. apply specMatchScore_range. }
  assert (Hstored : existsb (fun b => (a_id b =? a_id a1)%nat)
                            (applications
                               (setApplications (applications w ++ [a0]) w))
                    = true).
  { cbn [applications setApplications]. rewrite existsb_app. cbn [existsb].
    change (a_id a0) with (a_id a1).
    rewrite Nat.eqb_refl. now rewrite orb_true_r. }
  unfold calculateMatchScore.
  rewrite (bind_ok _ _ _ _ _
             (save_update (onApp (with_matchScore (Some (matchScoreOf a0)))
                                 (written a0))
                          _ eq_refl eq_refl Hv1 Hstored)).
  cbn [applications setApplications onApp written d_app].
  fold a1.
  assert (Hrepl : replaceApplication a1 (applications w ++ [a0])
                  = (applications w ++ [a1])%list).
  { unfold replaceApplication. rewrite map_app.
    fold (replaceApplication a1 (applications w)).
    rewrite (replace_absent a1 (applications w) Hfresh).
    cbn [map]. change (a_id a0) with (a_id a1).
    now rewrite Nat.eqb_refl. }
  rewrite Hrepl.
  (* the counter and the answer *)
  assert (Hfound : findApplication (a_id a1) (applications w ++ [a1])
                   = Some a1).
  { unfold findApplication. rewrite find_app_none.
    - cbn [find]. now rewrite Nat.eqb_refl.
    - apply find_none_iff. now apply existsb_false. }
  unfold bind, incrementApplications, findById, ret, counted.
  cbn [applications setApplications setJobs jobs clock ticks fst snd
       incrementApplications].
  rewrite Hfound. reflexivity.
Qed.

End SubmissionFacts.

(* ------------------------------------------------------------------ *)
(** ** What a request can do to the collection *)

Module StoreFacts.

Import JS Mongoose MongooseFacts Routes SubmissionFacts.
Local Open Scope string_scope.

(** The only writes to the collection: one stored document replaced by a
    version of itself. *)
Definition rewritten (before after : list Application) : Prop :=
  after = before \/
  exists a a', In a before /\ sameKeys a' a /\
               after = replaceApplication a' before.

Lemma NoDup_map_eq {A B : Type} (f : A -> B) (l : list A) (x y : A) :
  NoDup (map f l) -> In x l -> In y l -> f x = f y -> x = y.
Proof.
  induction l as [ | z l IH]; simpl; intros Hnd Hx Hy Hf; [ contradiction | ].
  apply NoDup_cons_iff in Hnd. destruct Hnd as [Hz Hnd].
  destruct Hx as [-> | Hx], Hy as [-> | Hy]; trivial.
  - exfalso. apply Hz. rewrite Hf. now apply in_map.
  - exfalso. apply Hz. rewrite <- Hf. now apply in_map.
  - now apply IH.
Qed.

Lemma rewritten_keys (before after : list Application) :
  NoDup (map a_id before) -> rewritten before after ->
  map a_id after = map a_id before /\ map pairOf after = map pairOf before.
Proof.
  intros Hnd [-> | (a & a' & Hin & (Hid & Hjob & Happ) & ->)];
    [ now split | ].
  unfold replaceApplication. rewrite !map_map.
  split; apply map_ext_in; intros b Hb;
    destruct (a_id b =? a_id a')%nat eqn:E; trivial;
    apply Nat.eqb_eq in E;
    assert (b = a) by (apply (NoDup_map_eq a_id before); congruence);
    subst b; unfold pairOf; congruence.
Qed.

Lemma rewritten_wellFormed (w w' : World) :
  wellFormed w -> rewritten (applications w) (applications w') ->
  wellFormed w'.
Proof.
  intros [Hids Hpairs] Hrw.
  destruct (rewritten_keys _ _ Hids Hrw) as [E1 E2].
  unfold wellFormed. now rewrite E1, E2.
Qed.

(** [save] of a stored document leaves the collection as it is or replaces
    the document by the saved version of it. *)
Lemma save_effect (d : Doc) (w w' : World) (o : Outcome Doc) :
  d_isNew d = false -> save d w = (o, w') ->
  applications w' = applications w \/
  exists a', sameKeys a' (d_app d) /\
             applications w' = replaceApplication a' (applications w).
Proof.
  intros Hnew. unfold save.
  destruct (validate (d_app d)); [ intros [= _ <-]; now left | ].
  unfold preSave, bind, newDate, ret, persist, pushTimeline, onApp.
  destruct (d_statusModified d); cbn [d_app d_isNew applications];
    rewrite Hnew;
    match goal with
    | |- context [existsb ?f ?l] => destruct (existsb f l)
    end;
    intros [= _ <-]; cbn [applications setApplications];
      try (now left);
      right; eexists; (split; [ | reflexivity ]); repeat split.
Qed.

Lemma updateStatus_effect (s : string) (by_ : ObjectId) (notes : string)
      (d : Doc) (w w' : World) (o : Outcome Doc) :
  d_isNew d = false -> updateStatus s by_ notes d w = (o, w') ->
  applications w' = applications w \/
  exists a', sameKeys a' (d_app d) /\
             applications w' = replaceApplication a' (applications w).
Proof.
  intros Hnew. unfold updateStatus, bind at 1, newDate.
  intros H. apply save_effect in H; [ | exact Hnew ].
  cbn [applications] in H.
  destruct H as [H | (a' & Hk & H)]; [ now left | right ].
  exists a'. split; [ | exact H ].
  destruct Hk as (? & ? & ?). repeat split; assumption.
Qed.

Lemma findApplication_in (id : ObjectId) (apps : list Application)
      (a : Application) :
  findApplication id apps = Some a -> In a apps /\ a_id a = id.
Proof.
  intros H. apply find_some in H. destruct H as [Hin Hid].
  split; [ exact Hin | now apply Nat.eqb_eq ].
Qed.

(** The collection after an [updateStatus] on a version [d] of the stored
    document [a]. *)
Lemma updateStatus_rewrites (s : string) (by_ : ObjectId) (notes : string)
      (a : Application) (d : Doc) (v v' : World) (o : Outcome Doc)
      (apps : list Application) :
  In a apps -> applications v = apps ->
  d_isNew d = false -> sameKeys (d_app d) a ->
  updateStatus s by_ notes d v = (o, v') ->
  rewritten apps (applications v').
Proof.
  intros Hin Hv Hnew Hk Hup.
  apply updateStatus_effect in Hup; [ | exact Hnew ].
  rewrite Hv in Hup.
  destruct Hup as [Hup | (a' & Hk' & Hup)]; [ now left | right ].
  exists a, a'. repeat split; trivial;
    destruct Hk as (? & ? & ?), Hk' as (? & ? & ?); congruence.
Qed.

Lemma sameKeys_refl (a : Application) : sameKeys a a.
Proof. repeat split. Qed.

(** Runs a handler up to its call of [updateStatus] and closes the goal
    with [updateStatus_rewrites]. *)
Ltac through_updateStatus a Hin :=
  repeat match goal with
         | |- context [if ?c then _ else _] =>
             destruct c; [ intros [= _ <-]; now left | ]
         end;
  unfold bind at 1;
  match goal with
  | |- context [updateStatus ?s ?u ?n ?d ?v] =>
      let o := fresh "o" in
      let v' := fresh "v" in
      let Hup := fresh "Hup" in
      destruct (updateStatus s u n d v) as [o v'] eqn:Hup;
      apply (updateStatus_rewrites s u n a d v v' o _ Hin eq_refl eq_refl
                                   (sameKeys_refl a)) in Hup;
      destruct o; unfold bind, findById, ret; intros [= _ <-]; exact Hup
  end.

Lemma putStatus_rewrites (req : StatusRequest) (w : World) :
  rewritten (applications w) (applications (snd (putStatus req w))).
Proof.
  destruct (putStatus req w) as [r w'] eqn:H. cbn [snd]. revert H.
  unfold putStatus, tryCatch.
  destruct (statusErrors req); [ | intros [= _ <-]; now left ].
  destruct (sr_status req); [ | intros [= _ <-]; now left ].
  unfold bind at 1, findById at 1.
  destruct (findApplication (sr_id req) (applications w)) as [a | ] eqn:Hfind;
    cbn [option_map]; [ | intros [= _ <-]; now left ].
  destruct (findApplication_in _ _ _ Hfind) as [Hin _].
  cbn [hydrate d_app].
  through_updateStatus a Hin.
Qed.

Lemma withdraw_rewrites (req : IdRequest) (w : World) :
  rewritten (applications w) (applications (snd (withdraw req w))).
Proof.
  destruct (withdraw req w) as [r w'] eqn:H. cbn [snd]. revert H.
  unfold withdraw, tryCatch.
  unfold bind at 1, findById at 1.
  destruct (findApplication (ir_id req) (applications w)) as [a | ] eqn:Hfind;
    cbn [option_map]; [ | intros [= _ <-]; now left ].
  destruct (findApplication_in _ _ _ Hfind) as [Hin _].
  cbn [hydrate d_app].
  through_updateStatus a Hin.
Qed.

Lemma acceptOffer_rewrites (req : IdRequest) (w : World) :
  rewritten (applications w) (applications (snd (acceptOffer req w))).
Proof.
  destruct (acceptOffer req w) as [r w'] eqn:H. cbn [snd]. revert H.
  unfold acceptOffer, tryCatch.
  unfold bind at 1, findById at 1.
  destruct (findApplication (ir_id req) (applications w)) as [a | ] eqn:Hfind;
    cbn [option_map]; [ | intros [= _ <-]; now left ].
  destruct (findApplication_in _ _ _ Hfind) as [Hin _].
  cbn [hydrate d_app].
  repeat match goal with
         | |- context [if ?c then _ else _] =>
             destruct c; [ intros [= _ <-]; now left | ]
         end.
  unfold bind at 1, newDate at 1. unfold bind at 1.
  match goal with
  | |- context [updateStatus ?s ?u ?n ?d ?v] =>
      destruct (updateStatus s u n d v) as [o v'] eqn:Hup;
      apply (updateStatus_rewrites s u n a d v v' o _ Hin eq_refl eq_refl)
        in Hup; [ | repeat split ]
  end.
  destruct o; unfold bind, findById, ret; intros [= _ <-]; exact Hup.
Qed.

Lemma save_rewrites (a : Application) (d : Doc) (v v' : World)
      (o : Outcome Doc) (apps : list Application) :
  In a apps -> applications v = apps ->
  d_isNew d = false -> sameKeys (d_app d) a ->
  save d v = (o, v') ->
  rewritten apps (applications v').
Proof.
  intros Hin Hv Hnew Hk Hup.
  apply save_effect in Hup; [ | exact Hnew ].
  rewrite Hv in Hup.
  destruct Hup as [Hup | (a' & Hk' & Hup)]; [ now left | right ].
  exists a, a'. repeat split; trivial;
    destruct Hk as (? & ? & ?), Hk' as (? & ? & ?); congruence.
Qed.

Lemma scheduleInterview_rewrites (req : InterviewRequest) (w : World) :
  rewritten (applications w) (applications (snd (scheduleInterview req w))).
Proof.
  destruct (scheduleInterview req w) as [r w'] eqn:H. cbn [snd]. revert H.
  unfold scheduleInterview, tryCatch.
  destruct (vr_errors req); [ | intros [= _ <-]; now left ].
  unfold bind at 1, findById at 1.
  destruct (findApplication (vr_id req) (applications w)) as [a | ] eqn:Hfind;
    cbn [option_map]; [ | intros [= _ <-]; now left ].
  destruct (findApplication_in _ _ _ Hfind) as [Hin _].
  cbn [hydrate d_app].
  repeat match goal with
         | |- context [if ?c then _ else _] =>
             destruct c; [ intros [= _ <-]; now left | ]
         end.
  unfold bind at 1.
  match goal with
  | |- context [updateStatus ?s ?u ?n ?d ?v] =>
      destruct (updateStatus s u n d v) as [o v'] eqn:Hup;
      apply (updateStatus_rewrites s u n a d v v' o _ Hin eq_refl eq_refl)
        in Hup; [ | repeat split ]
  end.
  destruct o; unfold bind, findById, ret; intros [= _ <-]; exact Hup.
Qed.

Lemma makeOffer_rewrites (req : OfferRequest) (w : World) :
  rewritten (applications w) (applications (snd (makeOffer req w))).
Proof.
  destruct (makeOffer req w) as [r w'] eqn:H. cbn [snd]. revert H.
  unfold makeOffer, tryCatch.
  destruct (or_errors req); [ | intros [= _ <-]; now left ].
  unfold bind at 1, findById at 1.
  destruct (findApplication (or_id req) (applications w)) as [a | ] eqn:Hfind;
    cbn [option_map]; [ | intros [= _ <-]; now left ].
  destruct (findApplication_in _ _ _ Hfind) as [Hin _].
  cbn [hydrate d_app].
  repeat match goal with
         | |- context [if ?c then _ else _] =>
             destruct c; [ intros [= _ <-]; now left | ]
         end.
  unfold bind at 1.
  match goal with
  | |- context [updateStatus ?s ?u ?n ?d ?v] =>
      destruct (updateStatus s u n d v) as [o v'] eqn:Hup;
      apply (updateStatus_rewrites s u n a d v v' o _ Hin eq_refl eq_refl)
        in Hup; [ | repeat split ]
  end.
  destruct o; unfold bind, findById, ret; intros [= _ <-]; exact Hup.
Qed.

Lemma evaluate_rewrites (req : EvaluateRequest) (w : World) :
  rewritten (applications w) (applications (snd (evaluate req w))).
Proof.
  destruct (evaluate req w) as [r w'] eqn:H. cbn [snd]. revert H.
  unfold evaluate, tryCatch.
  destruct (er_errors req); [ | intros [= _ <-]; now left ].
  unfold bind at 1, findById at 1.
  destruct (findApplication (er_id req) (applications w)) as [a | ] eqn:Hfind;
    cbn [option_map]; [ | intros [= _ <-]; now left ].
  destruct (findApplication_in _ _ _ Hfind) as [Hin _].
  cbn [hydrate d_app].
  repeat match goal with
         | |- context [if ?c then _ else _] =>
             destruct c; [ intros [= _ <-]; now left | ]
         end.
  unfold bind at 1.
  match goal with
  | |- context [save ?d ?v] =>
      destruct (save d v) as [o v'] eqn:Hup;
      apply (save_rewrites a d v v' o _ Hin eq_refl eq_refl) in Hup;
        [ | repeat split ]
  end.
  destruct o; unfold bind, findById, ret; intros [= _ <-]; exact Hup.
Qed.

(** A submission adds at most one application, under a new [_id] and for a
    pair that had none. *)
Lemma postApplication_effect (req : ApplyRequest) (w : World) :
  applications (snd (postApplication req w)) = applications w \/
  exists a,
    applications (snd (postApplication req w)) = (applications w ++ [a])%list
    /\ ~ In (a_id a) (map a_id (applications w))
    /\ ~ In (pairOf a) (map pairOf (applications w)).
Proof.
  destruct (applyErrors req) as [ | e errs] eqn:Herr.
  2:{ left. unfold postApplication, tryCatch. rewrite Herr. reflexivity. }
  destruct (ar_jobId req) as [jobId | ] eqn:Hid.
  2:{ left. unfold postApplication, tryCatch. rewrite Herr, Hid. reflexivity. }
  destruct (findJob jobId (jobs w)) as [job | ] eqn:Hjob.
  2:{ left. unfold postApplication, tryCatch. rewrite Herr, Hid.
      unfold bind at 1, Job_findById. rewrite Hjob. reflexivity. }
  destruct (negb (j_status job =? "active") || negb (j_approved job))
    eqn:Hopen.
  { left. unfold postApplication, tryCatch. rewrite Herr, Hid.
    unfold bind at 1, Job_findById. rewrite Hjob, Hopen. reflexivity. }
  destruct (existsb (samePair jobId (u_id (ar_user req))) (applications w))
    eqn:Hdup.
  { left. unfold postApplication, tryCatch. rewrite Herr, Hid.
    unfold bind at 1, Job_findById. rewrite Hjob, Hopen.
    unfold bind at 1, findOne.
    destruct (find (samePair jobId (u_id (ar_user req))) (applications w))
      eqn:Hfind; [ reflexivity | ].
    apply find_none_iff in Hfind. congruence. }
  right. exists (submitted w job req).
  apply orb_false_elim in Hopen. destruct Hopen as [Hact Happ].
  apply negb_false_iff in Hact, Happ. apply String.eqb_eq in Hact.
  rewrite (postApplication_accepts w req jobId job Herr Hid Hjob Hact Happ Hdup).
  split; [ reflexivity | ]. split.
  - intros Hin. apply in_map_iff in Hin. destruct Hin as (b & Hb & Hin).
    pose proof (freshId_fresh (applications w) b Hin) as Hfresh.
    apply Nat.eqb_neq in Hfresh. apply Hfresh. exact Hb.
  - intros Hin. apply in_map_iff in Hin. destruct Hin as (b & Hb & Hin).
    assert (Hsame : samePair jobId (u_id (ar_user req)) b = true).
    { unfold pairOf in Hb. injection Hb as Hj Ha.
      unfold samePair. rewrite Hj, Ha.
      change (a_job (submitted w job req)) with (j_id job).
      change (a_applicant (submitted w job req)) with (u_id (ar_user req)).
      rewrite (findJob_id _ _ _ Hjob). now rewrite !Nat.eqb_refl. }
    apply find_none_iff in Hdup.
    rewrite (find_none _ _ Hdup b Hin) in Hsame. discriminate.
Qed.

Lemma postApplication_wellFormed (req : ApplyRequest) (w : World) :
  wellFormed w -> wellFormed (snd (postApplication req w)).
Proof.
  intros [Hids Hpairs].
  destruct (postApplication_effect req w) as [E | (a & E & Hid & Hpair)];
    unfold wellFormed; rewrite E; [ now split | ].
  rewrite !map_app. cbn [map].
  split; apply NoDup_app; trivial;
    try (constructor; [ intros [] | constructor ]);
    intros x Hx [<- | []]; contradiction.
Qed.

(** Every handler keeps the uniqueness constraints of the collection. *)
Lemma handle_wellFormed (req : Request) (w : World) :
  wellFormed w -> wellFormed (snd (handle req w)).
Proof.
  intros Hw. destruct req as [r | r | r | r | r | r | r]; cbn [handle].
  - now apply postApplication_wellFormed.
  - exact (rewritten_wellFormed _ _ Hw (putStatus_rewrites r w)).
  - exact (rewritten_wellFormed _ _ Hw (scheduleInterview_rewrites r w)).
  - exact (rewritten_wellFormed _ _ Hw (evaluate_rewrites r w)).
  - exact (rewritten_wellFormed _ _ Hw (makeOffer_rewrites r w)).
  - exact (rewritten_wellFormed _ _ Hw (acceptOffer_rewrites r w)).
  - exact (rewritten_wellFormed _ _ Hw (withdraw_rewrites r w)).
Qed.

Lemma serve_wellFormed (reqs : list Request) (w : World) :
  wellFormed w -> wellFormed (serve reqs w).
Proof.
  revert w. induction reqs as [ | req reqs IH]; intros w Hw; cbn [serve].
  - exact Hw.
  - apply IH. now apply handle_wellFormed.
Qed.

(** At most one application per (job, applicant) pair: two stored
    applications of one applicant to one job are the same document. *)
Lemma wellFormed_onePerPair (w : World) (a b : Application) :
  wellFormed w -> In a (applications w) -> In b (applications w) ->
  a_job a = a_job b -> a_applicant a = a_applicant b -> a = b.
Proof.
  intros [_ Hpairs] Ha Hb Hj Hp.
  apply (NoDup_map_eq pairOf (applications w)); trivial.
  unfold pairOf. congruence.
Qed.

End StoreFacts.

(* ------------------------------------------------------------------ *)
(** ** The handlers of the lifecycle, case by case *)

Module LifecycleFacts.

Import JS Mongoose MongooseFacts Routes SubmissionFacts StoreFacts.
Local Open Scope string_scope.

Lemma find_replaced (a' : Application) (apps : list Application) :
  existsb (fun b => (a_id b =? a_id a')%nat) apps = true ->
  findApplication (a_id a') (replaceApplication a' apps) = Some a'.
Proof.
  unfold findApplication, replaceApplication.
  induction apps as [ | b apps IH]; cbn [existsb map find];
    [ discriminate | ].
  destruct (a_id b =? a_id a')%nat eqn:E; cbn [orb].
  - intros _. now rewrite Nat.eqb_refl.
  - intros H. rewrite E. now apply IH.
Qed.

Lemma existsb_found (id : ObjectId) (apps : list Application)
      (a : Application) :
  findApplication id apps = Some a ->
  existsb (fun b => (a_id b =? a_id a)%nat) apps = true.
Proof.
  intros H. destruct (findApplication_in _ _ _ H) as [Hin Hid].
  apply existsb_exists. exists a. split; [ exact Hin | apply Nat.eqb_refl ].
Qed.

(** The timeline after [updateStatus] is the old timeline followed by one
    or two new entries. *)
Lemma updated_timeline (s : string) (by_ : ObjectId) (notes : string)
      (a : Application) (t1 t2 : Date) :
  a_timeline (updated s by_ notes a t1 t2)
  = (a_timeline a ++ addedEntries s by_ notes a t1 t2)%list /\
  (1 <= List.length (addedEntries s by_ notes a t1 t2) <= 2)%nat.
Proof.
  split; [ reflexivity | ].
  unfold addedEntries. destruct (a_status a =? s); cbn [List.length]; lia.
Qed.

(** A status change adds two entries, a repeated status one. *)
Lemma addedEntries_length (s : string) (by_ : ObjectId) (notes : string)
      (a : Application) (t1 t2 : Date) :
  List.length (addedEntries s by_ notes a t1 t2)
  = if a_status a =? s then 1%nat else 2%nat.
Proof.
  unfold addedEntries. now destruct (a_status a =? s).
Qed.

(** A transition to another status keeps the timeline as a prefix and adds
    exactly two entries to it. *)
Lemma status_change_adds_two (s : string) (by_ : ObjectId) (notes : string)
      (a : Application) (t1 t2 : Date) :
  a_status a <> s ->
  firstn (List.length (a_timeline a))
         (a_timeline (updated s by_ notes a t1 t2)) = a_timeline a /\
  List.length (a_timeline (updated s by_ notes a t1 t2))
  = (List.length (a_timeline a) + 2)%nat.
Proof.
  intros Hs. apply String.eqb_neq in Hs.
  destruct (updated_timeline s by_ notes a t1 t2) as [-> _].
  split.
  - rewrite firstn_app, Nat.sub_diag, firstn_all. cbn [firstn].
    apply app_nil_r.
  - rewrite length_app, addedEntries_length, Hs. reflexivity.
Qed.

(** With a clock that does not run backwards, the entries added are dated
    no earlier than the entries already there. *)
Lemma added_entries_are_later (s : string) (by_ : ObjectId) (notes : string)
      (a : Application) (w : World) (old new : TimelineEntry) :
  (forall e, In e (a_timeline a) -> (t_date e <= clock w (ticks w))%Z) ->
  (clock w (ticks w) <= clock w (S (ticks w)))%Z ->
  In old (a_timeline a) ->
  In new (addedEntries s by_ notes a (clock w (ticks w))
                       (clock w (S (ticks w)))) ->
  (t_date old <= t_date new)%Z.
Proof.
  intros Hpast Hclock Hold Hnew. specialize (Hpast old Hold).
  unfold addedEntries in Hnew.
  destruct Hnew as [<- | Hnew]; [ exact Hpast | ].
  destruct (a_status a =? s); [ contradiction | ].
  destruct Hnew as [<- | []]. cbn [hookEntry t_date]. lia.
Qed.

(** PUT status with a status outside the enum: 400, nothing touched. *)
Lemma putStatus_illegal (req : StatusRequest) (w : World) :
  match sr_status req with
  | Some s => arrayIncludes statusEnum s = false
  | None => True
  end ->
  putStatus req w
  = ({| r_status := 400; r_body := Errors ["Invalid value"] |}, w).
Proof.
  unfold putStatus, tryCatch, statusErrors.
  destruct (sr_status req) as [s | ]; [ intros -> | intros _ ]; reflexivity.
Qed.

(** PUT status by the employer of the application or an admin, with a legal
    status that is also a timeline action: the application is stored with
    the new status and the entries of [addedEntries]. *)
Lemma putStatus_accepts (req : StatusRequest) (w : World) (s : string)
      (a : Application) :
  sr_status req = Some s ->
  arrayIncludes statusEnum s = true ->
  arrayIncludes timelineActionEnum s = true ->
  findApplication (sr_id req) (applications w) = Some a ->
  valid a = true ->
  a_employer a = u_id (sr_user req) \/ u_role (sr_user req) = "admin" ->
  let notes := match sr_notes req with Some n => trim n | None => "" end in
  let a' := updated s (u_id (sr_user req)) notes a
                    (clock w (ticks w)) (clock w (S (ticks w))) in
  putStatus req w =
  ({| r_status := 200;
      r_body := WithApplication "Application status updated successfully"
                  (Some a') |},
   setApplications (replaceApplication a' (applications w))
     (if a_status a =? s then tick w else tick (tick w))).
Proof.
  intros Hs Hlegal Haction Hfind Hvalid Hauth notes a'.
  unfold putStatus, tryCatch, statusErrors. rewrite Hs, Hlegal.
  unfold bind at 1, findById at 1. rewrite Hfind. cbn [option_map hydrate d_app].
  assert (Hguard : negb (a_employer a =? u_id (sr_user req))%nat
                   && negb (u_role (sr_user req) =? "admin") = false).
  { destruct Hauth as [-> | ->];
      [ now rewrite Nat.eqb_refl | now rewrite andb_false_r ]. }
  rewrite Hguard.
  pose proof (updateStatus_accepts s (u_id (sr_user req)) notes (hydrate a) w
                eq_refl eq_refl Hvalid Hlegal Haction
                (existsb_found _ _ _ Hfind)) as Hup.
  cbv zeta in Hup. cbn [hydrate d_app] in Hup. fold a' in Hup.
  assert (Hnotes : match option_map trim (sr_notes req) with
                   | Some n => n
                   | None => ""
                   end = notes).
  { unfold notes. now destruct (sr_notes req). }
  rewrite Hnotes. rewrite (bind_ok _ _ _ _ _ Hup).
  unfold bind, findById, ret. cbn [applications setApplications].
  change (a_id a) with (a_id a').
  rewrite (find_replaced a' (applications w) (existsb_found _ _ _ Hfind)).
  reflexivity.
Qed.

(** Accepting an offer that is not there: 400, nothing touched. *)
Lemma acceptOffer_not_offered (req : IdRequest) (w : World)
      (a : Application) :
  findApplication (ir_id req) (applications w) = Some a ->
  a_applicant a = u_id (ir_user req) ->
  a_status a <> "offered" ->
  acceptOffer req w = (respond 400 "No offer to accept", w).
Proof.
  intros Hfind Happ Hstatus.
  unfold acceptOffer, tryCatch, bind at 1, findById at 1.
  rewrite Hfind. cbn [option_map hydrate d_app].
  rewrite Happ, Nat.eqb_refl. cbn [negb].
  apply String.eqb_neq in Hstatus. rewrite Hstatus. reflexivity.
Qed.

(** Accepting the offer of somebody else: 403, nothing touched. *)
Lemma acceptOffer_not_applicant (req : IdRequest) (w : World)
      (a : Application) :
  findApplication (ir_id req) (applications w) = Some a ->
  a_applicant a <> u_id (ir_user req) ->
  acceptOffer req w =
  (respond 403 "Not authorized to accept offer for this application", w).
Proof.
  intros Hfind Happ.
  unfold acceptOffer, tryCatch, bind at 1, findById at 1.
  rewrite Hfind. cbn [option_map hydrate d_app].
  apply Nat.eqb_neq in Happ. rewrite Happ. reflexivity.
Qed.

(** The other checks of a submission. *)
Lemma postApplication_invalid (req : ApplyRequest) (w : World) :
  applyErrors req <> [] ->
  postApplication req w =
  ({| r_status := 400; r_body := Errors (applyErrors req) |}, w).
Proof.
  intros H. unfold postApplication, tryCatch.
  destruct (applyErrors req); [ contradiction | reflexivity ].
Qed.

Lemma postApplication_job_missing (req : ApplyRequest) (w : World)
      (jobId : ObjectId) :
  applyErrors req = [] -> ar_jobId req = Some jobId ->
  findJob jobId (jobs w) = None ->
  postApplication req w = (respond 404 "Job not found", w).
Proof.
  intros Herr Hid Hjob. unfold postApplication, tryCatch.
  rewrite Herr, Hid. unfold bind at 1, Job_findById. now rewrite Hjob.
Qed.

Lemma postApplication_job_closed (req : ApplyRequest) (w : World)
      (jobId : ObjectId) (job : Job) :
  applyErrors req = [] -> ar_jobId req = Some jobId ->
  findJob jobId (jobs w) = Some job ->
  negb (j_status job =? "active") || negb (j_approved job) = true ->
  postApplication req w =
  (respond 400 "This job is not accepting applications", w).
Proof.
  intros Herr Hid Hjob Hclosed. unfold postApplication, tryCatch.
  rewrite Herr, Hid. unfold bind at 1, Job_findById.
  now rewrite Hjob, Hclosed.
Qed.

Lemma postApplication_duplicate (req : ApplyRequest) (w : World)
      (jobId : ObjectId) (job : Job) :
  applyErrors req = [] -> ar_jobId req = Some jobId ->
  findJob jobId (jobs w) = Some job ->
  negb (j_status job =? "active") || negb (j_approved job) = false ->
  existsb (samePair jobId (u_id (ar_user req))) (applications w) = true ->
  postApplication req w =
  (respond 400 "You have already applied to this job", w).
Proof.
  intros Herr Hid Hjob Hopen Hdup. unfold postApplication, tryCatch.
  rewrite Herr, Hid. unfold bind at 1, Job_findById.
  rewrite Hjob, Hopen. unfold bind at 1, findOne.
  destruct (find (samePair jobId (u_id (ar_user req))) (applications w))
    eqn:Hfind; [ reflexivity | ].
  apply find_none_iff in Hfind. congruence.
Qed.

End LifecycleFacts.

(* ------------------------------------------------------------------ *)
(** ** Properties of the application lifecycle *)

Module LifecycleProperties.

Import JS Mongoose MongooseFacts Routes SubmissionFacts StoreFacts.
Import LifecycleFacts.
Local Open Scope string_scope.

(** *** A small portal *)

Definition employerUser : User :=
  {| u_id := 2%nat; u_role := "employer"; u_profile := None;
     u_candidateProfile := None |}.

Definition applicantUser : User :=
  {| u_id := 1%nat; u_role := "candidate"; u_profile := None;
     u_candidateProfile :=
       Some {| cp_skills := Some ["JavaScript"; "React"];
               cp_experience :=
                 Some [ {| exp_title := Some "Developer";
                           exp_company := Some "Acme" |} ];
               cp_education := Some [];
               cp_preferredJobTypes := Some ["full-time"] |} |}.

Definition postedJob (status : string) (count : Z) : Job :=
  {| j_id := 7%nat; j_company := 2%nat; j_location := None;
     j_requirements := Some {| rq_skills := Some ["React"; "Node.js"] |};
     j_jobType := "full-time"; j_level := "mid";
     j_status := status; j_approved := true;
     j_applicationCount := count |}.

Definition wallClock (n : nat) : Date := (1000 + Z.of_nat n)%Z.

Definition portal (apps : list Application) (js : list Job) : World :=
  {| applications := apps; jobs := js; clock := wallClock; ticks := 0 |}.

(** The applicant applies to job 7. *)
Definition submission : ApplyRequest :=
  {| ar_user := applicantUser; ar_jobId := Some 7%nat;
     ar_coverLetter := Some "I would like to apply.";
     ar_resume := None; ar_resumeIsURL := false;
     ar_answersIsArray := None |}.

(** The application as the submission stores it. *)
Definition storedApplication : Application :=
  {| a_id := 1%nat; a_job := 7%nat; a_applicant := 1%nat;
     a_employer := 2%nat; a_status := "applied";
     a_coverLetter := "I would like to apply."; a_resume := None;
     a_matchScore := Some 25%Z;
     a_skills := ["JavaScript"; "React"];
     a_experience := [Some "Developer"]; a_education := [];
     a_interview := defaultInterview; a_evaluation := defaultEvaluation;
     a_timeline := [];
     a_offer := defaultOffer |}.

Definition appliedWorld : World :=
  portal [storedApplication] [postedJob "active" 1].

(** The employer shortlists the application. *)
Definition shortlistRequest : StatusRequest :=
  {| sr_user := employerUser; sr_id := 1%nat;
     sr_status := Some "shortlisted"; sr_notes := Some "strong profile" |}.

Definition shortlistedApplication : Application :=
  with_timeline
    [ {| t_action := "shortlisted"; t_date := 1000%Z;
         t_performedBy := Some 2%nat; t_notes := Some "strong profile" |};
      {| t_action := "shortlisted"; t_date := 1001%Z;
         t_performedBy := Some 2%nat; t_notes := None |} ]
    (with_status "shortlisted" storedApplication).

(** The employer moves the application to review. *)
Definition reviewRequest : StatusRequest :=
  {| sr_user := employerUser; sr_id := 1%nat;
     sr_status := Some "reviewing"; sr_notes := None |}.

(** The offer of the employer. *)
Definition theOffer : Offer :=
  {| o_salaryAmount := Some (85000 # 1)%Q; o_salaryCurrency := Some "USD";
     o_salaryPeriod := Some "yearly"; o_benefits := ["Health insurance"];
     o_startDate := Some "2025-03-01"; o_terms := None;
     o_deadline := Some "2025-02-15"; o_accepted := false;
     o_acceptedAt := None |}.

(** The application once the offer has been made. *)
Definition offeredApplication : Application :=
  with_offer theOffer
    (with_timeline
       [ {| t_action := "offered"; t_date := 900%Z;
            t_performedBy := Some 2%nat; t_notes := Some "Job offer made" |};
         {| t_action := "offered"; t_date := 901%Z;
            t_performedBy := Some 2%nat; t_notes := None |} ]
       (with_status "offered" storedApplication)).

Definition offeredWorld : World :=
  portal [offeredApplication] [postedJob "active" 1].

Definition acceptRequest : IdRequest :=
  {| ir_user := applicantUser; ir_id := 1%nat |}.

Definition hiredApplication : Application :=
  with_offer (markAccepted 1000%Z theOffer)
    (with_timeline
       (a_timeline offeredApplication ++
        [ {| t_action := "hired"; t_date := 1001%Z;
             t_performedBy := Some 1%nat;
             t_notes := Some "Offer accepted" |};
          {| t_action := "hired"; t_date := 1002%Z;
             t_performedBy := Some 2%nat; t_notes := None |} ])
       (with_status "hired" offeredApplication)).

(** *** The claims *)

(** C1: the employer shortlists an application whose status is [applied].
    The transition is accepted and the timeline grows by two entries, the
    one pushed by [updateStatus] and the one pushed by the [pre('save')]
    hook, where the claim has exactly one. *)
Theorem status_change_appends_two_entries :
  fst (putStatus shortlistRequest appliedWorld) =
  {| r_status := 200;
     r_body := WithApplication "Application status updated successfully"
                 (Some shortlistedApplication) |} /\
  applications (snd (putStatus shortlistRequest appliedWorld))
  = [shortlistedApplication] /\
  List.length (a_timeline shortlistedApplication)
  = (List.length (a_timeline storedApplication) + 2)%nat.
Proof. repeat split. Qed.

(** C2: [reviewing] is one of the nine legal statuses, yet the update to it
    is not accepted: the entry pushed to the timeline fails the enum of
    [timeline.action], [save] throws, the route answers 500 and the
    application stays as it was. *)
Theorem reviewing_is_not_accepted :
  arrayIncludes statusEnum "reviewing" = true /\
  arrayIncludes timelineActionEnum "reviewing" = false /\
  fst (putStatus reviewRequest appliedWorld) = respond 500 "Server error" /\
  applications (snd (putStatus reviewRequest appliedWorld))
  = applications appliedWorld.
Proof. repeat split. Qed.

(** C4: the applicant accepts an offer.  The offer is marked accepted at
    the current time and the status becomes [hired], but the timeline grows
    by two entries, where the claim has exactly one. *)
Theorem acceptOffer_appends_two_entries :
  fst (acceptOffer acceptRequest offeredWorld) =
  {| r_status := 200;
     r_body := WithApplication "Offer accepted successfully"
                 (Some hiredApplication) |} /\
  a_status hiredApplication = "hired" /\
  o_accepted (a_offer hiredApplication) = true /\
  o_acceptedAt (a_offer hiredApplication) = Some (wallClock 0) /\
  List.length (a_timeline hiredApplication)
  = (List.length (a_timeline offeredApplication) + 2)%nat.
Proof. repeat split. Qed.

(** C5: a submission for a job that does not exist is answered 404, not
    400. *)
Lemma submission_to_missing_job :
  findJob 7%nat (jobs (portal [] [])) = None /\
  postApplication submission (portal [] [])
  = (respond 404 "Job not found", portal [] []) /\
  (404 =? 400)%Z = false.
Proof. repeat split. Qed.

(** C5, amended: a submission that passes the validation of its body is
    answered 404 when the job is missing, 400 when the job is not active or
    not approved, 400 when the caller already has an application for the
    job, and otherwise 201 with the stored application, whose match score
    is the submission-time score of the caller's profile. *)
Theorem postApplication_outcome (w : World) (req : ApplyRequest)
        (jobId : ObjectId) :
  applyErrors req = [] -> ar_jobId req = Some jobId ->
  match findJob jobId (jobs w) with
  | None => postApplication req w = (respond 404 "Job not found", w)
  | Some job =>
      if negb (j_status job =? "active") || negb (j_approved job)
      then postApplication req w
           = (respond 400 "This job is not accepting applications", w)
      else if existsb (samePair jobId (u_id (ar_user req))) (applications w)
      then postApplication req w
           = (respond 400 "You have already applied to this job", w)
      else
        fst (postApplication req w)
        = {| r_status := 201;
             r_body := WithApplication "Application submitted successfully"
                         (Some (submitted w job req)) |} /\
        applications (snd (postApplication req w))
        = (applications w ++ [submitted w job req])%list /\
        a_matchScore (submitted w job req)
        = Some (specMatchScore
                  (List.length (Scorer.candidateSkills (ar_user req)))
                  (List.length (candidateExperience (ar_user req)))
                  (List.length (candidateEducation (ar_user req))))
  end.
Proof.
  intros Herr Hid.
  destruct (findJob jobId (jobs w)) as [job | ] eqn:Hjob.
  2:{ now apply postApplication_job_missing with jobId. }
  destruct (negb (j_status job =? "active") || negb (j_approved job))
    eqn:Hopen.
  { now apply postApplication_job_closed with jobId job. }
  destruct (existsb (samePair jobId (u_id (ar_user req))) (applications w))
    eqn:Hdup.
  { now apply postApplication_duplicate with jobId job. }
  apply orb_false_elim in Hopen. destruct Hopen as [Hact Happ].
  apply negb_false_iff in Hact, Happ. apply String.eqb_eq in Hact.
  rewrite (postApplication_accepts w req jobId job Herr Hid Hjob Hact Happ Hdup).
  split; [ reflexivity | ]. split; [ reflexivity | ].
  unfold submitted. cbn [a_matchScore with_matchScore].
  rewrite matchScoreOf_spec.
  cbn [newApplication d_app a_skills a_experience a_education].
  now rewrite !length_map.
Qed.

(** The first submission of the applicant to job 7 is stored and answered
    201. *)
Lemma postApplication_outcome_witness :
  fst (postApplication submission (portal [] [postedJob "active" 0]))
  = {| r_status := 201;
       r_body := WithApplication "Application submitted successfully"
                   (Some storedApplication) |} /\
  applications (snd (postApplication submission
                                     (portal [] [postedJob "active" 0])))
  = [storedApplication] /\
  a_matchScore storedApplication = Some (specMatchScore 2 1 0).
Proof.
  exact (postApplication_outcome (portal [] [postedJob "active" 0])
                                 submission 7%nat eq_refl eq_refl).
Defined.

(** C6: the applicant applies a second time after the employer has paused
    the job: the submission fails, but the answer is that of the job check,
    not the already-applied conflict. *)
Lemma second_submission_to_paused_job :
  existsb (samePair 7%nat (u_id (ar_user submission)))
          (applications (portal [storedApplication] [postedJob "paused" 1]))
  = true /\
  postApplication submission
                  (portal [storedApplication] [postedJob "paused" 1])
  = (respond 400 "This job is not accepting applications",
     portal [storedApplication] [postedJob "paused" 1]) /\
  ("This job is not accepting applications"
   =? "You have already applied to this job") = false.
Proof. repeat split. Qed.

(** C6, amended: when the caller already has an application for the job, a
    further submission stores nothing and fails with 400 or 404; it fails
    with the already-applied conflict whenever its body is valid and the job
    is found, active and approved (the earlier checks answer first
    otherwise).  Whatever requests are served, no two stored applications
    share their job and their applicant. *)
Theorem second_submission_is_refused (w : World) (req : ApplyRequest)
        (jobId : ObjectId) :
  wellFormed w ->
  ar_jobId req = Some jobId ->
  existsb (samePair jobId (u_id (ar_user req))) (applications w) = true ->
  snd (postApplication req w) = w /\
  (r_status (fst (postApplication req w)) = 400%Z \/
   r_status (fst (postApplication req w)) = 404%Z) /\
  (applyErrors req = [] ->
   forall job, findJob jobId (jobs w) = Some job ->
               j_status job = "active" -> j_approved job = true ->
               fst (postApplication req w)
               = respond 400 "You have already applied to this job") /\
  (forall reqs a b,
      In a (applications (serve reqs w)) ->
      In b (applications (serve reqs w)) ->
      a_job a = a_job b -> a_applicant a = a_applicant b -> a = b).
Proof.
  intros Hw Hid Hdup.
  assert (Hcases :
            postApplication req w
            = ({| r_status := 400; r_body := Errors (applyErrors req) |}, w)
            \/ postApplication req w = (respond 404 "Job not found", w)
            \/ postApplication req w
               = (respond 400 "This job is not accepting applications", w)
            \/ postApplication req w
               = (respond 400 "You have already applied to this job", w)).
  { destruct (applyErrors req) as [ | e errs] eqn:Herr.
    2:{ left. rewrite <- Herr. apply postApplication_invalid.
        rewrite Herr. discriminate. }
    right.
    destruct (findJob jobId (jobs w)) as [job | ] eqn:Hjob.
    2:{ left. now apply postApplication_job_missing with jobId. }
    right.
    destruct (negb (j_status job =? "active") || negb (j_approved job))
      eqn:Hopen.
    - left. now apply postApplication_job_closed with jobId job.
    - right. now apply postApplication_duplicate with jobId job. }
  split; [ | split; [ | split ] ].
  - destruct Hcases as [-> | [-> | [-> | ->]]]; reflexivity.
  - destruct Hcases as [-> | [-> | [-> | ->]]]; cbn; auto.
  - intros Herr job Hjob Hact Happ.
    rewrite (postApplication_duplicate req w jobId job Herr Hid Hjob);
      [ reflexivity | now rewrite Hact, Happ | exact Hdup ].
  - intros reqs a b. apply wellFormed_onePerPair.
    now apply serve_wellFormed.
Qed.

(** A collection of one application meets the uniqueness constraints. *)
Lemma appliedWorld_wellFormed : wellFormed appliedWorld.
Proof.
  split; cbn; (constructor; [ intros [] | constructor ]).
Qed.

(** The second submission of the applicant to job 7. *)
Lemma second_submission_is_refused_witness :
  snd (postApplication submission appliedWorld) = appliedWorld /\
  (r_status (fst (postApplication submission appliedWorld)) = 400%Z \/
   r_status (fst (postApplication submission appliedWorld)) = 404%Z) /\
  (applyErrors submission = [] ->
   forall job, findJob 7%nat (jobs appliedWorld) = Some job ->
               j_status job = "active" -> j_approved job = true ->
               fst (postApplication submission appliedWorld)
               = respond 400 "You have already applied to this job") /\
  (forall reqs a b,
      In a (applications (serve reqs appliedWorld)) ->
      In b (applications (serve reqs appliedWorld)) ->
      a_job a = a_job b -> a_applicant a = a_applicant b -> a = b).
Proof.
  exact (second_submission_is_refused appliedWorld submission 7%nat
           appliedWorld_wellFormed eq_refl eq_refl).
Defined.

(** Whatever [save] returns is the document it was given, up to the entry
    the hook may have pushed to its timeline. *)
Lemma save_returns (d d' : Doc) (w w' : World) :
  save d w = (Ok d', w') ->
  exists t, d_app d' = with_timeline t (d_app d).
Proof.
  unfold save. destruct (validate (d_app d)); [ discriminate | ].
  unfold preSave, bind, newDate, ret, persist, pushTimeline, onApp.
  destruct (d_statusModified d); cbn [d_app d_isNew applications];
    destruct (d_isNew d);
    match goal with
    | |- context [existsb ?f ?l] => destruct (existsb f l)
    end;
    intros [= <- _]; cbn [d_app];
      first [ now eexists
            | exists (a_timeline (d_app d)); now destruct (d_app d) ].
Qed.

(** C9: the score [calculateMatchScore] computes for an application is
    min(10 * skills, 50) + min(5 * experience, 30) + min(5 * education, 20),
    capped at 100; that is the [matchScore] of the document whenever the
    method returns, and it returns, with the document stored, for every
    stored valid application.  The job-listing scorer is another
    computation: for a junior job and a candidate with an empty profile it
    gives 15 where the submission-time score is 0. *)
Theorem calculateMatchScore_formula (d : Doc) (w : World) :
  let formula :=
    Z.min (Z.min (Z.of_nat (List.length (a_skills (d_app d))) * 10) 50
           + Z.min (Z.of_nat (List.length (a_experience (d_app d))) * 5) 30
           + Z.min (Z.of_nat (List.length (a_education (d_app d))) * 5) 20)
          100 in
  matchScoreOf (d_app d) = formula /\
  (forall d' w',
      calculateMatchScore d w = (Ok d', w') ->
      a_matchScore (d_app d') = Some formula) /\
  (d_isNew d = false -> d_statusModified d = false ->
   valid (d_app d) = true ->
   existsb (fun b => (a_id b =? a_id (d_app d))%nat) (applications w) = true ->
   exists d' w',
     calculateMatchScore d w = (Ok d', w') /\
     findApplication (a_id (d_app d)) (applications w') = Some (d_app d')) /\
  (exists (job : Job) (req : ApplyRequest),
      u_role (ar_user req) = "candidate" /\
      (forall R, Scorer.calculateJobMatch R job (ar_user req) = Some 15%Z) /\
      (forall id, matchScoreOf (d_app (newApplication id job req)) = 0%Z)).
Proof.
  cbv zeta. split; [ | split; [ | split ] ].
  - apply matchScoreOf_spec.
  - intros d' w' H. unfold calculateMatchScore in H.
    apply save_returns in H. destruct H as [t ->].
    cbn [onApp d_app with_timeline with_matchScore a_matchScore].
    f_equal. apply matchScoreOf_spec.
  - intros Hnew Hmod Hvalid Hstored.
    set (a1 := with_matchScore (Some (matchScoreOf (d_app d))) (d_app d)).
    assert (Hv1 : validate a1 = None).
    { apply validate_valid. apply valid_with_matchScore; [ exact Hvalid | ].
      rewrite matchScoreOf_spec. apply specMatchScore_range. }
    exists (written a1),
           (setApplications (replaceApplication a1 (applications w)) w).
    split.
    + unfold calculateMatchScore.
      apply (save_update (onApp (with_matchScore (Some (matchScoreOf (d_app d)))) d)
                         w Hnew Hmod Hv1 Hstored).
    + cbn [written d_app applications setApplications].
      change (a_id (d_app d)) with (a_id a1).
      now apply find_replaced.
  - exists ScorerProperties.juniorJob,
           {| ar_user := ScorerProperties.blankCandidate;
              ar_jobId := Some 8%nat; ar_coverLetter := Some "Hello";
              ar_resume := None; ar_resumeIsURL := false;
              ar_answersIsArray := None |}.
    split; [ reflexivity | ]. split; [ | reflexivity ].
    intros R.
    change (Some (Math_round (Scorer.plus R (inject_Z 0) 15)) = Some 15%Z).
    f_equal. exact (ScorerProperties.Math_round_plus_Z R 0 15 ltac:(simpl; lia)).
Qed.

(** The stored application of the applicant scores 25, and
    [calculateMatchScore] stores it with that score. *)
Lemma calculateMatchScore_formula_witness :
  matchScoreOf storedApplication = 25%Z /\
  exists d' w',
    calculateMatchScore (hydrate storedApplication) appliedWorld = (Ok d', w')
    /\ a_matchScore (d_app d') = Some 25%Z
    /\ findApplication 1%nat (applications w') = Some (d_app d').
Proof.
  destruct (calculateMatchScore_formula (hydrate storedApplication)
                                        appliedWorld)
    as (Hscore & Hreturned & Hreturns & _).
  split; [ exact Hscore | ].
  destruct (Hreturns eq_refl eq_refl eq_refl eq_refl) as (d' & w' & E & F).
  exists d', w'. split; [ exact E | ]. split; [ | exact F ].
  exact (Hreturned d' w' E).
Defined.

End LifecycleProperties.

(* ------------------------------------------------------------------ *)
(** ** How a stored application evolves *)

Module Evolution.

Import JS Mongoose MongooseFacts Routes SubmissionFacts StoreFacts.
Import LifecycleFacts.
Local Open Scope string_scope.

(** The fields no handler writes once the application is stored. *)
Definition frozen (a a' : Application) : Prop :=
  a_id a' = a_id a /\ a_job a' = a_job a /\
  a_applicant a' = a_applicant a /\ a_employer a' = a_employer a /\
  a_coverLetter a' = a_coverLetter a /\ a_resume a' = a_resume a /\
  a_matchScore a' = a_matchScore a /\ a_skills a' = a_skills a /\
  a_experience a' = a_experience a /\ a_education a' = a_education a.

(** What one request makes of a stored application [a]: a valid document
    [a'] with the frozen fields of [a] and the timeline of [a] followed by
    at most two entries, each carrying the status of [a']; two entries when
    the status changed, the same status when there is no entry. *)
Definition successor (a a' : Application) : Prop :=
  frozen a a' /\ valid a' = true /\
  exists extra,
    a_timeline a' = (a_timeline a ++ extra)%list /\
    (List.length extra <= 2)%nat /\
    Forall (fun e => t_action e = a_status a') extra /\
    (a_status a' <> a_status a -> List.length extra = 2%nat) /\
    (extra = [] -> a_status a' = a_status a).

Lemma with_timeline_same (a : Application) : with_timeline (a_timeline a) a = a.
Proof. now destruct a. Qed.

Lemma restValid_with_timeline (t : list TimelineEntry) (a : Application) :
  restValid (with_timeline t a) = restValid a.
Proof. reflexivity. Qed.

(** [save] of a stored document: nothing is written, or the valid document
    is written, with the entry of the hook when the status is modified. *)
Lemma save_step (d : Doc) (w w' : World) (o : Outcome Doc) :
  d_isNew d = false -> save d w = (o, w') ->
  applications w' = applications w \/
  (valid (d_app d) = true /\
   exists extra,
     (if d_statusModified d
      then exists t, extra = [hookEntry (d_app d) t]
      else extra = []) /\
     applications w'
     = replaceApplication
         (with_timeline (a_timeline (d_app d) ++ extra) (d_app d))
         (applications w)).
Proof.
  intros Hnew. unfold save.
  destruct (validate (d_app d)) eqn:Hv; [ intros [= _ <-]; now left | ].
  apply validate_valid in Hv.
  unfold preSave, bind, newDate, ret, persist, pushTimeline, onApp.
  destruct (d_statusModified d); cbn [d_app d_isNew applications];
    rewrite Hnew;
    match goal with
    | |- context [existsb ?f ?l] => destruct (existsb f l)
    end;
    intros [= _ <-]; cbn [applications setApplications];
      try (now left);
      right; (split; [ exact Hv | ]).
  - eexists. split; [ eexists; reflexivity | reflexivity ].
  - exists []. split; [ reflexivity | ].
    now rewrite app_nil_r, with_timeline_same.
Qed.

(** [updateStatus] on a stored document whose status is not yet modified:
    nothing is written, or the document is written with the new status and
    one or two entries more, two when the status changed. *)
Lemma updateStatus_step (s : string) (by_ : ObjectId) (notes : string)
      (d : Doc) (w w' : World) (o : Outcome Doc) :
  d_isNew d = false -> d_statusModified d = false ->
  updateStatus s by_ notes d w = (o, w') ->
  applications w' = applications w \/
  exists extra,
    (1 <= List.length extra <= 2)%nat /\
    Forall (fun e => t_action e = s) extra /\
    (a_status (d_app d) <> s -> List.length extra = 2%nat) /\
    valid (with_timeline (a_timeline (d_app d) ++ extra)
                         (with_status s (d_app d))) = true /\
    applications w'
    = replaceApplication
        (with_timeline (a_timeline (d_app d) ++ extra)
                       (with_status s (d_app d)))
        (applications w).
Proof.
  intros Hnew Hmod. unfold updateStatus, bind at 1, newDate.
  intros H. apply save_step in H; [ | exact Hnew ].
  cbn [applications] in H.
  destruct H as [H | (Hvalid & extra & Hextra & H)]; [ now left | right ].
  revert Hvalid Hextra H.
  unfold pushTimeline, onApp, setStatus.
  cbn [d_app d_isNew d_statusModified a_timeline a_status with_timeline
       with_status].
  rewrite Hmod, Hnew. cbn [orb].
  set (e1 := {| t_action := s; t_date := clock w (ticks w);
                t_performedBy := Some by_; t_notes := Some notes |}).
  intros Hvalid Hextra H.
  assert (Haction : arrayIncludes timelineActionEnum s = true).
  { rewrite valid_split in Hvalid.
    apply andb_prop in Hvalid. destruct Hvalid as [_ Htl].
    cbn [a_timeline with_timeline] in Htl.
    rewrite forallb_snoc in Htl.
    apply andb_prop in Htl. now destruct Htl as [_ Htl]. }
  destruct (a_status (d_app d) =? s) eqn:Hsame; cbn [negb] in Hextra.
  - subst extra. rewrite app_nil_r in H.
    exists [e1]. split; [ cbn; lia | ]. split; [ now repeat constructor | ].
    split.
    { intros Hne. apply String.eqb_neq in Hne. congruence. }
    split; [ exact Hvalid | exact H ].
  - destruct Hextra as [t ->].
    exists [e1; hookEntry (with_status s (d_app d)) t].
    split; [ cbn; lia | ]. split; [ now repeat constructor | ].
    split; [ reflexivity | ].
    rewrite <- app_assoc in H. cbn [app] in H.
    split; [ | exact H ].
    rewrite valid_split in Hvalid |- *.
    rewrite restValid_with_timeline in Hvalid |- *.
    cbn [a_status a_timeline with_timeline with_status] in Hvalid |- *.
    apply andb_prop in Hvalid. destruct Hvalid as [Hvalid Htl].
    rewrite Hvalid. rewrite forallb_app in Htl |- *.
    apply andb_prop in Htl. destruct Htl as [Htl _]. rewrite Htl.
    cbn [forallb hookEntry t_action e1 a_status with_status].
    now rewrite Haction.
Qed.

(** What one request makes of the collection: nothing, one stored
    application replaced by a successor of itself, or one application
    added, valid, under a new [_id], for a pair that had none, with status
    [applied] and an empty timeline. *)
Definition stepped (before after : list Application) : Prop :=
  after = before \/
  (exists a a', In a before /\ successor a a' /\
                after = replaceApplication a' before) \/
  (exists a, after = (before ++ [a])%list /\
             ~ In (a_id a) (map a_id before) /\
             ~ In (pairOf a) (map pairOf before) /\
             valid a = true /\ a_status a = "applied" /\ a_timeline a = []).

Lemma updateStatus_stepped (s : string) (by_ : ObjectId) (notes : string)
      (a b : Application) (v v' : World) (o : Outcome Doc)
      (apps : list Application) :
  In a apps -> applications v = apps ->
  frozen a b -> a_timeline b = a_timeline a -> a_status b = a_status a ->
  updateStatus s by_ notes
               {| d_app := b; d_isNew := false; d_statusModified := false |} v
  = (o, v') ->
  stepped apps (applications v').
Proof.
  intros Hin Hv Hfrozen Htl Hst Hup.
  apply updateStatus_step in Hup; try reflexivity.
  cbn [d_app] in Hup. rewrite Hv in Hup.
  destruct Hup as [Hup | (extra & Hlen & Hall & Htwo & Hvalid & Hup)];
    [ now left | right; left ].
  exists a. eexists. split; [ exact Hin | ]. split; [ | exact Hup ].
  split; [ | split; [ exact Hvalid | ] ].
  - unfold frozen in *.
    cbn [with_timeline with_status a_id a_job a_applicant a_employer
         a_coverLetter a_resume a_matchScore a_skills a_experience
         a_education].
    exact Hfrozen.
  - exists extra.
    cbn [with_timeline with_status a_timeline a_status].
    rewrite Htl, <- Hst.
    split; [ reflexivity | ]. split; [ lia | ]. split; [ exact Hall | ].
    split.
    + intros Hne. apply Htwo. congruence.
    + intros ->. cbn in Hlen. lia.
Qed.

Lemma save_stepped (a b : Application) (v v' : World) (o : Outcome Doc)
      (apps : list Application) :
  In a apps -> applications v = apps ->
  frozen a b -> a_timeline b = a_timeline a -> a_status b = a_status a ->
  save {| d_app := b; d_isNew := false; d_statusModified := false |} v
  = (o, v') ->
  stepped apps (applications v').
Proof.
  intros Hin Hv Hfrozen Htl Hst Hup.
  apply save_step in Hup; try reflexivity.
  cbn [d_app d_statusModified] in Hup. rewrite Hv in Hup.
  destruct Hup as [Hup | (Hvalid & extra & -> & Hup)];
    [ now left | right; left ].
  rewrite app_nil_r, with_timeline_same in Hup.
  exists a, b. split; [ exact Hin | ]. split; [ | exact Hup ].
  split; [ exact Hfrozen | ]. split; [ exact Hvalid | ].
  exists []. rewrite app_nil_r.
  split; [ exact Htl | ]. split; [ cbn; lia | ]. split; [ constructor | ].
  split; [ intros Hne; congruence | intros _; exact Hst ].
Qed.

Lemma frozen_refl (a : Application) : frozen a a.
Proof. repeat split. Qed.

(** Runs a handler down to its write and closes the goal with
    [updateStatus_stepped] or [save_stepped]. *)
Ltac down_to_write a Hin :=
  repeat match goal with
         | |- context [if ?c then _ else _] =>
             destruct c; [ intros [= _ <-]; now left | ]
         end;
  unfold bind at 1;
  try (unfold newDate at 1; unfold bind at 1);
  match goal with
  | |- context [updateStatus ?s ?u ?n ?d ?v] =>
      let o := fresh "o" in
      let v' := fresh "v" in
      let Hup := fresh "Hup" in
      destruct (updateStatus s u n d v) as [o v'] eqn:Hup;
      apply (updateStatus_stepped s u n a _ v v' o _ Hin eq_refl) in Hup;
      [ destruct o; unfold bind, findById, ret; intros [= _ <-]; exact Hup
      | repeat split | reflexivity | reflexivity ]
  | |- context [save ?d ?v] =>
      let o := fresh "o" in
      let v' := fresh "v" in
      let Hup := fresh "Hup" in
      destruct (save d v) as [o v'] eqn:Hup;
      apply (save_stepped a _ v v' o _ Hin eq_refl) in Hup;
      [ destruct o; unfold bind, findById, ret; intros [= _ <-]; exact Hup
      | repeat split | reflexivity | reflexivity ]
  end.

Lemma putStatus_stepped (req : StatusRequest) (w : World) :
  stepped (applications w) (applications (snd (putStatus req w))).
Proof.
  destruct (putStatus req w) as [r w'] eqn:H. cbn [snd]. revert H.
  unfold putStatus, tryCatch.
  destruct (statusErrors req); [ | intros [= _ <-]; now left ].
  destruct (sr_status req); [ | intros [= _ <-]; now left ].
  unfold bind at 1, findById at 1.
  destruct (findApplication (sr_id req) (applications w)) as [a | ] eqn:Hfind;
    cbn [option_map]; [ | intros [= _ <-]; now left ].
  destruct (findApplication_in _ _ _ Hfind) as [Hin _].
  cbn [hydrate d_app].
  down_to_write a Hin.
Qed.

Lemma scheduleInterview_stepped (req : InterviewRequest) (w : World) :
  stepped (applications w) (applications (snd (scheduleInterview req w))).
Proof.
  destruct (scheduleInterview req w) as [r w'] eqn:H. cbn [snd]. revert H.
  unfold scheduleInterview, tryCatch.
  destruct (vr_errors req); [ | intros [= _ <-]; now left ].
  unfold bind at 1, findById at 1.
  destruct (findApplication (vr_id req) (applications w)) as [a | ] eqn:Hfind;
    cbn [option_map]; [ | intros [= _ <-]; now left ].
  destruct (findApplication_in _ _ _ Hfind) as [Hin _].
  cbn [hydrate d_app].
  down_to_write a Hin.
Qed.

Lemma evaluate_stepped (req : EvaluateRequest) (w : World) :
  stepped (applications w) (applications (snd (evaluate req w))).
Proof.
  destruct (evaluate req w) as [r w'] eqn:H. cbn [snd]. revert H.
  unfold evaluate, tryCatch.
  destruct (er_errors req); [ | intros [= _ <-]; now left ].
  unfold bind at 1, findById at 1.
  destruct (findApplication (er_id req) (applications w)) as [a | ] eqn:Hfind;
    cbn [option_map]; [ | intros [= _ <-]; now left ].
  destruct (findApplication_in _ _ _ Hfind) as [Hin _].
  cbn [hydrate d_app].
  down_to_write a Hin.
Qed.

Lemma makeOffer_stepped (req : OfferRequest) (w : World) :
  stepped (applications w) (applications (snd (makeOffer req w))).
Proof.
  destruct (makeOffer req w) as [r w'] eqn:H. cbn [snd]. revert H.
  unfold makeOffer, tryCatch.
  destruct (or_errors req); [ | intros [= _ <-]; now left ].
  unfold bind at 1, findById at 1.
  destruct (findApplication (or_id req) (applications w)) as [a | ] eqn:Hfind;
    cbn [option_map]; [ | intros [= _ <-]; now left ].
  destruct (findApplication_in _ _ _ Hfind) as [Hin _].
  cbn [hydrate d_app].
  down_to_write a Hin.
Qed.

Lemma acceptOffer_stepped (req : IdRequest) (w : World) :
  stepped (applications w) (applications (snd (acceptOffer req w))).
Proof.
  destruct (acceptOffer req w) as [r w'] eqn:H. cbn [snd]. revert H.
  unfold acceptOffer, tryCatch.
  unfold bind at 1, findById at 1.
  destruct (findApplication (ir_id req) (applications w)) as [a | ] eqn:Hfind;
    cbn [option_map]; [ | intros [= _ <-]; now left ].
  destruct (findApplication_in _ _ _ Hfind) as [Hin _].
  cbn [hydrate d_app].
  down_to_write a Hin.
Qed.

Lemma withdraw_stepped (req : IdRequest) (w : World) :
  stepped (applications w) (applications (snd (withdraw req w))).
Proof.
  destruct (withdraw req w) as [r w'] eqn:H. cbn [snd]. revert H.
  unfold withdraw, tryCatch.
  unfold bind at 1, findById at 1.
  destruct (findApplication (ir_id req) (applications w)) as [a | ] eqn:Hfind;
    cbn [option_map]; [ | intros [= _ <-]; now left ].
  destruct (findApplication_in _ _ _ Hfind) as [Hin _].
  cbn [hydrate d_app].
  down_to_write a Hin.
Qed.

Lemma submitted_valid (w : World) (job : Job) (req : ApplyRequest) :
  applyErrors req = [] -> valid (submitted w job req) = true.
Proof.
  intros Herr. destruct (applyErrors_nil req Herr) as [Hcl Hlen].
  unfold submitted. apply valid_with_matchScore.
  - unfold valid, checks, newApplication.
    cbn [d_app a_status a_coverLetter a_matchScore a_interview a_evaluation
         a_timeline forallb snd].
    rewrite Hcl. rewrite Nat.ltb_antisym in Hlen.
    apply negb_false_iff in Hlen. rewrite Hlen. reflexivity.
  - rewrite matchScoreOf_spec. apply specMatchScore_range.
Qed.

Lemma postApplication_stepped (req : ApplyRequest) (w : World) :
  stepped (applications w) (applications (snd (postApplication req w))).
Proof.
  destruct (applyErrors req) as [ | e errs] eqn:Herr.
  2:{ left. rewrite postApplication_invalid; [ reflexivity | ].
      rewrite Herr. discriminate. }
  destruct (ar_jobId req) as [jobId | ] eqn:Hid.
  2:{ left. unfold postApplication, tryCatch. rewrite Herr, Hid. reflexivity. }
  destruct (findJob jobId (jobs w)) as [job | ] eqn:Hjob.
  2:{ left. now rewrite (postApplication_job_missing req w jobId). }
  destruct (negb (j_status job =? "active") || negb (j_approved job))
    eqn:Hopen.
  { left. now rewrite (postApplication_job_closed req w jobId job). }
  destruct (existsb (samePair jobId (u_id (ar_user req))) (applications w))
    eqn:Hdup.
  { left. now rewrite (postApplication_duplicate req w jobId job). }
  right; right. exists (submitted w job req).
  apply orb_false_elim in Hopen. destruct Hopen as [Hact Happ].
  apply negb_false_iff in Hact, Happ. apply String.eqb_eq in Hact.
  rewrite (postApplication_accepts w req jobId job Herr Hid Hjob Hact Happ Hdup).
  split; [ reflexivity | ]. split; [ | split ].
  - intros Hin. apply in_map_iff in Hin. destruct Hin as (b & Hb & Hin).
    pose proof (freshId_fresh (applications w) b Hin) as Hfresh.
    apply Nat.eqb_neq in Hfresh. apply Hfresh. exact Hb.
  - intros Hin. apply in_map_iff in Hin. destruct Hin as (b & Hb & Hin).
    assert (Hsame : samePair jobId (u_id (ar_user req)) b = true).
    { unfold pairOf in Hb. injection Hb as Hj Ha.
      unfold samePair. rewrite Hj, Ha.
      change (a_job (submitted w job req)) with (j_id job).
      change (a_applicant (submitted w job req)) with (u_id (ar_user req)).
      rewrite (findJob_id _ _ _ Hjob). now rewrite !Nat.eqb_refl. }
    apply find_none_iff in Hdup.
    rewrite (find_none _ _ Hdup b Hin) in Hsame. discriminate.
  - split; [ now apply submitted_valid | now split ].
Qed.

(** Every request steps the collection. *)
Lemma handle_stepped (req : Request) (w : World) :
  stepped (applications w) (applications (snd (handle req w))).
Proof.
  destruct req as [r | r | r | r | r | r | r]; cbn [handle].
  - apply postApplication_stepped.
  - apply putStatus_stepped.
  - apply scheduleInterview_stepped.
  - apply evaluate_stepped.
  - apply makeOffer_stepped.
  - apply acceptOffer_stepped.
  - apply withdraw_stepped.
Qed.

End Evolution.

(* ------------------------------------------------------------------ *)
(** ** Invariants of the collection of applications *)

Module LifecycleInvariants.

Import JS Mongoose MongooseFacts Routes SubmissionFacts StoreFacts.
Import LifecycleFacts Evolution.
Import LifecycleProperties.
Local Open Scope string_scope.

Lemma map_id_replace (a' : Application) (apps : list Application) :
  map a_id (replaceApplication a' apps) = map a_id apps.
Proof.
  unfold replaceApplication. rewrite map_map. apply map_ext.
  intros b. destruct (a_id b =? a_id a')%nat eqn:E; [ | reflexivity ].
  apply Nat.eqb_eq in E. now symmetry.
Qed.

Lemma in_replace (a' b : Application) (apps : list Application) :
  In b apps ->
  In (if (a_id b =? a_id a')%nat then a' else b) (replaceApplication a' apps).
Proof.
  intros H. unfold replaceApplication.
  exact (in_map (fun b => if (a_id b =? a_id a')%nat then a' else b) apps b H).
Qed.

Lemma frozen_trans (a b c : Application) :
  frozen a b -> frozen b c -> frozen a c.
Proof.
  unfold frozen. intros H1 H2.
  repeat match goal with
         | H : _ /\ _ |- _ => destruct H
         end.
  repeat split; congruence.
Qed.

(** One request leaves a stored application as it is or stores a successor
    of it. *)
Lemma handle_successor (req : Request) (w : World) (a : Application) :
  wellFormed w -> In a (applications w) ->
  exists a', In a' (applications (snd (handle req w))) /\
             (a' = a \/ successor a a').
Proof.
  intros [Hids _] Hin.
  destruct (handle_stepped req w)
    as [-> | [(b & b' & Hb & Hsucc & ->) | (n & -> & _)]].
  - exists a. split; [ exact Hin | now left ].
  - pose proof (in_replace b' a (applications w) Hin) as Hrep.
    destruct (a_id a =? a_id b')%nat eqn:E.
    + exists b'. split; [ exact Hrep | right ].
      apply Nat.eqb_eq in E.
      assert (a = b).
      { apply (NoDup_map_eq a_id (applications w)); trivial.
        destruct Hsucc as [(Hid & _) _]. congruence. }
      now subst b.
    + exists a. split; [ exact Hrep | now left ].
  - exists a. split; [ apply in_or_app; now left | now left ].
Qed.

(** X1: whatever requests are served, a stored application keeps its
    [_id], job, applicant, employer, cover letter, resume, match score and
    snapshots, and its timeline only grows at the end, by at most two
    entries per request. *)
Theorem timeline_is_append_only (reqs : list Request) (w : World)
        (a : Application) :
  wellFormed w -> In a (applications w) ->
  exists a' extra,
    In a' (applications (serve reqs w)) /\
    frozen a a' /\
    a_timeline a' = (a_timeline a ++ extra)%list /\
    (List.length extra <= 2 * List.length reqs)%nat.
Proof.
  revert w a. induction reqs as [ | req reqs IH]; intros w a Hw Hin.
  - exists a, []. cbn [serve List.length].
    split; [ exact Hin | ]. split; [ apply frozen_refl | ].
    split; [ now rewrite app_nil_r | lia ].
  - cbn [serve].
    destruct (handle_successor req w a Hw Hin) as (b & Hb & Hstep).
    destruct (IH (snd (handle req w)) b (handle_wellFormed req w Hw) Hb)
      as (c & more & Hc & Hfrozen & Htl & Hlen).
    destruct Hstep as [-> | (Hf & _ & extra & Hextra & Hle & _)].
    + exists c, more. split; [ exact Hc | ]. split; [ exact Hfrozen | ].
      split; [ exact Htl | ]. cbn [List.length]. lia.
    + exists c, (extra ++ more)%list.
      split; [ exact Hc | ].
      split; [ exact (frozen_trans a b c Hf Hfrozen) | ].
      split; [ now rewrite Htl, Hextra, app_assoc | ].
      rewrite length_app. cbn [List.length]. lia.
Qed.

(** A history of the portal: the applicant applies, the employer
    shortlists, makes an offer, and the applicant accepts it. *)
Definition history : list Request :=
  [ PostApplication submission;
    PutStatus shortlistRequest;
    PutStatus {| sr_user := employerUser; sr_id := 1%nat;
                 sr_status := Some "offered"; sr_notes := None |};
    AcceptOffer acceptRequest ].

(** The timeline of the stored application is kept through a shortlisting,
    an offer and its acceptance. *)
Lemma timeline_is_append_only_witness :
  exists a' extra,
    In a' (applications (serve (tl history) appliedWorld)) /\
    frozen storedApplication a' /\
    a_timeline a' = (a_timeline storedApplication ++ extra)%list /\
    (List.length extra <= 2 * 3)%nat.
Proof.
  exact (timeline_is_append_only (tl history) appliedWorld storedApplication
           appliedWorld_wellFormed (or_introl eq_refl)).
Defined.

(** X2: no request changes the status of a stored application without
    logging it: when the status after the request differs, the timeline has
    gained exactly two entries and both carry the new status; in any case
    the old timeline is kept in front. *)
Theorem status_changes_are_logged (req : Request) (w : World)
        (a : Application) :
  wellFormed w -> In a (applications w) ->
  exists a' extra,
    In a' (applications (snd (handle req w))) /\
    a_id a' = a_id a /\
    a_timeline a' = (a_timeline a ++ extra)%list /\
    Forall (fun e => t_action e = a_status a') extra /\
    (a_status a' <> a_status a -> List.length extra = 2%nat).
Proof.
  intros Hw Hin.
  destruct (handle_successor req w a Hw Hin) as (a' & Ha' & [-> | Hsucc]).
  - exists a, []. split; [ exact Ha' | ]. split; [ reflexivity | ].
    split; [ now rewrite app_nil_r | ]. split; [ constructor | congruence ].
  - destruct Hsucc as ((Hid & _) & _ & extra & Htl & _ & Hall & Htwo & _).
    exists a', extra. repeat split; trivial.
Qed.

(** The shortlisting of the stored application is logged. *)
Lemma status_changes_are_logged_witness :
  exists a' extra,
    In a' (applications (snd (handle (PutStatus shortlistRequest)
                                     appliedWorld))) /\
    a_id a' = 1%nat /\
    a_timeline a' = (a_timeline storedApplication ++ extra)%list /\
    Forall (fun e => t_action e = a_status a') extra /\
    (a_status a' <> "applied" -> List.length extra = 2%nat).
Proof.
  exact (status_changes_are_logged (PutStatus shortlistRequest) appliedWorld
           storedApplication appliedWorld_wellFormed (or_introl eq_refl)).
Defined.

Lemma stepped_valid (before after : list Application) :
  stepped before after ->
  Forall (fun a => valid a = true) before ->
  Forall (fun a => valid a = true) after.
Proof.
  intros [-> | [(b & b' & _ & (_ & Hvalid & _) & ->)
               | (n & -> & _ & _ & Hvalid & _)]] Hall; trivial.
  - unfold replaceApplication. rewrite Forall_map.
    rewrite Forall_forall in Hall |- *. intros x Hx.
    destruct (a_id x =? a_id b')%nat; [ exact Hvalid | now apply Hall ].
  - apply Forall_app. split; [ exact Hall | now constructor ].
Qed.

(** X3: the collection stays valid: when every stored application passes
    the validation of the schema, so does every stored application after
    any requests, although the entry of the hook is pushed after the
    validation of [save]. *)
Theorem stored_applications_stay_valid (reqs : list Request) (w : World) :
  Forall (fun a => valid a = true) (applications w) ->
  Forall (fun a => validate a = None) (applications (serve reqs w)).
Proof.
  intros H.
  assert (Hall : Forall (fun a => valid a = true) (applications (serve reqs w))).
  { revert w H. induction reqs as [ | req reqs IH]; intros w H; cbn [serve].
    - exact H.
    - apply IH. exact (stepped_valid _ _ (handle_stepped req w) H). }
  rewrite Forall_forall in Hall |- *. intros a Ha.
  apply validate_valid. now apply Hall.
Qed.

(** The stored application is valid, and so is what the history makes of
    it. *)
Lemma stored_applications_stay_valid_witness :
  Forall (fun a => validate a = None)
         (applications (serve (tl history) appliedWorld)).
Proof.
  exact (stored_applications_stay_valid (tl history) appliedWorld
           (Forall_cons storedApplication eq_refl (Forall_nil _))).
Defined.

Lemma successor_status (a a' : Application) :
  successor a a' ->
  a_status a' = a_status a \/
  arrayIncludes timelineActionEnum (a_status a') = true.
Proof.
  intros (_ & Hvalid & extra & Htl & _ & Hall & _ & Hnone).
  destruct extra as [ | e extra]; [ left; now apply Hnone | right ].
  rewrite valid_split in Hvalid.
  apply andb_prop in Hvalid. destruct Hvalid as [_ Hentries].
  rewrite Htl, forallb_app in Hentries.
  apply andb_prop in Hentries. destruct Hentries as [_ Hentries].
  cbn [forallb] in Hentries.
  apply andb_prop in Hentries. destruct Hentries as [He _].
  apply Forall_inv in Hall. now rewrite Hall in He.
Qed.

(** X4: no handler ever stores the status [reviewing]: in a collection
    without an application under review there is none after any requests,
    although [reviewing] is a legal status. *)
Theorem reviewing_is_never_stored (reqs : list Request) (w : World) :
  Forall (fun a => a_status a <> "reviewing") (applications w) ->
  arrayIncludes statusEnum "reviewing" = true /\
  Forall (fun a => a_status a <> "reviewing") (applications (serve reqs w)).
Proof.
  intros H. split; [ reflexivity | ].
  revert w H. induction reqs as [ | req reqs IH]; intros w H; cbn [serve].
  - exact H.
  - apply IH.
    destruct (handle_stepped req w)
      as [-> | [(b & b' & Hb & Hsucc & ->) | (n & -> & _ & _ & _ & Hst & _)]].
    + exact H.
    + unfold replaceApplication. rewrite Forall_map.
      rewrite Forall_forall in H |- *. intros x Hx.
      destruct (a_id x =? a_id b')%nat; [ | now apply H ].
      destruct (successor_status b b' Hsucc) as [-> | Hin].
      * now apply H.
      * intros E. rewrite E in Hin. discriminate.
    + apply Forall_app. split; [ exact H | ].
      constructor; [ | constructor ]. rewrite Hst. discriminate.
Qed.

(** The history never puts the stored application under review. *)
Lemma reviewing_is_never_stored_witness :
  arrayIncludes statusEnum "reviewing" = true /\
  Forall (fun a => a_status a <> "reviewing")
         (applications (serve (tl history) appliedWorld)).
Proof.
  apply (reviewing_is_never_stored (tl history) appliedWorld).
  constructor; [ discriminate | constructor ].
Defined.

Lemma stepped_ids (before after : list Application) :
  stepped before after ->
  exists more, map a_id after = (map a_id before ++ more)%list /\
               (List.length more <= 1)%nat.
Proof.
  intros [-> | [(b & b' & _ & _ & ->) | (n & -> & _)]].
  - exists []. split; [ now rewrite app_nil_r | cbn; lia ].
  - exists []. rewrite map_id_replace.
    split; [ now rewrite app_nil_r | cbn; lia ].
  - exists [a_id n]. rewrite map_app. split; [ reflexivity | cbn; lia ].
Qed.

(** X5: no request deletes an application or changes an [_id]: the ids of
    the collection are kept, in their order, and at most one is added per
    request. *)
Theorem applications_are_never_deleted (reqs : list Request) (w : World) :
  exists more,
    map a_id (applications (serve reqs w))
    = (map a_id (applications w) ++ more)%list /\
    (List.length more <= List.length reqs)%nat.
Proof.
  revert w. induction reqs as [ | req reqs IH]; intros w; cbn [serve].
  - exists []. split; [ now rewrite app_nil_r | cbn; lia ].
  - destruct (IH (snd (handle req w))) as (more & E & Hlen).
    destruct (stepped_ids _ _ (handle_stepped req w)) as (one & E1 & Hone).
    exists (one ++ more)%list. rewrite E, E1, app_assoc.
    split; [ reflexivity | ]. rewrite length_app. cbn [List.length]. lia.
Qed.

(** *** The counter of a job *)

(** [applicationCount] of the stored job [id], 0 when there is none. *)
Definition counterOf (id : ObjectId) (w : World) : Z :=
  match findJob id (jobs w) with
  | Some j => j_applicationCount j
  | None => 0%Z
  end.

(** The number of stored applications for the job [id]. *)
Definition receivedBy (id : ObjectId) (w : World) : Z :=
  Z.of_nat (count_occ Nat.eq_dec (map a_job (applications w)) id).

Lemma save_jobs (d : Doc) (w w' : World) (o : Outcome Doc) :
  save d w = (o, w') -> jobs w' = jobs w.
Proof.
  unfold save, throw.
  destruct (validate (d_app d)); [ now intros [= _ <-] | ].
  unfold preSave, bind, newDate, ret, persist, pushTimeline, onApp.
  destruct (d_statusModified d), (d_isNew d) eqn:Hnew;
    cbn [d_app d_isNew applications]; rewrite ?Hnew;
    match goal with
    | |- context [existsb ?f ?l] => destruct (existsb f l)
    end;
    now intros [= _ <-].
Qed.

Lemma updateStatus_jobs (s : string) (by_ : ObjectId) (notes : string)
      (d : Doc) (w w' : World) (o : Outcome Doc) :
  updateStatus s by_ notes d w = (o, w') -> jobs w' = jobs w.
Proof.
  unfold updateStatus, bind at 1, newDate. intros H.
  now apply save_jobs in H.
Qed.

(** Runs a handler down to its write and closes the goal with
    [updateStatus_jobs] or [save_jobs]. *)
Ltac jobs_untouched :=
  repeat match goal with
         | |- context [if ?c then _ else _] =>
             destruct c; [ now intros [= _ <-] | ]
         end;
  unfold bind at 1;
  try (unfold newDate at 1; unfold bind at 1);
  match goal with
  | |- context [updateStatus ?s ?u ?n ?d ?v] =>
      let o := fresh "o" in
      let v' := fresh "v" in
      let Hup := fresh "Hup" in
      destruct (updateStatus s u n d v) as [o v'] eqn:Hup;
      apply updateStatus_jobs in Hup;
      destruct o; unfold bind, findById, ret; intros [= _ <-]; exact Hup
  | |- context [save ?d ?v] =>
      let o := fresh "o" in
      let v' := fresh "v" in
      let Hup := fresh "Hup" in
      destruct (save d v) as [o v'] eqn:Hup;
      apply save_jobs in Hup;
      destruct o; unfold bind, findById, ret; intros [= _ <-]; exact Hup
  end.

(** Only a submission writes to the collection of jobs. *)
Lemma handle_jobs (req : Request) (w : World) :
  match req with
  | PostApplication _ => True
  | _ => jobs (snd (handle req w)) = jobs w
  end.
Proof.
  destruct req as [r | r | r | r | r | r | r]; cbn [handle]; trivial;
    match goal with
    | |- jobs (snd (?h r w)) = _ =>
        let res := fresh "res" in
        let w' := fresh "w" in
        let H := fresh "H" in
        destruct (h r w) as [res w'] eqn:H; cbn [snd]; revert H
    end.
  - unfold putStatus, tryCatch.
    destruct (statusErrors r); [ | now intros [= _ <-] ].
    destruct (sr_status r); [ | now intros [= _ <-] ].
    unfold bind at 1, findById at 1.
    destruct (findApplication (sr_id r) (applications w));
      cbn [option_map]; [ | now intros [= _ <-] ].
    jobs_untouched.
  - unfold scheduleInterview, tryCatch.
    destruct (vr_errors r); [ | now intros [= _ <-] ].
    unfold bind at 1, findById at 1.
    destruct (findApplication (vr_id r) (applications w));
      cbn [option_map]; [ | now intros [= _ <-] ].
    jobs_untouched.
  - unfold evaluate, tryCatch.
    destruct (er_errors r); [ | now intros [= _ <-] ].
    unfold bind at 1, findById at 1.
    destruct (findApplication (er_id r) (applications w));
      cbn [option_map]; [ | now intros [= _ <-] ].
    jobs_untouched.
  - unfold makeOffer, tryCatch.
    destruct (or_errors r); [ | now intros [= _ <-] ].
    unfold bind at 1, findById at 1.
    destruct (findApplication (or_id r) (applications w));
      cbn [option_map]; [ | now intros [= _ <-] ].
    jobs_untouched.
  - unfold acceptOffer, tryCatch.
    unfold bind at 1, findById at 1.
    destruct (findApplication (ir_id r) (applications w));
      cbn [option_map]; [ | now intros [= _ <-] ].
    jobs_untouched.
  - unfold withdraw, tryCatch.
    unfold bind at 1, findById at 1.
    destruct (findApplication (ir_id r) (applications w));
      cbn [option_map]; [ | now intros [= _ <-] ].
    jobs_untouched.
Qed.

Lemma findJob_map (f : Job -> Job) (id : ObjectId) (js : list Job) :
  (forall j, j_id (f j) = j_id j) ->
  findJob id (map f js) = option_map f (findJob id js).
Proof.
  intros Hf. unfold findJob.
  induction js as [ | j js IH]; cbn [map find option_map]; [ reflexivity | ].
  rewrite Hf. destruct (j_id j =? id)%nat; [ reflexivity | exact IH ].
Qed.

Lemma rewritten_jobs_of (before after : list Application) :
  NoDup (map a_id before) -> rewritten before after ->
  map a_job after = map a_job before.
Proof.
  intros Hnd Hrw. destruct (rewritten_keys _ _ Hnd Hrw) as [_ E].
  apply (f_equal (map fst)) in E. rewrite !map_map in E. exact E.
Qed.

(** The effect of one request on the counter of a job and on the number of
    applications the job has received. *)
Lemma handle_counter (req : Request) (w : World) (id : ObjectId) :
  wellFormed w ->
  (counterOf id (snd (handle req w)) - receivedBy id (snd (handle req w))
   = counterOf id w - receivedBy id w)%Z.
Proof.
  intros Hw. pose proof (handle_jobs req w) as Hjobs.
  assert (Hsame : forall w',
             jobs w' = jobs w ->
             rewritten (applications w) (applications w') ->
             (counterOf id w' - receivedBy id w'
              = counterOf id w - receivedBy id w)%Z).
  { intros w' Hj Hrw. unfold counterOf, receivedBy.
    now rewrite Hj, (rewritten_jobs_of _ _ (proj1 Hw) Hrw). }
  destruct req as [r | r | r | r | r | r | r]; cbn [handle] in *.
  2:{ apply Hsame; [ exact Hjobs | apply putStatus_rewrites ]. }
  2:{ apply Hsame; [ exact Hjobs | apply scheduleInterview_rewrites ]. }
  2:{ apply Hsame; [ exact Hjobs | apply evaluate_rewrites ]. }
  2:{ apply Hsame; [ exact Hjobs | apply makeOffer_rewrites ]. }
  2:{ apply Hsame; [ exact Hjobs | apply acceptOffer_rewrites ]. }
  2:{ apply Hsame; [ exact Hjobs | apply withdraw_rewrites ]. }
  clear Hjobs Hsame.
  destruct (applyErrors r) as [ | e errs] eqn:Herr.
  2:{ rewrite postApplication_invalid; [ reflexivity | ].
      rewrite Herr. discriminate. }
  destruct (ar_jobId r) as [jobId | ] eqn:Hid.
  2:{ unfold postApplication, tryCatch. rewrite Herr, Hid. reflexivity. }
  destruct (findJob jobId (jobs w)) as [job | ] eqn:Hjob.
  2:{ now rewrite (postApplication_job_missing r w jobId). }
  destruct (negb (j_status job =? "active") || negb (j_approved job))
    eqn:Hopen.
  { now rewrite (postApplication_job_closed r w jobId job). }
  destruct (existsb (samePair jobId (u_id (ar_user r))) (applications w))
    eqn:Hdup.
  { now rewrite (postApplication_duplicate r w jobId job). }
  apply orb_false_elim in Hopen. destruct Hopen as [Hact Happ].
  apply negb_false_iff in Hact, Happ. apply String.eqb_eq in Hact.
  rewrite (postApplication_accepts w r jobId job Herr Hid Hjob Hact Happ Hdup).
  pose proof (findJob_id _ _ _ Hjob) as Hjid.
  unfold counterOf, receivedBy, counted, incrementApplications.
  cbn [snd jobs applications setJobs setApplications].
  rewrite findJob_map.
  2:{ intros j. destruct (j_id j =? j_id job)%nat eqn:E; [ | reflexivity ].
      apply Nat.eqb_eq in E. now symmetry. }
  rewrite map_app, count_occ_app. cbn [map count_occ].
  change (a_job (submitted w job r)) with (j_id job). rewrite Hjid.
  unfold ObjectId in *.
  destruct (Nat.eq_dec jobId id) as [-> | Hne].
  - rewrite Hjob. cbn [option_map]. rewrite Hjid, Nat.eqb_refl.
    cbn [j_applicationCount]. lia.
  - destruct (findJob id (jobs w)) as [j | ] eqn:Hj; cbn [option_map].
    + pose proof (findJob_id _ _ _ Hj) as Hjd.
      assert (E : (j_id j =? j_id job)%nat = false).
      { apply Nat.eqb_neq. congruence. }
      rewrite Hjid in E. cbv beta. rewrite E. lia.
    + lia.
Qed.

(** X6: under the seven handlers of [routes/applications.js] the counter
    of a job moves with the applications the job has received: whatever
    requests to these handlers are served, the difference between the
    [applicationCount] of a job and the number of stored applications for
    it stays what it was.  The routes of [routes/jobs.js] that edit or
    delete a job are not among the requests of the statement. *)
Theorem counter_tracks_applications (reqs : list Request) (w : World)
        (id : ObjectId) :
  wellFormed w ->
  (counterOf id (serve reqs w) - receivedBy id (serve reqs w)
   = counterOf id w - receivedBy id w)%Z.
Proof.
  revert w. induction reqs as [ | req reqs IH]; intros w Hw; cbn [serve].
  - reflexivity.
  - rewrite (IH _ (handle_wellFormed req w Hw)).
    now apply handle_counter.
Qed.

(** Job 7 has counted every application it has received, before and after
    the history. *)
Lemma counter_tracks_applications_witness :
  (counterOf 7%nat (serve history (portal [] [postedJob "active" 0]))
   - receivedBy 7%nat (serve history (portal [] [postedJob "active" 0]))
   = 0)%Z.
Proof.
  apply (counter_tracks_applications history
           (portal [] [postedJob "active" 0]) 7%nat).
  split; constructor.
Defined.

End LifecycleInvariants.

(* ------------------------------------------------------------------ *)
(** ** The handlers, outcome by outcome *)

Module HandlerProperties.

Import JS Mongoose MongooseFacts Routes SubmissionFacts StoreFacts.
Import LifecycleFacts Evolution.
Import LifecycleProperties LifecycleInvariants.
Local Open Scope string_scope.

Lemma valid_with_offer (o : Offer) (a : Application) :
  valid (with_offer o a) = valid a.
Proof. reflexivity. Qed.

Lemma find_after_update (a a' : Application) (id : ObjectId)
      (apps : list Application) :
  findApplication id apps = Some a -> a_id a' = a_id a ->
  findApplication id (replaceApplication a' apps) = Some a'.
Proof.
  intros Hfind Hid.
  destruct (findApplication_in _ _ _ Hfind) as [_ <-].
  rewrite <- Hid. apply find_replaced. rewrite Hid.
  exact (existsb_found _ _ _ Hfind).
Qed.

(** A legal status other than [reviewing] is a timeline action. *)
Lemma legal_status_is_action (s : string) :
  arrayIncludes statusEnum s = true -> s <> "reviewing" ->
  arrayIncludes timelineActionEnum s = true.
Proof.
  unfold arrayIncludes, statusEnum, timelineActionEnum. cbn [existsb].
  intros H Hne. apply String.eqb_neq in Hne. rewrite Hne in H.
  cbn [orb] in H.
  repeat match goal with
         | H : (?x =? ?y) || _ = true |- _ =>
             destruct (x =? y) eqn:?; cbn [orb] in H |- *;
             [ now rewrite ?orb_true_r | ]
         end.
  discriminate.
Qed.

(** X7: PUT status, for an application that is found and valid and a
    caller who is its employer or an admin: a status outside the enum is
    answered 400; [reviewing] is answered 500; each of the other eight
    statuses is stored, with the entries of the transition.  Nothing is
    stored in the first two cases. *)
Theorem putStatus_outcome (req : StatusRequest) (w : World)
        (a : Application) :
  findApplication (sr_id req) (applications w) = Some a ->
  valid a = true ->
  a_employer a = u_id (sr_user req) \/ u_role (sr_user req) = "admin" ->
  match sr_status req with
  | None =>
      putStatus req w
      = ({| r_status := 400; r_body := Errors ["Invalid value"] |}, w)
  | Some s =>
      if negb (arrayIncludes statusEnum s)
      then putStatus req w
           = ({| r_status := 400; r_body := Errors ["Invalid value"] |}, w)
      else if s =? "reviewing"
      then putStatus req w = (respond 500 "Server error", tick w)
      else
        let notes := match sr_notes req with Some n => trim n | None => "" end in
        let a' := updated s (u_id (sr_user req)) notes a
                          (clock w (ticks w)) (clock w (S (ticks w))) in
        fst (putStatus req w)
        = {| r_status := 200;
             r_body := WithApplication
                         "Application status updated successfully"
                         (Some a') |} /\
        applications (snd (putStatus req w))
        = replaceApplication a' (applications w)
  end.
Proof.
  intros Hfind Hvalid Hauth.
  destruct (sr_status req) as [s | ] eqn:Hs.
  2:{ apply putStatus_illegal. now rewrite Hs. }
  destruct (arrayIncludes statusEnum s) eqn:Hlegal; cbn [negb].
  2:{ apply putStatus_illegal. now rewrite Hs. }
  destruct (s =? "reviewing") eqn:Hrev.
  - apply String.eqb_eq in Hrev. subst s.
    unfold putStatus, tryCatch, statusErrors. rewrite Hs.
    change (arrayIncludes statusEnum "reviewing") with true. cbv iota.
    unfold bind at 1, findById at 1. rewrite Hfind.
    cbn [option_map hydrate d_app].
    assert (Hguard : negb (a_employer a =? u_id (sr_user req))%nat
                     && negb (u_role (sr_user req) =? "admin") = false).
    { destruct Hauth as [-> | ->];
        [ now rewrite Nat.eqb_refl | now rewrite andb_false_r ]. }
    rewrite Hguard.
    match goal with
    | |- context [bind (updateStatus ?s ?u ?n ?d) ?k ?v] =>
        destruct (updateStatus_rejects s u n d v eq_refl) as [path Hrej];
        rewrite (bind_throw (updateStatus s u n d) k v _ _ Hrej)
    end.
    reflexivity.
  - apply String.eqb_neq in Hrev.
    pose proof (legal_status_is_action s Hlegal Hrev) as Haction.
    rewrite (putStatus_accepts req w s a Hs Hlegal Haction Hfind Hvalid Hauth).
    split; reflexivity.
Qed.

(** The employer rejects the stored application. *)
Lemma putStatus_outcome_witness :
  fst (putStatus {| sr_user := employerUser; sr_id := 1%nat;
                    sr_status := Some "rejected";
                    sr_notes := Some " no match " |} appliedWorld)
  = {| r_status := 200;
       r_body := WithApplication "Application status updated successfully"
                   (Some (updated "rejected" 2%nat "no match"
                                  storedApplication 1000%Z 1001%Z)) |} /\
  applications (snd (putStatus {| sr_user := employerUser; sr_id := 1%nat;
                                  sr_status := Some "rejected";
                                  sr_notes := Some " no match " |}
                               appliedWorld))
  = [updated "rejected" 2%nat "no match" storedApplication 1000%Z 1001%Z].
Proof.
  exact (putStatus_outcome {| sr_user := employerUser; sr_id := 1%nat;
                              sr_status := Some "rejected";
                              sr_notes := Some " no match " |}
                           appliedWorld storedApplication
                           eq_refl eq_refl (or_introl eq_refl)).
Defined.

(** The world once [updateStatus] has stored [a'] in place of a document
    whose status was [old]. *)
Definition afterUpdate (old s : string) (a' : Application) (w : World)
  : World :=
  setApplications (replaceApplication a' (applications w))
                  (if old =? s then tick w else tick (tick w)).

(** The tail of the handlers that call [updateStatus]: the version [b] of
    a stored document is stored with the new status and its entries, and
    read back for the answer. *)
Lemma write_and_answer (s : string) (by_ : ObjectId) (notes message : string)
      (a b : Application) (id : ObjectId) (v : World) :
  findApplication id (applications v) = Some a ->
  a_id b = a_id a -> valid b = true ->
  arrayIncludes statusEnum s = true ->
  arrayIncludes timelineActionEnum s = true ->
  let a' := updated s by_ notes b (clock v (ticks v)) (clock v (S (ticks v))) in
  (_ <- updateStatus s by_ notes
          {| d_app := b; d_isNew := false; d_statusModified := false |} ;;
   updatedApplication <- findById (a_id b) ;;
   ret {| r_status := 200;
          r_body := WithApplication message
                      (option_map d_app updatedApplication) |}) v
  = (Ok {| r_status := 200;
           r_body := WithApplication message (Some a') |},
     afterUpdate (a_status b) s a' v).
Proof.
  intros Hfind Hid Hvalid Hlegal Haction a'.
  assert (Hstored : existsb (fun x => (a_id x =? a_id b)%nat) (applications v)
                    = true).
  { rewrite Hid. exact (existsb_found _ _ _ Hfind). }
  pose proof (updateStatus_accepts s by_ notes
                {| d_app := b; d_isNew := false; d_statusModified := false |}
                v eq_refl eq_refl Hvalid Hlegal Haction Hstored) as Hup.
  cbv zeta in Hup. cbn [d_app] in Hup. fold a' in Hup.
  rewrite (bind_ok _ _ _ _ _ Hup).
  unfold bind, findById, ret, afterUpdate.
  cbn [applications setApplications].
  change (a_id b) with (a_id a').
  rewrite (find_replaced a' (applications v) Hstored).
  reflexivity.
Qed.

(** X8: a caller who is neither the employer of an application nor an
    admin cannot change its status, schedule an interview, evaluate it or
    make an offer, and a caller who is not its applicant cannot accept its
    offer or withdraw it: once the body has passed validation the answer is
    403 and nothing is written. *)
Theorem strangers_are_refused (w : World) (a : Application) (u : User)
        (id : ObjectId) :
  findApplication id (applications w) = Some a ->
  (a_employer a <> u_id u -> u_role u <> "admin" ->
   (forall r, sr_user r = u -> sr_id r = id -> statusErrors r = [] ->
              putStatus r w
              = (respond 403 "Not authorized to update this application", w))
   /\
   (forall r, vr_user r = u -> vr_id r = id -> vr_errors r = [] ->
              scheduleInterview r w
              = (respond 403
                   "Not authorized to schedule interview for this application",
                 w))
   /\
   (forall r, er_user r = u -> er_id r = id -> er_errors r = [] ->
              evaluate r w
              = (respond 403 "Not authorized to evaluate this application", w))
   /\
   (forall r, or_user r = u -> or_id r = id -> or_errors r = [] ->
              makeOffer r w
              = (respond 403
                   "Not authorized to make offer for this application", w)))
  /\
  (a_applicant a <> u_id u ->
   forall r, ir_user r = u -> ir_id r = id ->
             acceptOffer r w
             = (respond 403
                  "Not authorized to accept offer for this application", w)
             /\
             withdraw r w
             = (respond 403 "Not authorized to withdraw this application", w)).
Proof.
  intros Hfind. split.
  - intros Hemp Hrole.
    apply Nat.eqb_neq in Hemp. apply String.eqb_neq in Hrole.
    repeat split; intros r <- <- Herr.
    + unfold putStatus, tryCatch. rewrite Herr.
      unfold statusErrors in Herr.
      destruct (sr_status r); [ | discriminate ].
      unfold bind at 1, findById at 1. rewrite Hfind.
      cbn [option_map hydrate d_app]. now rewrite Hemp, Hrole.
    + unfold scheduleInterview, tryCatch. rewrite Herr.
      unfold bind at 1, findById at 1. rewrite Hfind.
      cbn [option_map hydrate d_app]. now rewrite Hemp, Hrole.
    + unfold evaluate, tryCatch. rewrite Herr.
      unfold bind at 1, findById at 1. rewrite Hfind.
      cbn [option_map hydrate d_app]. now rewrite Hemp, Hrole.
    + unfold makeOffer, tryCatch. rewrite Herr.
      unfold bind at 1, findById at 1. rewrite Hfind.
      cbn [option_map hydrate d_app]. now rewrite Hemp, Hrole.
  - intros Happ r <- <-. apply Nat.eqb_neq in Happ. split.
    + unfold acceptOffer, tryCatch, bind at 1, findById at 1.
      rewrite Hfind. cbn [option_map hydrate d_app]. now rewrite Happ.
    + unfold withdraw, tryCatch, bind at 1, findById at 1.
      rewrite Hfind. cbn [option_map hydrate d_app]. now rewrite Happ.
Qed.

(** A third user, a candidate. *)
Definition strangerUser : User :=
  {| u_id := 3%nat; u_role := "candidate"; u_profile := None;
     u_candidateProfile := None |}.

(** The stranger cannot accept the offer made to the applicant. *)
Lemma strangers_are_refused_witness :
  acceptOffer {| ir_user := strangerUser; ir_id := 1%nat |} offeredWorld
  = (respond 403 "Not authorized to accept offer for this application",
     offeredWorld) /\
  withdraw {| ir_user := strangerUser; ir_id := 1%nat |} offeredWorld
  = (respond 403 "Not authorized to withdraw this application", offeredWorld).
Proof.
  refine (proj2 (strangers_are_refused offeredWorld offeredApplication
                   strangerUser 1%nat eq_refl) _
                {| ir_user := strangerUser; ir_id := 1%nat |}
                eq_refl eq_refl).
  discriminate.
Defined.

Lemma tryCatch_ok (body : M Response) (w w' : World) (r : Response) :
  body w = (Ok r, w') -> tryCatch body w = (r, w').
Proof. intros H. unfold tryCatch. now rewrite H. Qed.

Lemma employer_guard (a : Application) (u : User) :
  a_employer a = u_id u \/ u_role u = "admin" ->
  negb (a_employer a =? u_id u)%nat && negb (u_role u =? "admin") = false.
Proof.
  intros [-> | ->]; [ now rewrite Nat.eqb_refl | now rewrite andb_false_r ].
Qed.

(** *** Withdrawing *)

Definition withdrawRefused : Response :=
  respond 400 "Cannot withdraw application in current status".

Lemma withdraw_refused (req : IdRequest) (w : World) (a : Application) :
  findApplication (ir_id req) (applications w) = Some a ->
  a_applicant a = u_id (ir_user req) ->
  (a_status a =? "hired") || (a_status a =? "withdrawn") = true ->
  withdraw req w = (withdrawRefused, w).
Proof.
  intros Hfind Happ Hst.
  unfold withdraw, tryCatch, bind at 1, findById at 1.
  rewrite Hfind. cbn [option_map hydrate d_app].
  rewrite Happ, Nat.eqb_refl. cbn [negb]. now rewrite Hst.
Qed.

Lemma withdraw_accepts (req : IdRequest) (w : World) (a : Application) :
  findApplication (ir_id req) (applications w) = Some a ->
  valid a = true ->
  a_applicant a = u_id (ir_user req) ->
  (a_status a =? "hired") || (a_status a =? "withdrawn") = false ->
  let a' := updated "withdrawn" (u_id (ir_user req))
                    "Application withdrawn by candidate" a
                    (clock w (ticks w)) (clock w (S (ticks w))) in
  withdraw req w
  = ({| r_status := 200;
        r_body := WithApplication "Application withdrawn successfully"
                    (Some a') |},
     setApplications (replaceApplication a' (applications w)) (tick (tick w))).
Proof.
  intros Hfind Hvalid Happ Hst a'.
  apply tryCatch_ok.
  unfold bind at 1, findById at 1. rewrite Hfind.
  cbn [option_map hydrate d_app].
  rewrite Happ, Nat.eqb_refl. cbn [negb]. rewrite Hst.
  pose proof (write_and_answer "withdrawn" (u_id (ir_user req))
                "Application withdrawn by candidate"
                "Application withdrawn successfully"
                a a (ir_id req) w Hfind eq_refl Hvalid eq_refl eq_refl) as H.
  cbv zeta in H. unfold afterUpdate in H.
  apply orb_false_elim in Hst. destruct Hst as [_ Hst].
  rewrite Hst in H. exact H.
Qed.

(** *** Accepting an offer *)

Lemma acceptOffer_accepts (req : IdRequest) (w : World) (a : Application) :
  findApplication (ir_id req) (applications w) = Some a ->
  valid a = true ->
  a_applicant a = u_id (ir_user req) ->
  a_status a = "offered" ->
  let b := with_offer (markAccepted (clock w (ticks w)) (a_offer a)) a in
  let a' := updated "hired" (u_id (ir_user req)) "Offer accepted" b
                    (clock w (S (ticks w))) (clock w (S (S (ticks w)))) in
  acceptOffer req w
  = ({| r_status := 200;
        r_body := WithApplication "Offer accepted successfully" (Some a') |},
     setApplications (replaceApplication a' (applications w))
                     (tick (tick (tick w)))).
Proof.
  intros Hfind Hvalid Happ Hst b a'.
  apply tryCatch_ok.
  unfold bind at 1, findById at 1. rewrite Hfind.
  cbn [option_map hydrate d_app].
  rewrite Happ, Nat.eqb_refl, Hst. cbn [negb].
  change ("offered" =? "offered") with true. cbn [negb].
  unfold bind at 1, newDate at 1.
  pose proof (write_and_answer "hired" (u_id (ir_user req)) "Offer accepted"
                "Offer accepted successfully"
                a b (ir_id req) (tick w) Hfind eq_refl Hvalid
                eq_refl eq_refl) as H.
  cbv zeta in H. unfold afterUpdate in H.
  change (a_status b) with (a_status a) in H. rewrite Hst in H.
  change ("offered" =? "hired") with false in H. cbv iota in H.
  exact H.
Qed.

(** *** Making an offer *)

(** The offer the route writes from the body. *)
Definition offerOf (req : OfferRequest) : Offer :=
  {| o_salaryAmount := or_salaryAmount req;
     o_salaryCurrency := Some (orDefault (or_salaryCurrency req) "USD");
     o_salaryPeriod := Some (orDefault (or_salaryPeriod req) "yearly");
     o_benefits := orEmpty (or_benefits req);
     o_startDate := or_startDate req;
     o_terms := or_terms req;
     o_deadline := or_deadline req;
     o_accepted := false;
     o_acceptedAt := None |}.

Lemma makeOffer_accepts (req : OfferRequest) (w : World) (a : Application) :
  or_errors req = [] ->
  findApplication (or_id req) (applications w) = Some a ->
  valid a = true ->
  a_employer a = u_id (or_user req) \/ u_role (or_user req) = "admin" ->
  let a' := updated "offered" (u_id (or_user req)) "Job offer made"
                    (with_offer (offerOf req) a)
                    (clock w (ticks w)) (clock w (S (ticks w))) in
  makeOffer req w
  = ({| r_status := 200;
        r_body := WithApplication "Job offer made successfully" (Some a') |},
     afterUpdate (a_status a) "offered" a' w).
Proof.
  intros Herr Hfind Hvalid Hauth a'.
  apply tryCatch_ok. rewrite Herr.
  unfold bind at 1, findById at 1. rewrite Hfind.
  cbn [option_map hydrate d_app].
  rewrite (employer_guard a (or_user req) Hauth).
  exact (write_and_answer "offered" (u_id (or_user req)) "Job offer made"
           "Job offer made successfully"
           a (with_offer (offerOf req) a) (or_id req) w Hfind eq_refl Hvalid
           eq_refl eq_refl).
Qed.

(** *** Scheduling an interview *)

Definition interviewOf (req : InterviewRequest) : Interview :=
  {| i_scheduled := true;
     i_date := vr_date req;
     i_time := vr_time req;
     i_type := vr_type req;
     i_location := vr_location req;
     i_meetingLink := vr_meetingLink req;
     i_notes := vr_notes req;
     i_interviewerName := vr_interviewerName req;
     i_interviewerEmail := vr_interviewerEmail req;
     i_interviewerRole := vr_interviewerRole req |}.

(** [interview.type] of the body passes the [enum] of the schema. *)
Definition typeOk (t : option string) : bool :=
  match t with
  | Some t => arrayIncludes interviewTypeEnum t
  | None => true
  end.

Lemma valid_with_interview (i : Interview) (a : Application) :
  valid a = true -> typeOk (i_type i) = true ->
  valid (with_interview i a) = true.
Proof.
  unfold valid, checks, typeOk.
  cbn [forallb snd with_interview a_status a_coverLetter a_matchScore
       a_interview a_evaluation a_timeline].
  intros H Ht. rewrite !andb_true_iff in *.
  repeat match goal with
         | H : _ /\ _ |- _ => destruct H
         end.
  repeat split; trivial.
Qed.

Lemma scheduleInterview_accepts (req : InterviewRequest) (w : World)
      (a : Application) :
  vr_errors req = [] ->
  typeOk (vr_type req) = true ->
  findApplication (vr_id req) (applications w) = Some a ->
  valid a = true ->
  a_employer a = u_id (vr_user req) \/ u_role (vr_user req) = "admin" ->
  let a' := updated "interview-scheduled" (u_id (vr_user req))
                    "Interview scheduled"
                    (with_interview (interviewOf req) a)
                    (clock w (ticks w)) (clock w (S (ticks w))) in
  scheduleInterview req w
  = ({| r_status := 200;
        r_body := WithApplication "Interview scheduled successfully"
                    (Some a') |},
     afterUpdate (a_status a) "interview-scheduled" a' w).
Proof.
  intros Herr Htype Hfind Hvalid Hauth a'.
  apply tryCatch_ok. rewrite Herr.
  unfold bind at 1, findById at 1. rewrite Hfind.
  cbn [option_map hydrate d_app].
  rewrite (employer_guard a (vr_user req) Hauth).
  exact (write_and_answer "interview-scheduled" (u_id (vr_user req))
           "Interview scheduled" "Interview scheduled successfully"
           a (with_interview (interviewOf req) a) (vr_id req) w Hfind eq_refl
           (valid_with_interview (interviewOf req) a Hvalid Htype)
           eq_refl eq_refl).
Qed.

(** *** Evaluating *)

(** The ratings of a body are within [1..5]. *)
Definition ratingsOk (e : Evaluation) : bool :=
  ratingOk (e_technicalSkills e) && ratingOk (e_communicationSkills e)
  && ratingOk (e_culturalFit e) && ratingOk (e_overallRating e).

Lemma ratingOk_orElse (b stored : option Z) :
  ratingOk b = true -> ratingOk stored = true ->
  ratingOk (orElse b stored) = true.
Proof. now destruct b. Qed.

Lemma valid_merged (a : Application) (body : Evaluation) :
  valid a = true -> ratingsOk body = true ->
  valid (with_evaluation (mergeEvaluation (a_evaluation a) body) a) = true.
Proof.
  unfold valid, checks, ratingsOk.
  cbn [forallb snd with_evaluation a_status a_coverLetter a_matchScore
       a_interview a_evaluation a_timeline mergeEvaluation
       e_technicalSkills e_communicationSkills e_culturalFit e_overallRating].
  intros H Hb. rewrite !andb_true_iff in *.
  repeat match goal with
         | H : _ /\ _ |- _ => destruct H
         end.
  repeat split; trivial; now apply ratingOk_orElse.
Qed.

Lemma orElse_idem {A : Type} (b stored : option A) :
  orElse b (orElse b stored) = orElse b stored.
Proof. now destruct b. Qed.

Lemma mergeEvaluation_idem (stored body : Evaluation) :
  mergeEvaluation (mergeEvaluation stored body) body
  = mergeEvaluation stored body.
Proof.
  unfold mergeEvaluation.
  cbn [e_technicalSkills e_communicationSkills e_culturalFit e_overallRating
       e_notes e_strengths e_areasForImprovement e_recommended].
  now rewrite !orElse_idem.
Qed.

Lemma evaluate_accepts (req : EvaluateRequest) (w : World) (a : Application) :
  er_errors req = [] ->
  ratingsOk (er_body req) = true ->
  findApplication (er_id req) (applications w) = Some a ->
  valid a = true ->
  a_employer a = u_id (er_user req) \/ u_role (er_user req) = "admin" ->
  let a' := with_evaluation (mergeEvaluation (a_evaluation a) (er_body req))
                            a in
  evaluate req w
  = ({| r_status := 200;
        r_body := WithApplication "Application evaluated successfully"
                    (Some a') |},
     setApplications (replaceApplication a' (applications w)) w).
Proof.
  intros Herr Hbody Hfind Hvalid Hauth a'.
  apply tryCatch_ok. rewrite Herr.
  unfold bind at 1, findById at 1. rewrite Hfind.
  cbn [option_map hydrate d_app].
  rewrite (employer_guard a (er_user req) Hauth).
  cbv zeta. unfold onApp. cbn [d_app d_isNew d_statusModified].
  fold a'.
  assert (Hstored : existsb (fun x => (a_id x =? a_id a')%nat) (applications w)
                    = true) by exact (existsb_found _ _ _ Hfind).
  rewrite (bind_ok _ _ _ _ _
             (save_update {| d_app := a'; d_isNew := false;
                             d_statusModified := false |} w eq_refl eq_refl
                (proj2 (validate_valid a')
                       (valid_merged a (er_body req) Hvalid Hbody))
                Hstored)).
  unfold bind, findById, ret. cbn [applications setApplications d_app written].
  match goal with
  | |- context [findApplication ?i _] => change i with (a_id a')
  end.
  rewrite (find_replaced a' (applications w) Hstored).
  reflexivity.
Qed.

(** *** What an answer says about the writes *)

(** A [save] that throws has written nothing. *)
Lemma save_throws (d : Doc) (w w' : World) (e : Error) :
  save d w = (Throw e, w') -> applications w' = applications w.
Proof.
  unfold save, throw.
  destruct (validate (d_app d)); [ now intros [= _ <-] | ].
  unfold preSave, bind, newDate, ret, persist, pushTimeline, onApp.
  destruct (d_statusModified d), (d_isNew d) eqn:Hnew;
    cbn [d_app d_isNew applications]; rewrite ?Hnew;
    match goal with
    | |- context [existsb ?f ?l] => destruct (existsb f l)
    end;
    (discriminate || now intros [= _ <-]).
Qed.

Lemma updateStatus_throws (s : string) (by_ : ObjectId) (notes : string)
      (d : Doc) (w w' : World) (e : Error) :
  updateStatus s by_ notes d w = (Throw e, w') ->
  applications w' = applications w.
Proof.
  unfold updateStatus, bind at 1, newDate. intros H.
  now apply save_throws in H.
Qed.

(** What the status code of an answer tells: 200 or 201, or nothing was
    written to the collections, and unless the code is 500 the clock was not
    read either. *)
Definition told (r : Response) (w w' : World) : Prop :=
  r_status r = 200%Z \/ r_status r = 201%Z \/
  (applications w' = applications w /\ jobs w' = jobs w /\
   (r_status r = 500%Z \/ w' = w)).

(** Runs a handler down to its write. *)
Ltac down_to_answer :=
  repeat match goal with
         | |- context [if ?c then _ else _] =>
             destruct c;
             [ intros [= <- <-]; right; right; repeat split; now right | ]
         end;
  unfold bind at 1;
  try (unfold newDate at 1; unfold bind at 1);
  match goal with
  | |- context [updateStatus ?s ?u ?n ?d ?v] =>
      let o := fresh "o" in
      let v' := fresh "v" in
      let Hup := fresh "Hup" in
      destruct (updateStatus s u n d v) as [o v'] eqn:Hup;
      destruct o; unfold bind, findById, ret; intros [= <- <-];
      [ now left
      | right; right;
        pose proof (updateStatus_jobs _ _ _ _ _ _ _ Hup);
        apply updateStatus_throws in Hup;
        repeat split; trivial; now left ]
  | |- context [save ?d ?v] =>
      let o := fresh "o" in
      let v' := fresh "v" in
      let Hup := fresh "Hup" in
      destruct (save d v) as [o v'] eqn:Hup;
      destruct o; unfold bind, findById, ret; intros [= <- <-];
      [ now left
      | right; right;
        pose proof (save_jobs _ _ _ _ Hup);
        apply save_throws in Hup;
        repeat split; trivial; now left ]
  end.

Ltac quiet := intros [= <- <-]; right; right; repeat split; now right.

Lemma putStatus_told (req : StatusRequest) (w : World) :
  told (fst (putStatus req w)) w (snd (putStatus req w)).
Proof.
  destruct (putStatus req w) as [r w'] eqn:H. cbn [fst snd]. revert H.
  unfold putStatus, tryCatch.
  destruct (statusErrors req); [ | quiet ].
  destruct (sr_status req); [ | quiet ].
  unfold bind at 1, findById at 1.
  destruct (findApplication (sr_id req) (applications w)) as [a | ];
    cbn [option_map]; [ | quiet ].
  cbn [hydrate d_app].
  down_to_answer.
Qed.

Lemma scheduleInterview_told (req : InterviewRequest) (w : World) :
  told (fst (scheduleInterview req w)) w (snd (scheduleInterview req w)).
Proof.
  destruct (scheduleInterview req w) as [r w'] eqn:H. cbn [fst snd]. revert H.
  unfold scheduleInterview, tryCatch.
  destruct (vr_errors req); [ | quiet ].
  unfold bind at 1, findById at 1.
  destruct (findApplication (vr_id req) (applications w)) as [a | ];
    cbn [option_map]; [ | quiet ].
  cbn [hydrate d_app].
  down_to_answer.
Qed.

Lemma evaluate_told (req : EvaluateRequest) (w : World) :
  told (fst (evaluate req w)) w (snd (evaluate req w)).
Proof.
  destruct (evaluate req w) as [r w'] eqn:H. cbn [fst snd]. revert H.
  unfold evaluate, tryCatch.
  destruct (er_errors req); [ | quiet ].
  unfold bind at 1, findById at 1.
  destruct (findApplication (er_id req) (applications w)) as [a | ];
    cbn [option_map]; [ | quiet ].
  cbn [hydrate d_app].
  down_to_answer.
Qed.

Lemma makeOffer_told (req : OfferRequest) (w : World) :
  told (fst (makeOffer req w)) w (snd (makeOffer req w)).
Proof.
  destruct (makeOffer req w) as [r w'] eqn:H. cbn [fst snd]. revert H.
  unfold makeOffer, tryCatch.
  destruct (or_errors req); [ | quiet ].
  unfold bind at 1, findById at 1.
  destruct (findApplication (or_id req) (applications w)) as [a | ];
    cbn [option_map]; [ | quiet ].
  cbn [hydrate d_app].
  down_to_answer.
Qed.

Lemma acceptOffer_told (req : IdRequest) (w : World) :
  told (fst (acceptOffer req w)) w (snd (acceptOffer req w)).
Proof.
  destruct (acceptOffer req w) as [r w'] eqn:H. cbn [fst snd]. revert H.
  unfold acceptOffer, tryCatch.
  unfold bind at 1, findById at 1.
  destruct (findApplication (ir_id req) (applications w)) as [a | ];
    cbn [option_map]; [ | quiet ].
  cbn [hydrate d_app].
  down_to_answer.
Qed.

Lemma withdraw_told (req : IdRequest) (w : World) :
  told (fst (withdraw req w)) w (snd (withdraw req w)).
Proof.
  destruct (withdraw req w) as [r w'] eqn:H. cbn [fst snd]. revert H.
  unfold withdraw, tryCatch.
  unfold bind at 1, findById at 1.
  destruct (findApplication (ir_id req) (applications w)) as [a | ];
    cbn [option_map]; [ | quiet ].
  cbn [hydrate d_app].
  down_to_answer.
Qed.

Lemma postApplication_told (req : ApplyRequest) (w : World) :
  told (fst (postApplication req w)) w (snd (postApplication req w)).
Proof.
  assert (Hquiet : forall r, postApplication req w = (r, w) ->
                             told (fst (postApplication req w)) w
                                  (snd (postApplication req w))).
  { intros r ->. right. right. repeat split. now right. }
  destruct (applyErrors req) as [ | e errs] eqn:Herr.
  2:{ eapply Hquiet, postApplication_invalid. now rewrite Herr. }
  destruct (ar_jobId req) as [jobId | ] eqn:Hid.
  2:{ eapply Hquiet. unfold postApplication, tryCatch.
      rewrite Herr, Hid. reflexivity. }
  destruct (findJob jobId (jobs w)) as [job | ] eqn:Hjob.
  2:{ eapply Hquiet, postApplication_job_missing; eassumption. }
  destruct (negb (j_status job =? "active") || negb (j_approved job))
    eqn:Hopen.
  { eapply Hquiet, postApplication_job_closed; eassumption. }
  destruct (existsb (samePair jobId (u_id (ar_user req))) (applications w))
    eqn:Hdup.
  { eapply Hquiet, postApplication_duplicate; eassumption. }
  apply orb_false_elim in Hopen. destruct Hopen as [Hact Happ].
  apply negb_false_iff in Hact, Happ. apply String.eqb_eq in Hact.
  rewrite (postApplication_accepts w req jobId job Herr Hid Hjob Hact Happ Hdup).
  right. now left.
Qed.

Lemma handle_told (req : Request) (w : World) :
  told (fst (handle req w)) w (snd (handle req w)).
Proof.
  destruct req; cbn [handle].
  - apply postApplication_told.
  - apply putStatus_told.
  - apply scheduleInterview_told.
  - apply evaluate_told.
  - apply makeOffer_told.
  - apply acceptOffer_told.
  - apply withdraw_told.
Qed.

(** What [updateStatus] stores passes the schema. *)
Lemma updated_valid (s : string) (by_ : ObjectId) (notes : string)
      (b : Application) (t1 t2 : Date) :
  valid b = true ->
  arrayIncludes statusEnum s = true ->
  arrayIncludes timelineActionEnum s = true ->
  valid (updated s by_ notes b t1 t2) = true.
Proof.
  intros Hvalid Hlegal Haction.
  rewrite valid_split in Hvalid |- *.
  apply andb_prop in Hvalid. destruct Hvalid as [Hvalid Htl].
  apply andb_prop in Hvalid. destruct Hvalid as [_ Hrest].
  unfold updated. rewrite restValid_with_timeline.
  cbn [a_status a_timeline with_timeline with_status].
  change (restValid (with_status s b)) with (restValid b).
  rewrite Hlegal, Hrest, forallb_app, Htl. cbn [andb].
  unfold addedEntries. cbn [forallb statusEntry t_action]. rewrite Haction.
  destruct (a_status b =? s); cbn [forallb hookEntry t_action a_status
                                   with_status andb];
    now rewrite ?Haction.
Qed.

Lemma replace_idem (a' : Application) (apps : list Application) :
  replaceApplication a' (replaceApplication a' apps)
  = replaceApplication a' apps.
Proof.
  unfold replaceApplication. rewrite map_map. apply map_ext. intros b.
  destruct (a_id b =? a_id a')%nat eqn:E; [ | now rewrite E ].
  now rewrite Nat.eqb_refl.
Qed.

(** X9: withdrawing, for the applicant of a stored, valid application.  In
    the statuses [hired] and [withdrawn] the answer is 400 and nothing is
    touched; in every other status the application is stored as
    [withdrawn], and a second withdrawal is then refused. *)
Theorem withdraw_outcome (req : IdRequest) (w : World) (a : Application) :
  findApplication (ir_id req) (applications w) = Some a ->
  valid a = true ->
  a_applicant a = u_id (ir_user req) ->
  if (a_status a =? "hired") || (a_status a =? "withdrawn")
  then withdraw req w = (withdrawRefused, w)
  else
    let a' := updated "withdrawn" (u_id (ir_user req))
                      "Application withdrawn by candidate" a
                      (clock w (ticks w)) (clock w (S (ticks w))) in
    let w' := setApplications (replaceApplication a' (applications w))
                              (tick (tick w)) in
    withdraw req w
    = ({| r_status := 200;
          r_body := WithApplication "Application withdrawn successfully"
                      (Some a') |}, w') /\
    withdraw req w' = (withdrawRefused, w').
Proof.
  intros Hfind Hvalid Happ.
  destruct ((a_status a =? "hired") || (a_status a =? "withdrawn")) eqn:Hst.
  - exact (withdraw_refused req w a Hfind Happ Hst).
  - cbv zeta. split.
    + exact (withdraw_accepts req w a Hfind Hvalid Happ Hst).
    + set (a' := updated "withdrawn" (u_id (ir_user req))
                         "Application withdrawn by candidate" a
                         (clock w (ticks w)) (clock w (S (ticks w)))).
      exact (withdraw_refused req
               (setApplications (replaceApplication a' (applications w))
                                (tick (tick w)))
               a'
               (find_after_update a a' (ir_id req) (applications w) Hfind
                                  eq_refl)
               Happ eq_refl).
Qed.

(** The applicant withdraws the stored application, once and again. *)
Lemma withdraw_outcome_witness :
  withdraw acceptRequest appliedWorld
  = ({| r_status := 200;
        r_body := WithApplication "Application withdrawn successfully"
                    (Some (updated "withdrawn" 1%nat
                                   "Application withdrawn by candidate"
                                   storedApplication 1000%Z 1001%Z)) |},
     setApplications
       [updated "withdrawn" 1%nat "Application withdrawn by candidate"
                storedApplication 1000%Z 1001%Z]
       (tick (tick appliedWorld))) /\
  withdraw acceptRequest
    (setApplications
       [updated "withdrawn" 1%nat "Application withdrawn by candidate"
                storedApplication 1000%Z 1001%Z]
       (tick (tick appliedWorld)))
  = (withdrawRefused,
     setApplications
       [updated "withdrawn" 1%nat "Application withdrawn by candidate"
                storedApplication 1000%Z 1001%Z]
       (tick (tick appliedWorld))).
Proof.
  exact (withdraw_outcome acceptRequest appliedWorld storedApplication
           eq_refl eq_refl eq_refl).
Defined.

(** X10: accepting an offer, for the applicant of a stored, valid
    application whose status is [offered]: the answer is 200, the
    application is stored as [hired] with the offer marked accepted at the
    time of the request and otherwise as it was made; after that neither a
    second acceptance nor a withdrawal goes through. *)
Theorem hired_is_final (req : IdRequest) (w : World) (a : Application) :
  findApplication (ir_id req) (applications w) = Some a ->
  valid a = true ->
  a_applicant a = u_id (ir_user req) ->
  a_status a = "offered" ->
  let w' := snd (acceptOffer req w) in
  exists a',
    fst (acceptOffer req w)
    = {| r_status := 200;
         r_body := WithApplication "Offer accepted successfully" (Some a') |}
    /\ findApplication (ir_id req) (applications w') = Some a'
    /\ a_status a' = "hired"
    /\ a_offer a' = markAccepted (clock w (ticks w)) (a_offer a)
    /\ acceptOffer req w' = (respond 400 "No offer to accept", w')
    /\ withdraw req w' = (withdrawRefused, w').
Proof.
  intros Hfind Hvalid Happ Hst. cbv zeta.
  rewrite (acceptOffer_accepts req w a Hfind Hvalid Happ Hst).
  cbn [fst snd].
  set (a' := updated "hired" (u_id (ir_user req)) "Offer accepted"
                     (with_offer (markAccepted (clock w (ticks w)) (a_offer a))
                                 a)
                     (clock w (S (ticks w))) (clock w (S (S (ticks w))))).
  set (w' := setApplications (replaceApplication a' (applications w))
                             (tick (tick (tick w)))).
  assert (Hfind' : findApplication (ir_id req) (applications w') = Some a')
    by exact (find_after_update a a' (ir_id req) (applications w) Hfind
                                eq_refl).
  exists a'. split; [ reflexivity | ]. split; [ exact Hfind' | ].
  split; [ reflexivity | ]. split; [ reflexivity | ]. split.
  - apply (acceptOffer_not_offered req w' a' Hfind' Happ). discriminate.
  - exact (withdraw_refused req w' a' Hfind' Happ eq_refl).
Qed.

(** The applicant accepts the offer of the employer. *)
Lemma hired_is_final_witness :
  exists a',
    fst (acceptOffer acceptRequest offeredWorld)
    = {| r_status := 200;
         r_body := WithApplication "Offer accepted successfully" (Some a') |}
    /\ findApplication 1%nat
         (applications (snd (acceptOffer acceptRequest offeredWorld)))
       = Some a'
    /\ a_status a' = "hired"
    /\ a_offer a' = markAccepted 1000%Z theOffer
    /\ acceptOffer acceptRequest (snd (acceptOffer acceptRequest offeredWorld))
       = (respond 400 "No offer to accept",
          snd (acceptOffer acceptRequest offeredWorld))
    /\ withdraw acceptRequest (snd (acceptOffer acceptRequest offeredWorld))
       = (withdrawRefused, snd (acceptOffer acceptRequest offeredWorld)).
Proof.
  exact (hired_is_final acceptRequest offeredWorld offeredApplication
           eq_refl eq_refl eq_refl eq_refl).
Defined.

(** X11: an offer, then its acceptance.  The employer of a stored, valid
    application (or an admin) makes an offer whatever the status of the
    application is, [withdrawn], [rejected] and [hired] included; the
    applicant accepts; both requests are answered 200 and the application
    ends as [hired], with the offer of the body, the defaults for currency
    and period, marked accepted, and with three more timeline entries when
    the status was already [offered] and four otherwise. *)
Theorem offer_then_accept (r : OfferRequest) (acc : IdRequest) (w : World)
        (a : Application) :
  or_errors r = [] ->
  findApplication (or_id r) (applications w) = Some a ->
  valid a = true ->
  a_employer a = u_id (or_user r) \/ u_role (or_user r) = "admin" ->
  ir_id acc = or_id r ->
  a_applicant a = u_id (ir_user acc) ->
  let w1 := snd (makeOffer r w) in
  let w2 := snd (acceptOffer acc w1) in
  r_status (fst (makeOffer r w)) = 200%Z /\
  r_status (fst (acceptOffer acc w1)) = 200%Z /\
  exists a2,
    findApplication (or_id r) (applications w2) = Some a2 /\
    a_status a2 = "hired" /\
    a_offer a2 = markAccepted (clock w1 (ticks w1)) (offerOf r) /\
    List.length (a_timeline a2)
    = (List.length (a_timeline a)
       + (if (a_status a =? "offered")%string then 3 else 4))%nat.
Proof.
  intros Herr Hfind Hvalid Hauth Hid Happ. cbv zeta.
  rewrite (makeOffer_accepts r w a Herr Hfind Hvalid Hauth).
  cbn [fst snd].
  set (a1 := updated "offered" (u_id (or_user r)) "Job offer made"
                     (with_offer (offerOf r) a)
                     (clock w (ticks w)) (clock w (S (ticks w)))).
  set (w1 := afterUpdate (a_status a) "offered" a1 w).
  assert (Hfind1 : findApplication (ir_id acc) (applications w1) = Some a1).
  { rewrite Hid.
    exact (find_after_update a a1 (or_id r) (applications w) Hfind eq_refl). }
  assert (Hvalid1 : valid a1 = true)
    by exact (updated_valid "offered" _ _ (with_offer (offerOf r) a) _ _
                            Hvalid eq_refl eq_refl).
  rewrite (acceptOffer_accepts acc w1 a1 Hfind1 Hvalid1 Happ eq_refl).
  cbn [fst snd r_status].
  split; [ reflexivity | ]. split; [ reflexivity | ].
  set (a2 := updated "hired" (u_id (ir_user acc)) "Offer accepted"
                     (with_offer
                        (markAccepted (clock w1 (ticks w1)) (a_offer a1)) a1)
                     (clock w1 (S (ticks w1))) (clock w1 (S (S (ticks w1))))).
  exists a2. split.
  - cbn [applications setApplications]. rewrite <- Hid.
    exact (find_after_update a1 a2 (ir_id acc) (applications w1) Hfind1
                             eq_refl).
  - split; [ reflexivity | ]. split; [ reflexivity | ].
    unfold a2, a1, updated.
    cbn [a_timeline with_timeline with_offer with_status].
    rewrite !length_app, !addedEntries_length.
    cbn [a_status with_status with_offer with_timeline].
    change ("offered" =? "hired") with false.
    destruct (a_status a =? "offered"); lia.
Qed.

(** The employer makes theOffer for the stored application and the
    applicant accepts it. *)
Definition offerRequest : OfferRequest :=
  {| or_user := employerUser; or_id := 1%nat; or_errors := [];
     or_salaryAmount := Some (85000 # 1)%Q; or_salaryCurrency := None;
     or_salaryPeriod := None;
     or_benefits := Some ["Health insurance"];
     or_startDate := Some "2025-03-01"; or_terms := None;
     or_deadline := Some "2025-02-15" |}.

Lemma offer_then_accept_witness :
  r_status (fst (makeOffer offerRequest appliedWorld)) = 200%Z /\
  r_status (fst (acceptOffer acceptRequest
                             (snd (makeOffer offerRequest appliedWorld))))
  = 200%Z /\
  exists a2,
    findApplication 1%nat
      (applications
         (snd (acceptOffer acceptRequest
                           (snd (makeOffer offerRequest appliedWorld)))))
    = Some a2 /\
    a_status a2 = "hired" /\
    a_offer a2 = markAccepted 1002%Z theOffer /\
    List.length (a_timeline a2) = 4%nat.
Proof.
  exact (offer_then_accept offerRequest acceptRequest appliedWorld
           storedApplication eq_refl eq_refl eq_refl (or_introl eq_refl)
           eq_refl eq_refl).
Defined.

(** X12: scheduling an interview, for the employer of a stored, valid
    application (or an admin) and a body whose type is one of the schema:
    the answer is 200 and the application is stored as
    [interview-scheduled] with the interview of the body, marked scheduled.
    The same request once more is accepted as well; as the status does not
    change then, the [pre('save')] hook stays silent and the timeline grows
    by one entry only. *)
Theorem scheduleInterview_outcome (req : InterviewRequest) (w : World)
        (a : Application) :
  vr_errors req = [] ->
  typeOk (vr_type req) = true ->
  findApplication (vr_id req) (applications w) = Some a ->
  valid a = true ->
  a_employer a = u_id (vr_user req) \/ u_role (vr_user req) = "admin" ->
  let w1 := snd (scheduleInterview req w) in
  let w2 := snd (scheduleInterview req w1) in
  exists a1 a2,
    fst (scheduleInterview req w)
    = {| r_status := 200;
         r_body := WithApplication "Interview scheduled successfully"
                     (Some a1) |} /\
    findApplication (vr_id req) (applications w1) = Some a1 /\
    a_status a1 = "interview-scheduled" /\
    a_interview a1 = interviewOf req /\
    List.length (a_timeline a1)
    = (List.length (a_timeline a)
       + (if (a_status a =? "interview-scheduled")%string then 1 else 2))%nat
    /\
    fst (scheduleInterview req w1)
    = {| r_status := 200;
         r_body := WithApplication "Interview scheduled successfully"
                     (Some a2) |} /\
    findApplication (vr_id req) (applications w2) = Some a2 /\
    a_timeline a2
    = (a_timeline a1
       ++ [statusEntry "interview-scheduled" (u_id (vr_user req))
                       "Interview scheduled" (clock w1 (ticks w1))])%list.
Proof.
  intros Herr Htype Hfind Hvalid Hauth. cbv zeta.
  rewrite (scheduleInterview_accepts req w a Herr Htype Hfind Hvalid Hauth).
  cbn [fst snd].
  set (a1 := updated "interview-scheduled" (u_id (vr_user req))
                     "Interview scheduled"
                     (with_interview (interviewOf req) a)
                     (clock w (ticks w)) (clock w (S (ticks w)))).
  set (w1 := afterUpdate (a_status a) "interview-scheduled" a1 w).
  assert (Hfind1 : findApplication (vr_id req) (applications w1) = Some a1)
    by exact (find_after_update a a1 (vr_id req) (applications w) Hfind
                                eq_refl).
  assert (Hvalid1 : valid a1 = true)
    by exact (updated_valid "interview-scheduled" _ _
                (with_interview (interviewOf req) a) _ _
                (valid_with_interview (interviewOf req) a Hvalid Htype)
                eq_refl eq_refl).
  rewrite (scheduleInterview_accepts req w1 a1 Herr Htype Hfind1 Hvalid1
             Hauth).
  cbn [fst snd].
  set (a2 := updated "interview-scheduled" (u_id (vr_user req))
                     "Interview scheduled"
                     (with_interview (interviewOf req) a1)
                     (clock w1 (ticks w1)) (clock w1 (S (ticks w1)))).
  exists a1, a2.
  split; [ reflexivity | ]. split; [ exact Hfind1 | ].
  split; [ reflexivity | ]. split; [ reflexivity | ]. split.
  { unfold a1, updated.
    cbn [a_timeline with_timeline with_interview with_status].
    rewrite length_app, addedEntries_length.
    cbn [a_status with_interview]. reflexivity. }
  split; [ reflexivity | ]. split.
  - exact (find_after_update a1 a2 (vr_id req) (applications w1) Hfind1
                             eq_refl).
  - reflexivity.
Qed.

(** The employer schedules a video interview for the stored application. *)
Definition interviewRequest : InterviewRequest :=
  {| vr_user := employerUser; vr_id := 1%nat; vr_errors := [];
     vr_date := Some "2025-02-01"; vr_time := Some "10:00";
     vr_type := Some "video"; vr_location := None;
     vr_meetingLink := Some "https://meet.example.com/abc";
     vr_notes := None; vr_interviewerName := Some "Dana";
     vr_interviewerEmail := Some "dana@example.com";
     vr_interviewerRole := Some "CTO" |}.

Lemma scheduleInterview_outcome_witness :
  exists a1 a2,
    fst (scheduleInterview interviewRequest appliedWorld)
    = {| r_status := 200;
         r_body := WithApplication "Interview scheduled successfully"
                     (Some a1) |} /\
    findApplication 1%nat
      (applications (snd (scheduleInterview interviewRequest appliedWorld)))
    = Some a1 /\
    a_status a1 = "interview-scheduled" /\
    a_interview a1 = interviewOf interviewRequest /\
    List.length (a_timeline a1) = 2%nat /\
    fst (scheduleInterview interviewRequest
           (snd (scheduleInterview interviewRequest appliedWorld)))
    = {| r_status := 200;
         r_body := WithApplication "Interview scheduled successfully"
                     (Some a2) |} /\
    findApplication 1%nat
      (applications
         (snd (scheduleInterview interviewRequest
                 (snd (scheduleInterview interviewRequest appliedWorld)))))
    = Some a2 /\
    a_timeline a2
    = (a_timeline a1
       ++ [statusEntry "interview-scheduled" 2%nat "Interview scheduled"
                       1002%Z])%list.
Proof.
  exact (scheduleInterview_outcome interviewRequest appliedWorld
           storedApplication eq_refl eq_refl eq_refl eq_refl
           (or_introl eq_refl)).
Defined.

(** X13: evaluating, for the employer of a stored, valid application (or
    an admin) and a body whose ratings are within 1..5: the answer is 200;
    the stored evaluation takes the keys of the body and keeps its other
    keys; status, timeline and clock are left alone; and the same request
    once more changes nothing. *)
Theorem evaluate_outcome (req : EvaluateRequest) (w : World)
        (a : Application) :
  er_errors req = [] ->
  ratingsOk (er_body req) = true ->
  findApplication (er_id req) (applications w) = Some a ->
  valid a = true ->
  a_employer a = u_id (er_user req) \/ u_role (er_user req) = "admin" ->
  let a' := with_evaluation (mergeEvaluation (a_evaluation a) (er_body req))
                            a in
  let w' := setApplications (replaceApplication a' (applications w)) w in
  evaluate req w
  = ({| r_status := 200;
        r_body := WithApplication "Application evaluated successfully"
                    (Some a') |}, w') /\
  evaluate req w' = evaluate req w.
Proof.
  intros Herr Hbody Hfind Hvalid Hauth a' w'.
  pose proof (evaluate_accepts req w a Herr Hbody Hfind Hvalid Hauth) as H.
  cbv zeta in H. fold a' in H. fold w' in H.
  split; [ exact H | ]. rewrite H.
  assert (Hfind' : findApplication (er_id req) (applications w') = Some a')
    by exact (find_after_update a a' (er_id req) (applications w) Hfind
                                eq_refl).
  pose proof (evaluate_accepts req w' a' Herr Hbody Hfind'
                (valid_merged a (er_body req) Hvalid Hbody) Hauth) as H'.
  cbv zeta in H'. rewrite H'.
  assert (Hsame : with_evaluation
                    (mergeEvaluation (a_evaluation a') (er_body req)) a'
                  = a').
  { unfold a' at 1 2. cbn [a_evaluation with_evaluation].
    rewrite mergeEvaluation_idem. reflexivity. }
  rewrite Hsame. unfold w'. cbn [applications setApplications].
  rewrite replace_idem. reflexivity.
Qed.

(** The employer rates the technical skills of the stored application. *)
Definition evaluateRequest : EvaluateRequest :=
  {| er_user := employerUser; er_id := 1%nat; er_errors := [];
     er_body :=
       {| e_technicalSkills := Some 4%Z; e_communicationSkills := None;
          e_culturalFit := None; e_overallRating := None;
          e_notes := Some "solid"; e_strengths := None;
          e_areasForImprovement := None; e_recommended := None |} |}.

Lemma evaluate_outcome_witness :
  evaluate evaluateRequest appliedWorld
  = ({| r_status := 200;
        r_body := WithApplication "Application evaluated successfully"
                    (Some (with_evaluation
                             {| e_technicalSkills := Some 4%Z;
                                e_communicationSkills := None;
                                e_culturalFit := None;
                                e_overallRating := None;
                                e_notes := Some "solid";
                                e_strengths := None;
                                e_areasForImprovement := None;
                                e_recommended := Some false |}
                             storedApplication)) |},
     setApplications
       [with_evaluation
          {| e_technicalSkills := Some 4%Z; e_communicationSkills := None;
             e_culturalFit := None; e_overallRating := None;
             e_notes := Some "solid"; e_strengths := None;
             e_areasForImprovement := None; e_recommended := Some false |}
          storedApplication]
       appliedWorld) /\
  evaluate evaluateRequest
    (setApplications
       [with_evaluation
          {| e_technicalSkills := Some 4%Z; e_communicationSkills := None;
             e_culturalFit := None; e_overallRating := None;
             e_notes := Some "solid"; e_strengths := None;
             e_areasForImprovement := None; e_recommended := Some false |}
          storedApplication]
       appliedWorld)
  = evaluate evaluateRequest appliedWorld.
Proof.
  exact (evaluate_outcome evaluateRequest appliedWorld storedApplication
           eq_refl eq_refl eq_refl eq_refl (or_introl eq_refl)).
Defined.

(** X14: a request for an application that is not stored is answered 404
    by each of the six handlers that look one up, once its body has passed
    validation, and nothing is touched. *)
Theorem unknown_application_is_404 (w : World) (id : ObjectId) :
  findApplication id (applications w) = None ->
  let notFound := (respond 404 "Application not found", w) in
  (forall r, sr_id r = id -> statusErrors r = [] -> putStatus r w = notFound)
  /\
  (forall r, vr_id r = id -> vr_errors r = [] ->
             scheduleInterview r w = notFound)
  /\
  (forall r, er_id r = id -> er_errors r = [] -> evaluate r w = notFound)
  /\
  (forall r, or_id r = id -> or_errors r = [] -> makeOffer r w = notFound)
  /\
  (forall r, ir_id r = id -> acceptOffer r w = notFound)
  /\
  (forall r, ir_id r = id -> withdraw r w = notFound).
Proof.
  intros Hfind. cbv zeta. repeat split; intros r <-.
  - intros Herr. unfold putStatus, tryCatch. rewrite Herr.
    unfold statusErrors in Herr.
    destruct (sr_status r); [ | discriminate ].
    unfold bind, findById. now rewrite Hfind.
  - intros Herr. unfold scheduleInterview, tryCatch. rewrite Herr.
    unfold bind, findById. now rewrite Hfind.
  - intros Herr. unfold evaluate, tryCatch. rewrite Herr.
    unfold bind, findById. now rewrite Hfind.
  - intros Herr. unfold makeOffer, tryCatch. rewrite Herr.
    unfold bind, findById. now rewrite Hfind.
  - unfold acceptOffer, tryCatch, bind, findById. now rewrite Hfind.
  - unfold withdraw, tryCatch, bind, findById. now rewrite Hfind.
Qed.

(** Nobody can accept or withdraw application 9 of the portal, which has
    application 1 only. *)
Lemma unknown_application_is_404_witness :
  acceptOffer {| ir_user := applicantUser; ir_id := 9%nat |} appliedWorld
  = (respond 404 "Application not found", appliedWorld) /\
  withdraw {| ir_user := applicantUser; ir_id := 9%nat |} appliedWorld
  = (respond 404 "Application not found", appliedWorld).
Proof.
  destruct (unknown_application_is_404 appliedWorld 9%nat eq_refl)
    as (_ & _ & _ & _ & Haccept & Hwithdraw).
  split; [ apply Haccept | apply Hwithdraw ]; reflexivity.
Defined.

(** X15: what the status code says about the writes.  Unless a request is
    answered 200 or 201, the collections of applications and of jobs are
    after it what they were before; unless it is answered 200, 201 or 500,
    the clock has not been read either. *)
Theorem failures_write_nothing (req : Request) (w : World) :
  r_status (fst (handle req w)) <> 200%Z ->
  r_status (fst (handle req w)) <> 201%Z ->
  applications (snd (handle req w)) = applications w /\
  jobs (snd (handle req w)) = jobs w /\
  (r_status (fst (handle req w)) <> 500%Z -> snd (handle req w) = w).
Proof.
  intros H200 H201.
  destruct (handle_told req w) as [H | [H | (Happs & Hjobs & H)]];
    [ contradiction | contradiction | ].
  split; [ exact Happs | ]. split; [ exact Hjobs | ].
  intros H500. destruct H as [H | H]; [ contradiction | exact H ].
Qed.

(** The update to [reviewing], answered 500, has written nothing. *)
Lemma failures_write_nothing_witness :
  applications (snd (handle (PutStatus reviewRequest) appliedWorld))
  = applications appliedWorld /\
  jobs (snd (handle (PutStatus reviewRequest) appliedWorld))
  = jobs appliedWorld.
Proof.
  destruct (failures_write_nothing (PutStatus reviewRequest) appliedWorld)
    as (Happs & Hjobs & _);
    [ vm_compute; discriminate | vm_compute; discriminate | ].
  split; assumption.
Defined.

(** In a list without two elements of one key, at most one element has a
    given key. *)
Lemma one_per_key (apps : list Application) (job applicant : ObjectId) :
  NoDup (map pairOf apps) ->
  (List.length (filter (samePair job applicant) apps) <= 1)%nat.
Proof.
  induction apps as [ | b apps IH]; cbn [map filter List.length];
    [ lia | ].
  intros Hnd. apply NoDup_cons_iff in Hnd. destruct Hnd as [Hb Hnd].
  destruct (samePair job applicant b) eqn:E; [ | now apply IH ].
  assert (Hnone : filter (samePair job applicant) apps = []).
  { destruct (filter (samePair job applicant) apps) as [ | c rest] eqn:F;
      [ reflexivity | exfalso ].
    assert (Hc : In c (filter (samePair job applicant) apps))
      by (rewrite F; now left).
    apply filter_In in Hc. destruct Hc as [Hin Hc].
    apply Hb. apply in_map_iff. exists c. split; [ | exact Hin ].
    unfold samePair in E, Hc.
    apply andb_prop in E, Hc. destruct E as [E1 E2], Hc as [C1 C2].
    apply Nat.eqb_eq in E1, E2, C1, C2. unfold pairOf. congruence. }
  rewrite Hnone. cbn [List.length]. lia.
Qed.

(** X16: whatever requests are served, the collection never holds two
    applications of one applicant to one job. *)
Theorem one_application_per_job_and_applicant (reqs : list Request)
        (w : World) (job applicant : ObjectId) :
  wellFormed w ->
  (List.length (filter (samePair job applicant) (applications (serve reqs w)))
   <= 1)%nat.
Proof.
  intros Hw. apply one_per_key.
  exact (proj2 (serve_wellFormed reqs w Hw)).
Qed.

(** The applicant submits the same application twice; one is stored. *)
Lemma one_application_per_job_and_applicant_witness :
  (List.length
     (filter (samePair 7%nat 1%nat)
             (applications
                (serve [PostApplication submission; PostApplication submission]
                       (portal [] [postedJob "active" 0]))))
   <= 1)%nat.
Proof.
  apply (one_application_per_job_and_applicant
           [PostApplication submission; PostApplication submission]
           (portal [] [postedJob "active" 0]) 7%nat 1%nat).
  split; constructor.
Defined.

End HandlerProperties.

(* ------------------------------------------------------------------ *)
(** ** The scorer where no rounding is left *)

Module ScorerExactness.

Import JS Scorer ScorerFacts ExactArithmetic.
Local Open Scope Q_scope.

(** The points of the three blocks of [calculateJobMatch] that add whole
    numbers. *)
Definition locationPoints (ul : option UserLocation) (jl : option JobLocation)
  : Z :=
  match ul, jl with
  | Some ul, Some jl =>
      if truthyFlag (jl_remote jl) then 20
      else if sameName (ul_city ul) (jl_city jl) then 20
      else if sameName (ul_state ul) (jl_state jl) then 15
      else if sameName (ul_country ul) (jl_country jl) then 10
      else 0
  | _, _ => 0
  end%Z.

Definition typePoints (preferred : list string) (jobType : string) : Z :=
  if arrayIncludes preferred jobType then 15%Z else 0%Z.

Definition levelPoints (jobLevel : string) (userExperience : nat) : Z :=
  if (jobLevel =? "entry")%string && (userExperience <=? 1)%nat
  then 15%Z
  else if (jobLevel =? "junior")%string && (userExperience <=? 3)%nat
  then 15%Z
  else if (jobLevel =? "mid")%string && (2 <=? userExperience)%nat
          && (userExperience <=? 7)%nat
  then 15%Z
  else if (jobLevel =? "senior")%string && (5 <=? userExperience)%nat
  then 15%Z
  else if (jobLevel =? "lead")%string && (7 <=? userExperience)%nat
  then 15%Z
  else if (jobLevel =? "executive")%string && (10 <=? userExperience)%nat
  then 15%Z
  else 0%Z.

(** The points of the skill block when no candidate skill matches or when
    the matching skills are as many as the longer of the two lists. *)
Definition skillPoints (cs js : list string) : Z :=
  if (0 <? List.length cs)%nat && (0 <? List.length js)%nat
     && (List.length (matchingSkills cs js)
         =? Nat.max (List.length cs) (List.length js))%nat
  then 50%Z else 0%Z.

Section WithRounding.

Variable R : Rounding.

(** Rounding leaves a number that is an integer alone. *)
Lemma fl_at (n : Z) (x : Q) :
  (Z.abs n <= 2 ^ 53)%Z -> x == inject_Z n -> R x == inject_Z n.
Proof.
  intros Hn Hx.
  destruct (@fl_between R n n x Hn Hn) as [H1 H2]; lra.
Qed.

Lemma skillMatching_ends (cs js : list string) :
  List.length (matchingSkills cs js) = 0%nat \/
  List.length (matchingSkills cs js)
  = Nat.max (List.length cs) (List.length js) ->
  skillMatching R cs js 0 == inject_Z (skillPoints cs js).
Proof.
  intros Hends. unfold skillMatching, skillPoints.
  destruct ((0 <? List.length cs)%nat && (0 <? List.length js)%nat)
    eqn:Hguard; cbn [andb]; [ | reflexivity ].
  apply andb_prop in Hguard. destruct Hguard as [Hcs _].
  apply Nat.ltb_lt in Hcs.
  set (m := List.length (matchingSkills cs js)) in *.
  set (M := Nat.max (List.length cs) (List.length js)) in *.
  assert (HM : (0 < M)%nat) by (subst M; lia).
  pose proof (num_pos M HM) as HMpos.
  destruct (m =? M)%nat eqn:E.
  - apply Nat.eqb_eq in E. rewrite E.
    assert (H1 : R (num M / num M) == inject_Z 1).
    { apply fl_at; [ simpl; lia | ].
      change (inject_Z 1) with 1. unfold Qdiv. apply Qmult_inv_r. lra. }
    assert (H2 : R (R (num M / num M) * 50) == inject_Z 50).
    { apply fl_at; [ simpl; lia | ]. rewrite H1. reflexivity. }
    apply fl_at; [ simpl; lia | ]. rewrite H2. reflexivity.
  - apply Nat.eqb_neq in E.
    assert (Hm : m = 0%nat) by (destruct Hends; [ assumption | contradiction ]).
    rewrite Hm.
    assert (H1 : R (num 0 / num M) == inject_Z 0).
    { apply fl_at; [ simpl; lia | ].
      unfold Qdiv. change (num 0) with 0. apply Qmult_0_l. }
    assert (H2 : R (R (num 0 / num M) * 50) == inject_Z 0).
    { apply fl_at; [ simpl; lia | ]. rewrite H1. reflexivity. }
    apply fl_at; [ simpl; lia | ]. rewrite H2. reflexivity.
Qed.

Lemma nothing_added (n : Z) (score : Q) :
  score == inject_Z n -> score == inject_Z (n + 0).
Proof. now rewrite Z.add_0_r. Qed.

Lemma locationMatching_Z (n : Z) ul jl (score : Q) :
  (0 <= n <= 100)%Z -> score == inject_Z n ->
  locationMatching R ul jl score == inject_Z (n + locationPoints ul jl).
Proof.
  intros Hn Hs. unfold locationMatching, locationPoints.
  destruct ul as [ul | ], jl as [jl | ]; try now apply nothing_added.
  repeat match goal with
         | |- context [if ?c then _ else _] =>
             destruct c; [ apply plus_Z; [ simpl; lia | exact Hs ] | ]
         end.
  now apply nothing_added.
Qed.

Lemma jobTypePreference_Z (n : Z) preferred jobType (score : Q) :
  (0 <= n <= 100)%Z -> score == inject_Z n ->
  jobTypePreference R preferred jobType score
  == inject_Z (n + typePoints preferred jobType).
Proof.
  intros Hn Hs. unfold jobTypePreference, typePoints.
  destruct (arrayIncludes preferred jobType);
    [ apply plus_Z; [ simpl; lia | exact Hs ] | now apply nothing_added ].
Qed.

Lemma experienceLevel_Z (n : Z) jobLevel userExperience (score : Q) :
  (0 <= n <= 100)%Z -> score == inject_Z n ->
  experienceLevel R jobLevel userExperience score
  == inject_Z (n + levelPoints jobLevel userExperience).
Proof.
  intros Hn Hs. unfold experienceLevel, levelPoints.
  repeat match goal with
         | |- context [if ?c then _ else _] =>
             destruct c; [ apply plus_Z; [ simpl; lia | exact Hs ] | ]
         end.
  now apply nothing_added.
Qed.

Lemma locationPoints_range ul jl : (0 <= locationPoints ul jl <= 20)%Z.
Proof.
  unfold locationPoints. destruct ul, jl; try lia.
  repeat match goal with
         | |- context [if ?c then _ else _] => destruct c; try lia
         end.
Qed.

Lemma typePoints_range preferred jobType :
  (0 <= typePoints preferred jobType <= 15)%Z.
Proof. unfold typePoints. destruct (arrayIncludes _ _); lia. Qed.

Lemma skillPoints_range cs js : (0 <= skillPoints cs js <= 50)%Z.
Proof.
  unfold skillPoints.
  match goal with
  | |- context [if ?c then _ else _] => destruct c; lia
  end.
Qed.

(** X17: when no candidate skill matches a job skill, or when the matching
    skills are as many as the longer of the two skill lists, no rounding of
    double arithmetic is left in the score of a candidate: it is 50 or 0
    for the skills plus the whole points for location, job type and
    experience, whatever the rounding. *)
Theorem whole_scores_are_exact (job : Job) (user : User) :
  u_role user = "candidate"%string ->
  List.length (matchingSkills (candidateSkills user) (jobSkills job)) = 0%nat
  \/ List.length (matchingSkills (candidateSkills user) (jobSkills job))
     = Nat.max (List.length (candidateSkills user))
               (List.length (jobSkills job)) ->
  calculateJobMatch R job user
  = Some (skillPoints (candidateSkills user) (jobSkills job)
          + locationPoints (userLocation user) (j_location job)
          + typePoints (preferredJobTypes user) (j_jobType job)
          + levelPoints (j_level job) (userExperience user))%Z.
Proof.
  intros Hrole Hends. unfold calculateJobMatch. rewrite Hrole.
  change (negb ("candidate" =? "candidate")%string) with false. cbv iota.
  f_equal. unfold rawScore. cbv zeta.
  pose proof (skillPoints_range (candidateSkills user) (jobSkills job)) as Hs.
  pose proof (locationPoints_range (userLocation user) (j_location job)) as Hl.
  pose proof (typePoints_range (preferredJobTypes user) (j_jobType job)) as Ht.
  pose proof (skillMatching_ends _ _ Hends) as H1.
  apply (locationMatching_Z _ (userLocation user) (j_location job)) in H1;
    [ | lia ].
  apply (jobTypePreference_Z _ (preferredJobTypes user) (j_jobType job)) in H1;
    [ | lia ].
  apply (experienceLevel_Z _ (j_level job) (userExperience user)) in H1;
    [ | lia ].
  match goal with
  | |- Math_round ?x = ?n =>
      destruct (Math_round_between n n x); [ lra | lra | lia ]
  end.
Qed.

End WithRounding.

(** A candidate in Berlin with five years behind them and the two skills a
    senior position in Berlin asks for. *)
Definition seniorCandidate : User :=
  {| u_id := 1%nat; u_role := "candidate"%string;
     u_profile :=
       Some {| p_location :=
                 Some {| ul_city := Some "berlin"%string; ul_state := None;
                         ul_country := None |} |};
     u_candidateProfile :=
       Some {| cp_skills := Some ["react"; "Node"]%string;
               cp_experience :=
                 Some (repeat {| exp_title := None; exp_company := None |} 5);
               cp_education := None;
               cp_preferredJobTypes := Some ["full-time"]%string |} |}.

Definition seniorJob : Job :=
  {| j_id := 9%nat; j_company := 2%nat;
     j_location := Some {| jl_city := Some "Berlin"%string; jl_state := None;
                           jl_country := Some "Germany"%string;
                           jl_remote := None |};
     j_requirements := Some {| rq_skills := Some ["React"; "Node.js"]%string |};
     j_jobType := "full-time"%string; j_level := "senior"%string;
     j_status := "active"%string; j_approved := true;
     j_applicationCount := 0%Z |}.

(** The full score, 100. *)
Lemma whole_scores_are_exact_witness :
  calculateJobMatch exact seniorJob seniorCandidate = Some 100%Z.
Proof.
  exact (whole_scores_are_exact exact seniorJob seniorCandidate eq_refl
           (or_intror eq_refl)).
Defined.

End ScorerExactness.

(* ------------------------------------------------------------------ *)
(** ** Which skills match *)

Module ScorerMatching.

Import JS Scorer ScorerFacts ExactArithmetic ScorerExactness.
Local Open Scope Q_scope.

(** Two strings that differ in case at most. *)
Definition sameFold (a b : string) : Prop := toLowerCase a = toLowerCase b.

(** The test of the [some] of the source. *)
Definition overlaps (skill jobSkill : string) : bool :=
  includes (toLowerCase jobSkill) (toLowerCase skill)
  || includes (toLowerCase skill) (toLowerCase jobSkill).

Lemma existsb_fold (skill skill' : string) (js js' : list string) :
  sameFold skill skill' -> Forall2 sameFold js js' ->
  existsb (overlaps skill) js = existsb (overlaps skill') js'.
Proof.
  intros Hs Hjs. induction Hjs as [ | j j' js js' Hj _ IH]; [ reflexivity | ].
  cbn [existsb]. rewrite IH. unfold overlaps, sameFold in *.
  now rewrite Hs, Hj.
Qed.

Lemma matchingSkills_fold (cs cs' js js' : list string) :
  Forall2 sameFold cs cs' -> Forall2 sameFold js js' ->
  Forall2 sameFold (matchingSkills cs js) (matchingSkills cs' js').
Proof.
  intros Hcs Hjs. unfold matchingSkills.
  induction Hcs as [ | c c' cs cs' Hc _ IH]; [ constructor | ].
  cbn [filter].
  change (fun jobSkill : string =>
            includes (toLowerCase jobSkill) (toLowerCase c)
            || includes (toLowerCase c) (toLowerCase jobSkill))
    with (overlaps c).
  change (fun jobSkill : string =>
            includes (toLowerCase jobSkill) (toLowerCase c')
            || includes (toLowerCase c') (toLowerCase jobSkill))
    with (overlaps c').
  rewrite (existsb_fold c c' js js' Hc Hjs).
  destruct (existsb (overlaps c') js'); [ now constructor | exact IH ].
Qed.

Lemma Forall2_same_length {A : Type} (P : A -> A -> Prop) (l l' : list A) :
  Forall2 P l l' -> List.length l = List.length l'.
Proof. induction 1; cbn [List.length]; congruence. Qed.

Lemma includes_empty (s : string) : includes s "" = true.
Proof. destruct s; reflexivity. Qed.

Lemma blank_matches (js : list string) (c : string) :
  In ""%string js -> existsb (overlaps c) js = true.
Proof.
  intros Hin. apply existsb_exists. exists ""%string.
  split; [ exact Hin | ]. unfold overlaps. cbn [toLowerCase].
  now rewrite includes_empty, orb_true_r.
Qed.

Section WithRounding.

Variable R : Rounding.

Lemma skillMatching_fold (cs cs' js js' : list string) (score : Q) :
  Forall2 sameFold cs cs' -> Forall2 sameFold js js' ->
  skillMatching R cs js score = skillMatching R cs' js' score.
Proof.
  intros Hcs Hjs. unfold skillMatching.
  rewrite (Forall2_same_length _ _ _ Hcs), (Forall2_same_length _ _ _ Hjs).
  now rewrite (Forall2_same_length _ _ _ (matchingSkills_fold _ _ _ _ Hcs Hjs)).
Qed.

(** X18: the score does not look at the case of the skills: two candidates
    whose skills differ in case only, and two jobs whose required skills
    differ in case only, get the same score when they agree on the rest of
    what the scorer reads. *)
Theorem calculateJobMatch_ignores_case (job job' : Job) (user user' : User) :
  Forall2 sameFold (candidateSkills user) (candidateSkills user') ->
  Forall2 sameFold (jobSkills job) (jobSkills job') ->
  u_role user = u_role user' ->
  userLocation user = userLocation user' ->
  preferredJobTypes user = preferredJobTypes user' ->
  userExperience user = userExperience user' ->
  j_location job = j_location job' ->
  j_jobType job = j_jobType job' ->
  j_level job = j_level job' ->
  calculateJobMatch R job user = calculateJobMatch R job' user'.
Proof.
  intros Hcs Hjs Hrole Hloc Hpref Hexp Hjloc Htype Hlevel.
  unfold calculateJobMatch, rawScore.
  rewrite Hrole, Hloc, Hpref, Hexp, Hjloc, Htype, Hlevel.
  now rewrite (skillMatching_fold _ _ _ _ 0 Hcs Hjs).
Qed.

(** X19: a blank among the skills a job requires matches every skill:
    each skill of the candidate counts as matching, and a candidate with at
    least as many skills as the job requires gets the 50 points of the
    skill block in full. *)
Theorem blank_job_skill_matches_every_skill (cs js : list string) :
  In ""%string js ->
  matchingSkills cs js = cs /\
  (cs <> [] -> (List.length js <= List.length cs)%nat ->
   skillMatching R cs js 0 == 50).
Proof.
  intros Hin.
  assert (Hall : matchingSkills cs js = cs).
  { unfold matchingSkills. induction cs as [ | c cs IH]; [ reflexivity | ].
    cbn [filter].
    change (fun jobSkill : string =>
              includes (toLowerCase jobSkill) (toLowerCase c)
              || includes (toLowerCase c) (toLowerCase jobSkill))
      with (overlaps c).
    now rewrite (blank_matches js c Hin), IH. }
  split; [ exact Hall | ]. intros Hcs Hlen.
  rewrite (skillMatching_ends R cs js).
  - unfold skillPoints. rewrite Hall.
    destruct cs as [ | c cs]; [ contradiction | ].
    destruct js as [ | j js]; [ contradiction | ].
    cbn [List.length] in *.
    replace (Nat.max (S (List.length cs)) (S (List.length js)))
      with (S (List.length cs)) by lia.
    rewrite Nat.eqb_refl. reflexivity.
  - right. rewrite Hall. lia.
Qed.

End WithRounding.

(** The senior candidate, shouting. *)
Definition shoutingCandidate : User :=
  {| u_id := 1%nat; u_role := "candidate"%string;
     u_profile := u_profile seniorCandidate;
     u_candidateProfile :=
       Some {| cp_skills := Some ["REACT"; "nODE"]%string;
               cp_experience :=
                 Some (repeat {| exp_title := None; exp_company := None |} 5);
               cp_education := None;
               cp_preferredJobTypes := Some ["full-time"]%string |} |}.

Lemma calculateJobMatch_ignores_case_witness :
  calculateJobMatch exact seniorJob shoutingCandidate
  = calculateJobMatch exact seniorJob seniorCandidate.
Proof.
  apply (calculateJobMatch_ignores_case exact seniorJob seniorJob
           shoutingCandidate seniorCandidate); try reflexivity.
  - repeat constructor.
  - repeat constructor.
Defined.

(** A job that requires a blank, and a candidate with one skill that has
    nothing to do with it. *)
Lemma blank_job_skill_matches_every_skill_witness :
  matchingSkills ["Cobol"]%string [""%string] = ["Cobol"]%string.
Proof.
  exact (proj1 (blank_job_skill_matches_every_skill
                  exact ["Cobol"]%string [""%string] (or_introl eq_refl))).
Defined.

End ScorerMatching.

(* ------------------------------------------------------------------ *)
(** ** Properties of the virtuals and of the lists *)

Module ViewProperties.

Import JS Scorer ScorerFacts ExactArithmetic Mongoose MongooseFacts Routes.
Import Views LifecycleProperties ScorerExactness.

(** *** Ranking by match score *)

(** [x] does not stand behind [y] for its score. *)
Definition beats (x y : ScoredJob) : Prop :=
  (scoreOrZero y <= scoreOrZero x)%Z.

(** The jobs of a list that have the score [k], in the order of the list. *)
Definition scoring (k : Z) (l : list ScoredJob) : list ScoredJob :=
  filter (fun x => (scoreOrZero x =? k)%Z) l.

Definition isCandidate (user : option User) : bool :=
  match user with
  | Some u => (u_role u =? "candidate")%string
  | None => false
  end.

Lemma insertByScore_perm (x : ScoredJob) (l : list ScoredJob) :
  Permutation (insertByScore x l) (x :: l).
Proof.
  induction l as [ | y l IH]; cbn [insertByScore]; [ reflexivity | ].
  destruct (scoreOrZero y <=? scoreOrZero x)%Z; [ reflexivity | ].
  rewrite IH. apply perm_swap.
Qed.

Lemma sortByMatchScore_perm (l : list ScoredJob) :
  Permutation (sortByMatchScore l) l.
Proof.
  induction l as [ | x l IH]; cbn [sortByMatchScore]; [ reflexivity | ].
  rewrite insertByScore_perm. now constructor.
Qed.

Lemma insertByScore_sorted (x : ScoredJob) (l : list ScoredJob) :
  StronglySorted beats l -> StronglySorted beats (insertByScore x l).
Proof.
  induction l as [ | y l IH]; cbn [insertByScore]; intros Hs.
  - repeat constructor.
  - destruct (scoreOrZero y <=? scoreOrZero x)%Z eqn:E.
    + apply Z.leb_le in E. constructor; [ exact Hs | ].
      apply StronglySorted_inv in Hs. destruct Hs as [_ Hall].
      constructor; [ exact E | ].
      rewrite Forall_forall in Hall |- *. intros z Hz.
      specialize (Hall z Hz). unfold beats in *. lia.
    + apply Z.leb_gt in E.
      apply StronglySorted_inv in Hs. destruct Hs as [Hs Hall].
      constructor; [ now apply IH | ].
      rewrite Forall_forall in Hall |- *. intros z Hz.
      apply (Permutation_in _ (insertByScore_perm x l)) in Hz.
      destruct Hz as [<- | Hz]; [ unfold beats; lia | now apply Hall ].
Qed.

Lemma sortByMatchScore_sorted (l : list ScoredJob) :
  StronglySorted beats (sortByMatchScore l).
Proof.
  induction l as [ | x l IH]; cbn [sortByMatchScore]; [ constructor | ].
  now apply insertByScore_sorted.
Qed.

Lemma insertByScore_stable (k : Z) (x : ScoredJob) (l : list ScoredJob) :
  scoring k (insertByScore x l) = scoring k (x :: l).
Proof.
  unfold scoring.
  induction l as [ | y l IH]; cbn [insertByScore]; [ reflexivity | ].
  destruct (scoreOrZero y <=? scoreOrZero x)%Z eqn:E; [ reflexivity | ].
  apply Z.leb_gt in E.
  cbn [filter] in IH |- *. rewrite IH.
  destruct (scoreOrZero x =? k)%Z eqn:Ex, (scoreOrZero y =? k)%Z eqn:Ey;
    trivial.
  apply Z.eqb_eq in Ex, Ey. lia.
Qed.

Lemma sortByMatchScore_stable (k : Z) (l : list ScoredJob) :
  scoring k (sortByMatchScore l) = scoring k l.
Proof.
  induction l as [ | x l IH]; cbn [sortByMatchScore]; [ reflexivity | ].
  rewrite insertByScore_stable. unfold scoring in *. cbn [filter].
  now rewrite IH.
Qed.

(** *** Rounding up a quotient *)

Lemma Qceiling_between (q : Z) (y : Q) :
  inject_Z q < y -> y <= inject_Z (q + 1) -> Qceiling y = (q + 1)%Z.
Proof.
  intros Hlo Hhi.
  pose proof (Qle_ceiling y) as H1.
  pose proof (Qceiling_lt y) as H2.
  assert (A : inject_Z q < inject_Z (Qceiling y)) by lra.
  assert (B : inject_Z (Qceiling y - 1) < inject_Z (q + 1)) by lra.
  rewrite <- Zlt_Qlt in A, B. lia.
Qed.

Lemma Qceiling_at (n : Z) (y : Q) : y == inject_Z n -> Qceiling y = n.
Proof. intros H. rewrite H. apply Qceiling_Z. Qed.

(** *** Slices of a list *)

Lemma slice_length {A : Type} (skip limit : nat) (l : list A) :
  List.length (slice skip limit l) = Nat.min limit (List.length l - skip).
Proof. unfold slice. now rewrite length_firstn, length_skipn. Qed.

Lemma slice_In {A : Type} (skip limit : nat) (l : list A) (x : A) :
  In x (slice skip limit l) -> In x l.
Proof.
  unfold slice. intros H.
  rewrite <- (firstn_skipn skip l). apply in_or_app. right.
  rewrite <- (firstn_skipn limit (skipn skip l)). apply in_or_app. now left.
Qed.

Lemma firstn_add {A : Type} (a b : nat) (l : list A) :
  firstn (a + b) l = (firstn a l ++ firstn b (skipn a l))%list.
Proof.
  revert l. induction a as [ | a IH]; intros l; [ reflexivity | ].
  destruct l as [ | x l]; cbn [Nat.add firstn skipn app].
  - now rewrite firstn_nil.
  - now rewrite IH.
Qed.

(** The first [n] pages, one after the other. *)
Lemma pages_concat {A : Type} (limit n : nat) (l : list A) :
  List.concat (map (fun page => slice (skipOf page limit) limit l) (seq 1 n))
  = firstn (n * limit) l.
Proof.
  induction n as [ | n IH]; [ reflexivity | ].
  rewrite seq_S, map_app, concat_app, IH. cbn [map List.concat Nat.add].
  rewrite app_nil_r. unfold skipOf, slice.
  replace (S n - 1)%nat with n by lia.
  replace (S n * limit)%nat with (n * limit + limit)%nat by lia.
  now rewrite firstn_add.
Qed.

Lemma hasNext_iff (page limit total : nat) :
  (1 <= page)%nat -> (1 <= limit)%nat ->
  (skipOf page limit + Nat.min limit (total - skipOf page limit) < total)%nat
  <-> (page < (total + limit - 1) / limit)%nat.
Proof.
  intros Hp Hl. unfold skipOf.
  pose proof (Nat.div_mod_eq (total + limit - 1) limit) as Hd.
  pose proof (Nat.mod_upper_bound (total + limit - 1) limit ltac:(lia)) as Hm.
  set (c := ((total + limit - 1) / limit)%nat) in *.
  set (r := ((total + limit - 1) mod limit)%nat) in *.
  clearbody c r.
  destruct page as [ | p]; [ lia | ].
  replace (S p - 1)%nat with p by lia.
  split; intros H.
  - assert (p * limit + limit < total)%nat by lia. nia.
  - assert (S p * limit < total)%nat by nia. lia.
Qed.

(** *** The parts of a location *)

Local Open Scope string_scope.

Lemma part_nil (o : option string) : part o = [] <-> truthy o = false.
Proof.
  unfold part, truthy. destruct o as [s | ]; [ | tauto ].
  destruct (s =? ""); cbn [negb]; split; (reflexivity || discriminate).
Qed.

Lemma part_filled (o : option string) : Forall (fun s => s <> "") (part o).
Proof.
  unfold part. destruct o as [s | ]; [ | constructor ].
  destruct (s =? "") eqn:E; constructor; [ | constructor ].
  now apply String.eqb_neq.
Qed.

Lemma concat_empty (sep : string) (parts : list string) :
  Forall (fun s => s <> "") parts ->
  (String.concat sep parts = "" <-> parts = []).
Proof.
  intros Hall. destruct parts as [ | p [ | q rest]]; cbn [String.concat].
  - tauto.
  - apply Forall_inv in Hall. split; [ contradiction | discriminate ].
  - apply Forall_inv in Hall.
    destruct p; [ contradiction | ]. split; discriminate.
Qed.

Lemma append_assoc (a b c : string) : (a ++ b) ++ c = a ++ b ++ c.
Proof. induction a as [ | x a IH]; cbn; [ reflexivity | now rewrite IH ]. Qed.

Lemma concat_last (sep last : string) (parts : list string) :
  exists front, String.concat sep (parts ++ [last]) = front ++ last.
Proof.
  induction parts as [ | p parts [front IH]].
  - exists "". reflexivity.
  - destruct parts as [ | q parts].
    + exists (p ++ sep). cbn [app String.concat]. now rewrite append_assoc.
    + exists (p ++ sep ++ front).
      change ((p :: q :: parts) ++ [last])%list
        with (p :: (q :: parts) ++ [last])%list.
      cbn [app String.concat] in IH |- *. rewrite IH.
      now rewrite !append_assoc.
Qed.

(** X25: the full location of a job is empty exactly when the job has no
    city, no state, no country and is not remote; for a remote job it ends
    in [Remote]. *)
Theorem fullLocation_parts (l : JobLocation) :
  (fullLocation l = "" <->
   truthy (jl_city l) = false /\ truthy (jl_state l) = false /\
   truthy (jl_country l) = false /\ truthyFlag (jl_remote l) = false) /\
  (truthyFlag (jl_remote l) = true ->
   exists front, fullLocation l = front ++ "Remote").
Proof.
  unfold fullLocation. split.
  - rewrite concat_empty.
    + rewrite <- !part_nil.
      destruct (part (jl_city l)), (part (jl_state l)), (part (jl_country l)),
        (truthyFlag (jl_remote l)); cbn [app];
        split; try discriminate; try tauto;
        intros (? & ? & ? & ?); discriminate.
    + repeat (apply Forall_app; split); try apply part_filled.
      destruct (truthyFlag (jl_remote l)); repeat constructor. discriminate.
  - intros ->. rewrite !app_assoc. apply concat_last.
Qed.

Local Close Scope string_scope.

(** *** The lists *)

(** The request for another page of the same list. *)
Definition atPage (page : nat) (req : ListRequest) : ListRequest :=
  {| lr_user := lr_user req; lr_errors := lr_errors req;
     lr_page := Some page; lr_limit := lr_limit req;
     lr_status := lr_status req; lr_jobId := lr_jobId req |}.

(** Everything the filter of a request lets through, newest first. *)
Definition visible (req : ListRequest) (w : World) : list Application :=
  newestFirst (filter (matches req) (applications w)).

Section WithRounding.

Variable R : Rounding.

Lemma score_of_candidate (job : Job) (user : User) :
  u_role user = "candidate"%string ->
  exists s, calculateJobMatch R job user = Some s /\ (0 <= s <= 100)%Z.
Proof.
  intros Hrole. unfold calculateJobMatch. rewrite Hrole.
  change (negb ("candidate" =? "candidate")%string) with false. cbv iota.
  eexists. split; [ reflexivity | ].
  destruct (ScorerProperties.rawScore_between R job user) as [A B].
  apply Math_round_between; assumption.
Qed.

(** X26: a candidate who searches the job list by relevance gets the page
    ranked by match score: the jobs of the page, each once and each with
    its score; no job stands behind a job with a lower score, and jobs
    with the same score stand in the order of the query. *)
Theorem relevance_search_is_a_stable_ranking (user : User)
        (search : string) (jobs : list Job) :
  u_role user = "candidate"%string -> search <> ""%string ->
  let ranked :=
    scoredPage R (Some user) (Some search) "relevance"%string jobs in
  Permutation ranked (withMatchScores R user jobs) /\
  StronglySorted beats ranked /\
  (forall k, scoring k ranked = scoring k (withMatchScores R user jobs)).
Proof.
  intros Hrole Hsearch. cbv zeta. unfold scoredPage. rewrite Hrole.
  change ("candidate" =? "candidate")%string with true. cbv iota zeta.
  apply String.eqb_neq in Hsearch. cbn [truthy]. rewrite Hsearch.
  change ("relevance" =? "relevance")%string with true. cbn [negb andb].
  split; [ apply sortByMatchScore_perm | ].
  split; [ apply sortByMatchScore_sorted | ].
  intros k. apply sortByMatchScore_stable.
Qed.

(** X21: the scores of the job list never add or drop a job of the page
    and, unless the caller is a candidate searching by relevance, keep its
    order; the jobs carry a score, between 0 and 100, exactly when the
    caller is a candidate. *)
Theorem scores_keep_the_page (user : option User) (search : option string)
        (sort : string) (jobs : list Job) :
  Permutation (map fst (scoredPage R user search sort jobs)) jobs /\
  (isCandidate user && truthy search && (sort =? "relevance")%string = false
   -> map fst (scoredPage R user search sort jobs) = jobs) /\
  Forall (fun x => if isCandidate user
                   then exists s, snd x = Some s /\ (0 <= s <= 100)%Z
                   else snd x = None)
         (scoredPage R user search sort jobs).
Proof.
  assert (Hplain : forall (f : Job -> option Z) (l : list Job),
             map fst (map (fun job => (job, f job)) l) = l).
  { intros f l. rewrite map_map. cbn [fst]. apply map_id. }
  assert (Hnone : Forall (fun x : ScoredJob => snd x = None)
                         (map (fun job => (job, None)) jobs)).
  { rewrite Forall_forall. intros x Hx. apply in_map_iff in Hx.
    now destruct Hx as (job & <- & _). }
  unfold scoredPage, isCandidate.
  destruct user as [u | ].
  2:{ rewrite Hplain. repeat split; trivial. }
  destruct (u_role u =? "candidate")%string eqn:Hrole.
  2:{ rewrite Hplain. repeat split; trivial. }
  apply String.eqb_eq in Hrole. cbv zeta. cbn [andb].
  assert (Hscored : Forall (fun x : ScoredJob =>
                              exists s, snd x = Some s /\ (0 <= s <= 100)%Z)
                           (withMatchScores R u jobs)).
  { rewrite Forall_forall. intros x Hx. unfold withMatchScores in Hx.
    apply in_map_iff in Hx. destruct Hx as (job & <- & _).
    now apply score_of_candidate. }
  destruct (truthy search && (sort =? "relevance")%string).
  - pose proof (sortByMatchScore_perm (withMatchScores R u jobs)) as Hperm.
    split; [ | split; [ discriminate | ] ].
    + rewrite (Permutation_map fst Hperm). unfold withMatchScores.
      now rewrite Hplain.
    + rewrite Forall_forall in Hscored |- *. intros x Hx.
      apply Hscored. exact (Permutation_in _ Hperm Hx).
  - unfold withMatchScores in *. rewrite Hplain. repeat split; trivial.
Qed.

(** [Math.ceil(x / b)] for whole numbers [x] and [b] below [2^53]: the
    division is rounded, the answer is not off for that. *)
Lemma ceil_of_quotient (a b : Z) (x : Q) :
  (0 <= a < 2 ^ 53)%Z -> (1 <= b <= 2 ^ 53)%Z -> x == inject_Z a ->
  Qceiling (R (x / inject_Z b)) = ((a + b - 1) / b)%Z.
Proof.
  intros Ha Hb Hx.
  set (q := (a / b)%Z). set (r := (a mod b)%Z).
  assert (Hdiv : a = (b * q + r)%Z) by (apply Z.div_mod; lia).
  assert (Hr : (0 <= r < b)%Z) by (apply Z.mod_pos_bound; lia).
  assert (Hq : (0 <= q)%Z) by (apply Z.div_pos; lia).
  clearbody q r.
  assert (Hqa : (q <= a)%Z) by nia.
  assert (HB : 0 < inject_Z b).
  { change 0 with (inject_Z 0). rewrite <- Zlt_Qlt. lia. }
  assert (HX : x / inject_Z b * inject_Z b == inject_Z a).
  { rewrite Hx. field. lra. }
  set (X := x / inject_Z b) in *.
  destruct (Z.eq_dec r 0) as [Hr0 | Hr0].
  - assert (HXq : X == inject_Z q).
    { unfold X. rewrite Hx, Hdiv, Hr0, Z.add_0_r, inject_Z_mult. field. lra. }
    rewrite (Qceiling_at q); [ | apply fl_at; [ lia | exact HXq ] ].
    apply Z.div_unique with (b - 1)%Z; lia.
  - assert (Hlo : inject_Z q * inject_Z b + 1 <= inject_Z a).
    { rewrite <- inject_Z_mult. change 1 with (inject_Z 1).
      rewrite <- inject_Z_plus, <- Zle_Qle. lia. }
    assert (Hhi : inject_Z a <= inject_Z (q + 1) * inject_Z b).
    { rewrite <- inject_Z_mult, <- Zle_Qle. nia. }
    assert (HqX : inject_Z q <= X /\ X <= inject_Z (q + 1)).
    { split.
      - apply Qle_shift_div_l; [ exact HB | lra ].
      - apply Qle_shift_div_r; [ exact HB | lra ]. }
    destruct (@fl_between R q (q + 1) X) as [_ Hup]; try lia; try tauto.
    assert (HA : 1 <= inject_Z a /\ inject_Z a < inject_Z (2 ^ 53)).
    { change 1 with (inject_Z 1). rewrite <- Zle_Qle, <- Zlt_Qlt. lia. }
    assert (HBmax : inject_Z b <= inject_Z (2 ^ 53))
      by (rewrite <- Zle_Qle; lia).
    assert (Hq1 : inject_Z (q + 1) <= inject_Z (2 ^ 53))
      by (rewrite <- Zle_Qle; lia).
    change (2 ^ 53)%Z with 9007199254740992%Z in HA, HBmax, Hq1.
    assert (Hstrict : inject_Z q < R X).
    { destruct (fl_error R X) as [Herr _].
      - apply Qle_shift_div_l; [ exact HB | ].
        apply Qle_trans with (minNormal * inject_Z 9007199254740992).
        + apply Qmult_le_l; [ reflexivity | exact HBmax ].
        + apply Qle_trans with 1; [ vm_compute; discriminate | lra ].
      - unfold maxExact. change (2 ^ 53)%Z with 9007199254740992%Z. lra.
      - apply Qlt_le_trans with (X * (1 - unitRoundoff)); [ | exact Herr ].
        apply (Qmult_lt_r _ _ (inject_Z b) HB).
        assert (E : X * (1 - unitRoundoff) * inject_Z b
                    == inject_Z a - inject_Z a * unitRoundoff)
          by (rewrite <- HX; ring).
        rewrite E. change unitRoundoff with (1 # 9007199254740992).
        change (inject_Z 9007199254740992) with 9007199254740992 in HA.
        lra. }
    rewrite (Qceiling_between q); trivial.
    apply Z.div_unique with (r - 1)%Z; lia.
Qed.

Lemma pagination_total (page limit shown total : nat) :
  (1 <= limit)%nat -> (Z.of_nat total < 2 ^ 53)%Z ->
  (Z.of_nat limit <= 2 ^ 53)%Z ->
  pg_total (pagination R page limit shown total)
  = Z.of_nat ((total + limit - 1) / limit).
Proof.
  intros Hl Ht Hlmax. cbn [pagination pg_total]. unfold num.
  rewrite (ceil_of_quotient (Z.of_nat total) (Z.of_nat limit));
    [ | lia | lia | reflexivity ].
  rewrite Nat2Z.inj_div. f_equal. lia.
Qed.

(** The applications on a page of a list. *)
Definition listedOn (req : ListRequest) (w : World) (page : nat)
  : list Application :=
  match snd (getApplications R (atPage page req) w) with
  | Listed found _ _ => found
  | ListErrors _ => []
  end.

(** X22: a list of applications shows stored applications that pass the
    filter of the request and no more of them than the limit: a candidate
    sees applications of their own only, an employer applications to their
    own jobs only, and a status or a job given in the query is the status
    or the job of every application shown.  The total sent along counts
    everything that passes the filter. *)
Theorem listing_shows_what_the_caller_may_see (req : ListRequest)
        (w : World) :
  lr_errors req = [] ->
  exists found pg,
    getApplications R req w
    = (200%Z, Listed found pg (List.length (visible req w))) /\
    (List.length found <= limitOf req)%nat /\
    Forall (fun a =>
              In a (applications w) /\
              (u_role (lr_user req) = "candidate"%string ->
               a_applicant a = u_id (lr_user req)) /\
              (u_role (lr_user req) = "employer"%string ->
               a_employer a = u_id (lr_user req)) /\
              (truthy (lr_status req) = true ->
               lr_status req = Some (a_status a)) /\
              (forall jobId, lr_jobId req = Some jobId -> a_job a = jobId))
           found.
Proof.
  intros Herr. unfold getApplications. rewrite Herr. cbv zeta.
  eexists. eexists. split.
  { unfold visible, newestFirst. now rewrite length_rev. }
  split.
  { unfold slice. rewrite length_firstn. lia. }
  rewrite Forall_forall. intros a Ha.
  apply slice_In in Ha.
  unfold newestFirst in Ha. apply in_rev, filter_In in Ha.
  destruct Ha as [Hin Hm]. split; [ exact Hin | ].
  unfold matches in Hm.
  apply andb_prop in Hm. destruct Hm as [Hm Hjob].
  apply andb_prop in Hm. destruct Hm as [Hrole Hstatus].
  split; [ | split; [ | split ] ].
  - intros Hc. rewrite Hc in Hrole.
    change ("candidate" =? "candidate")%string with true in Hrole.
    now apply Nat.eqb_eq.
  - intros He. rewrite He in Hrole.
    change ("employer" =? "candidate")%string with false in Hrole.
    change ("employer" =? "employer")%string with true in Hrole.
    now apply Nat.eqb_eq.
  - intros Ht. rewrite Ht in Hstatus.
    destruct (lr_status req) as [s | ]; [ | discriminate ].
    apply String.eqb_eq in Hstatus. now subst s.
  - intros jobId Hj. rewrite Hj in Hjob. now apply Nat.eqb_eq.
Qed.

(** X23: the pagination of a list, for a page from 1 on and a limit
    between 1 and 50.  The number of pages is the total divided by the
    limit, rounded up, the rounding of the division notwithstanding; there
    is a next page exactly when the current page is not the last one, and
    a previous page exactly when it is not the first; and the pages from
    the first to the last, one after the other, show everything that
    passes the filter, each application once. *)
Theorem pagination_is_consistent (req : ListRequest) (w : World) :
  lr_errors req = [] ->
  (1 <= pageOf req)%nat -> (1 <= limitOf req <= 50)%nat ->
  (Z.of_nat (List.length (applications w)) < 2 ^ 53)%Z ->
  let pages := ((List.length (visible req w) + limitOf req - 1)
                / limitOf req)%nat in
  exists found pg total,
    getApplications R req w = (200%Z, Listed found pg total) /\
    pg_current pg = pageOf req /\
    pg_total pg = Z.of_nat pages /\
    (pg_hasNext pg = true <-> (pageOf req < pages)%nat) /\
    (pg_hasPrev pg = true <-> (1 < pageOf req)%nat) /\
    List.concat (map (listedOn req w) (seq 1 pages)) = visible req w.
Proof.
  intros Herr Hpage Hlimit Hsize pages.
  assert (Hvis : List.length (visible req w)
                 = List.length (filter (matches req) (applications w))).
  { unfold visible, newestFirst. apply length_rev. }
  pose proof (filter_length_le (matches req) (applications w)) as Hle.
  unfold getApplications. rewrite Herr. cbv zeta.
  eexists. eexists. eexists. split; [ reflexivity | ].
  split; [ reflexivity | ]. split.
  { rewrite pagination_total; [ | lia | lia | ].
    - unfold pages. now rewrite Hvis.
    - apply Z.le_trans with 50%Z; [ lia | vm_compute; discriminate ]. }
  split.
  { cbn [pagination pg_hasNext]. rewrite Nat.ltb_lt, slice_length.
    fold (visible req w). unfold pages. rewrite Hvis.
    apply hasNext_iff; lia. }
  split.
  { cbn [pagination pg_hasPrev]. apply Nat.ltb_lt. }
  assert (Hon : forall page, listedOn req w page
                             = slice (skipOf page (limitOf req)) (limitOf req)
                                     (visible req w)).
  { intros page. unfold listedOn, getApplications.
    cbn [atPage lr_errors]. rewrite Herr. reflexivity. }
  rewrite (map_ext _ _ Hon), pages_concat.
  apply firstn_all2. unfold pages.
  pose proof (Nat.div_mod_eq (List.length (visible req w) + limitOf req - 1)
                             (limitOf req)) as Hd.
  pose proof (Nat.mod_upper_bound
                (List.length (visible req w) + limitOf req - 1)
                (limitOf req) ltac:(lia)) as Hm.
  nia.
Qed.

(** X24: the age of an application is the number of days begun since its
    creation, counted on the distance between the clock and [createdAt]
    whichever of the two is ahead: zero in the millisecond of the creation,
    one up to 24 hours from it, and so on, the rounding of the division
    notwithstanding. *)
Theorem age_counts_the_days_begun (created : Date) (w : World) :
  (Z.abs (clock w (ticks w) - created) < 2 ^ 53)%Z ->
  exists days,
    age R created w = (Ok days, tick w) /\
    ((days - 1) * msPerDay < Z.abs (clock w (ticks w) - created)
     <= days * msPerDay)%Z.
Proof.
  intros Hlt. set (elapsed := Z.abs (clock w (ticks w) - created)) in *.
  unfold age, bind, newDate, ret. cbv zeta.
  eexists. split; [ reflexivity | ].
  assert (Hdiff : Qabs (R (inject_Z (clock w (ticks w)) - inject_Z created))
                  == inject_Z elapsed).
  { rewrite (fl_at R (clock w (ticks w) - created)).
    - unfold elapsed. unfold Qabs, inject_Z. reflexivity.
    - fold elapsed. lia.
    - unfold Z.sub. rewrite inject_Z_plus, inject_Z_opp. reflexivity. }
  rewrite (ceil_of_quotient elapsed msPerDay _);
    [ | unfold elapsed in *; lia | vm_compute; split; discriminate
      | exact Hdiff ].
  change msPerDay with 86400000%Z.
  pose proof (Z.div_mod (elapsed + 86400000 - 1) 86400000 ltac:(lia)) as Hd.
  pose proof (Z.mod_pos_bound (elapsed + 86400000 - 1) 86400000 ltac:(lia))
    as Hm.
  lia.
Qed.

End WithRounding.

(** The senior candidate searches; the senior job, found second, comes
    first. *)
Lemma relevance_search_is_a_stable_ranking_witness :
  Permutation
    (scoredPage exact (Some seniorCandidate) (Some "react"%string)
                "relevance"%string [ScorerProperties.remoteJob; seniorJob])
    (withMatchScores exact seniorCandidate
                     [ScorerProperties.remoteJob; seniorJob]) /\
  StronglySorted beats
    (scoredPage exact (Some seniorCandidate) (Some "react"%string)
                "relevance"%string [ScorerProperties.remoteJob; seniorJob]) /\
  (forall k,
     scoring k
       (scoredPage exact (Some seniorCandidate) (Some "react"%string)
                   "relevance"%string [ScorerProperties.remoteJob; seniorJob])
     = scoring k (withMatchScores exact seniorCandidate
                    [ScorerProperties.remoteJob; seniorJob])).
Proof.
  apply (relevance_search_is_a_stable_ranking exact seniorCandidate
           "react"%string [ScorerProperties.remoteJob; seniorJob] eq_refl).
  discriminate.
Defined.

(** A second application of the applicant, to another job. *)
Definition secondApplication : Application :=
  {| a_id := 2%nat; a_job := 8%nat; a_applicant := 1%nat;
     a_employer := 2%nat; a_status := "applied"%string;
     a_coverLetter := "Here I am again."%string; a_resume := None;
     a_matchScore := Some 25%Z;
     a_skills := ["JavaScript"; "React"]%string;
     a_experience := [Some "Developer"%string]; a_education := [];
     a_interview := defaultInterview; a_evaluation := defaultEvaluation;
     a_timeline := [];
     a_offer := defaultOffer |}.

Definition twoApplications : World :=
  portal [storedApplication; secondApplication] [postedJob "active" 1].

(** The applicant asks for their applications, one a page. *)
Definition listRequest : ListRequest :=
  {| lr_user := applicantUser; lr_errors := []; lr_page := None;
     lr_limit := Some 1%nat; lr_status := None; lr_jobId := None |}.

Lemma listing_shows_what_the_caller_may_see_witness :
  exists found pg,
    getApplications exact listRequest twoApplications
    = (200%Z, Listed found pg 2%nat) /\
    (List.length found <= 1)%nat /\
    Forall (fun a =>
              In a (applications twoApplications) /\
              (u_role applicantUser = "candidate"%string ->
               a_applicant a = 1%nat) /\
              (u_role applicantUser = "employer"%string ->
               a_employer a = 1%nat) /\
              (truthy None = true -> None = Some (a_status a)) /\
              (forall jobId, None = Some jobId -> a_job a = jobId))
           found.
Proof.
  exact (listing_shows_what_the_caller_may_see exact listRequest
           twoApplications eq_refl).
Defined.

Lemma pagination_is_consistent_witness :
  exists found pg total,
    getApplications exact listRequest twoApplications
    = (200%Z, Listed found pg total) /\
    pg_current pg = 1%nat /\
    pg_total pg = 2%Z /\
    (pg_hasNext pg = true <-> (1 < 2)%nat) /\
    (pg_hasPrev pg = true <-> (1 < 1)%nat) /\
    List.concat (map (listedOn exact listRequest twoApplications) (seq 1 2))
    = [secondApplication; storedApplication].
Proof.
  refine (pagination_is_consistent exact listRequest twoApplications
            eq_refl _ _ _).
  - apply le_n.
  - cbv [limitOf listRequest lr_limit]. lia.
  - reflexivity.
Defined.

(** An application created at 1000 - 86400001 is in its second day when the
    clock says 1000. *)
Lemma age_counts_the_days_begun_witness :
  exists days,
    age exact (-86399001)%Z appliedWorld = (Ok days, tick appliedWorld) /\
    ((days - 1) * msPerDay < 86400001 <= days * msPerDay)%Z.
Proof.
  refine (age_counts_the_days_begun exact (-86399001)%Z appliedWorld _).
  reflexivity.
Defined.

(** *** The routes that are never reached *)

Lemma dispatch_one (x : string) :
  x <> ""%string ->
  dispatch getRoutes [x] = Some (JobById, [("id"%string, x)]).
Proof.
  intros Hx. apply String.eqb_neq in Hx.
  cbn [dispatch getRoutes matchPath]. now rewrite Hx.
Qed.

(** X20: GET /api/jobs/recommended never reaches the handler written for
    it.  The route [/:id] is registered before it and matches every path
    of one segment, so no request at all is given to the handler of
    [/recommended]; the request for the recommended jobs is served by the
    handler of [/:id] with the id [recommended], which is no ObjectId: the
    query throws and the answer is 500, whoever asks and whatever the
    collections hold.  Of the cast of Mongoose the statement takes that a
    string it accepts has 24 or 12 characters. *)
Theorem recommended_is_shadowed (R : Rounding)
        (castObjectId : string -> option ObjectId) :
  (forall s id, castObjectId s = Some id ->
                String.length s = 24%nat \/ String.length s = 12%nat) ->
  (forall path handler params,
     dispatch getRoutes path = Some (handler, params) ->
     handler <> RecommendedJobs) /\
  dispatch getRoutes ["recommended"%string]
  = Some (JobById, [("id"%string, "recommended"%string)]) /\
  (forall user w,
     getJob R castObjectId user "recommended"%string w
     = (500%Z, JobMessage "Server error"%string)).
Proof.
  intros Hcast. split; [ | split ].
  - intros path handler params.
    destruct path as [ | x [ | y rest]].
    + cbn [dispatch getRoutes matchPath]. intros [= <- _]. discriminate.
    + cbn [dispatch getRoutes matchPath].
      destruct (x =? "")%string eqn:Hx; cbn [option_map].
      * apply String.eqb_eq in Hx. subst x.
        change (toLowerCase "recommended" =? toLowerCase "")%string
          with false.
        discriminate.
      * intros [= <- _]. discriminate.
    + cbn [dispatch getRoutes matchPath].
      destruct (x =? "")%string; cbn [option_map];
        destruct (toLowerCase "employer" =? toLowerCase x)%string;
        try destruct (toLowerCase "my-jobs" =? toLowerCase y)%string;
        try destruct rest;
        destruct (toLowerCase "recommended" =? toLowerCase x)%string;
        try discriminate; intros [= <- _]; discriminate.
  - apply dispatch_one. discriminate.
  - intros user w. unfold getJob.
    destruct (castObjectId "recommended"%string) as [id | ] eqn:E;
      [ | reflexivity ].
    destruct (Hcast _ _ E) as [H | H]; discriminate H.
Qed.

(** A cast that accepts the strings of 24 hexadecimal digits. *)
Definition hexDigit (c : Ascii.ascii) : option nat :=
  let n := nat_of_ascii c in
  if (48 <=? n)%nat && (n <=? 57)%nat then Some (n - 48)%nat
  else if (97 <=? n)%nat && (n <=? 102)%nat then Some (n - 87)%nat
  else if (65 <=? n)%nat && (n <=? 70)%nat then Some (n - 55)%nat
  else None.

Fixpoint hexValue (acc : nat) (s : string) : option nat :=
  match s with
  | EmptyString => Some acc
  | String c rest =>
      match hexDigit c with
      | Some d => hexValue (16 * acc + d) rest
      | None => None
      end
  end.

Definition hexObjectId (s : string) : option ObjectId :=
  if (String.length s =? 24)%nat then hexValue 0 s else None.

Lemma hexObjectId_length (s : string) (id : ObjectId) :
  hexObjectId s = Some id ->
  String.length s = 24%nat \/ String.length s = 12%nat.
Proof.
  unfold hexObjectId.
  destruct (String.length s =? 24)%nat eqn:E; [ | discriminate ].
  intros _. left. now apply Nat.eqb_eq.
Qed.

Lemma recommended_is_shadowed_witness :
  dispatch getRoutes ["recommended"%string]
  = Some (JobById, [("id"%string, "recommended"%string)]) /\
  getJob exact hexObjectId (Some seniorCandidate) "recommended"%string
         appliedWorld
  = (500%Z, JobMessage "Server error"%string).
Proof.
  destruct (recommended_is_shadowed exact hexObjectId hexObjectId_length)
    as (_ & Hroute & Hanswer).
  split; [ exact Hroute | apply Hanswer ].
Defined.

End ViewProperties.
